(** * Chronicles of Time: gesture, sampling, glyph life cycle and search

    A shallow embedding of the interaction core of the application and the
    properties stated about it:
    - [detectLoop], [processedMemories] and [handleToggleRecording] of
      App.tsx;
    - [processImageToParticles] of utils/imageProcessing;
    - the [useFrame] callback of components/ParticleScene;
    - the spawn effect and the physics loop of
      components/TextParticleSystem;
    - [AudioStreamer] of utils/audioStreamer.ts.

    Conventions of the embedding:
    - a JavaScript number is an exact rational ([Q]); counters, indices and
      lengths are [nat]; millisecond clocks ([Date.now()]) are [Z]. The
      rounding of doubles, infinities and [NaN] are not modelled;
    - a JavaScript string is the list of its UTF-16 code units;
    - the transcendental functions of [Math] and [String.prototype.toLowerCase]
      are parameters of the sections that use them, so every statement holds
      whatever they compute;
    - [Math.random()] is a stream of draws read through a cursor;
    - an exception ([TypeError] on a missing array element) is [None]. *)

From Stdlib Require Import ZArith QArith Qabs Qminmax Qround Lqa.
From Stdlib Require Import List Bool Arith Lia Permutation Sorted.
From Stdlib Require Ascii String.
Import String.StringSyntax.
Import ListNotations.

Set Implicit Arguments.

(** ** JavaScript numbers and strings *)

Module JS.

Open Scope Q_scope.

(** [a < b] and [a > b] on numbers, as booleans. *)
Definition ltb (a b : Q) : bool := negb (Qle_bool b a).
Definition gtb (a b : Q) : bool := ltb b a.
Definition geb (a b : Q) : bool := Qle_bool b a.

(** [THREE.MathUtils.lerp(x, y, t)] is [(1 - t) * x + t * y]. *)
Definition lerp (x y t : Q) : Q := (1 - t) * x + t * y.

(** A string is its sequence of UTF-16 code units. *)
Definition code := N.
Definition jsstring := list code.

Definition code_eqb : code -> code -> bool := N.eqb.

Fixpoint str_eqb (s t : jsstring) : bool :=
  match s, t with
  | [], [] => true
  | a :: s', b :: t' => code_eqb a b && str_eqb s' t'
  | _, _ => false
  end.

(** [s.startsWith(p)] *)
Fixpoint startsWith (s p : jsstring) {struct p} : bool :=
  match p, s with
  | [], _ => true
  | b :: p', a :: s' => code_eqb a b && startsWith s' p'
  | _ :: _, [] => false
  end.

(** [s.slice(n)] for [0 <= n]. *)
Definition slice_from (s : jsstring) (n : nat) : jsstring := skipn n s.

(** [s.includes(w)] *)
Fixpoint includes (s w : jsstring) : bool :=
  startsWith s w ||
  match s with
  | [] => false
  | _ :: s' => includes s' w
  end.

(** Text written with ASCII characters only, for examples. *)
Fixpoint of_ascii (s : String.string) : jsstring :=
  match s with
  | String.EmptyString => []
  | String.String c s' => Ascii.N_of_ascii c :: of_ascii s'
  end.

Arguments of_ascii s%_string_scope.

End JS.

(** The option monad stands for code that may throw. *)
Notation "x <- e ;; k" :=
  (match e with Some x => k | None => None end)
  (at level 61, e at next level, right associativity).

(** ** Gesture classifier (App.tsx, [detectLoop]) *)

Module Gesture.
Import JS.
Open Scope Q_scope.

Inductive Label := OPEN | CLOSED | SWIPE | PINCH | IDLE.

Record Landmark := mkLandmark { lm_x : Q; lm_y : Q; lm_z : Q }.

(** One detected hand: the array [result.landmarks[0]]. *)
Definition Hand := list Landmark.

Record Vec2 := mkVec2 { v2_x : Q; v2_y : Q }.
Record Vec3 := mkVec3 { v3_x : Q; v3_y : Q; v3_z : Q }.

Record HandData := mkHandData {
  gesture : Label;
  position : Vec3;
  palmCenter : Vec2;
  pointer : Vec2;
  rotation : Vec2;
  detected : bool;
  pinchDistance : Q
}.

(** What the loop keeps between polls: the React state [handData] and the
    refs [lastPointerRef] and [lastTimeRef]. *)
Record Tracker := mkTracker {
  handData : option HandData;
  lastPointerRef : option Vec2;
  lastTimeRef : Z
}.

Definition initial : Tracker :=
  {| handData := None; lastPointerRef := None; lastTimeRef := 0 |}.

(** One turn of the loop: whether the video element has data
    ([readyState >= 2]), what the detector returned, and [Date.now()]. *)
Record Poll := mkPoll {
  videoReady : bool;
  result : option (list Hand);
  now : Z
}.

(** [result && result.landmarks && result.landmarks.length > 0] *)
Definition firstHand (p : Poll) : option Hand :=
  match result p with
  | Some (landmarks :: _) => Some landmarks
  | _ => None
  end.

(** The signals measured on one frame. *)
Record Geometry := mkGeometry {
  extendedFingers : nat;
  palmNormalZ : Q;
  pinch : Q;
  px : Q;
  py : Q
}.

(** [tips.forEach(idx => ...)] with the running count. *)
Fixpoint countExtended (landmarks : Hand) (wrist : Landmark)
    (tips : list nat) (extended : nat) : option nat :=
  match tips with
  | [] => Some extended
  | idx :: rest =>
      tip <- nth_error landmarks idx ;;
      pip <- nth_error landmarks (idx - 2) ;;
      countExtended landmarks wrist rest
        (if gtb (lm_y wrist - lm_y tip) 0.1 && gtb (lm_y pip - lm_y tip) 0.05
         then S extended else extended)
  end.

Definition indexExtended (l6 l8 : Landmark) : bool :=
  gtb (lm_y l6 - lm_y l8) 0.05.

(** The chain of [if]/[else if] that assigns [gesture]. *)
Definition classify (pinchDistance : Q) (extended : nat)
    (palmNormal velocity : Q) (l6 l8 : Landmark) : Label :=
  if ltb pinchDistance 0.08 then PINCH
  else if (4 <=? extended)%nat then OPEN
  else if (extended <=? 1)%nat && gtb (Qabs palmNormal) 0.01 then CLOSED
  else if (extended =? 1)%nat && gtb velocity 0.5 then
    if indexExtended l6 l8 then SWIPE else IDLE
  else IDLE.

(** The [else] branch of the loop: [{ ...prev, detected: false, gesture: 'IDLE' }]. *)
Definition lost (prev : HandData) : HandData :=
  {| gesture := IDLE;
     position := position prev;
     palmCenter := palmCenter prev;
     pointer := pointer prev;
     rotation := rotation prev;
     detected := false;
     pinchDistance := pinchDistance prev |}.

Section WithMath.

Variable Math_sqrt : Q -> Q.
Variable Math_atan2 : Q -> Q -> Q.

Definition geometry (landmarks : Hand) : option Geometry :=
  wrist <- nth_error landmarks 0 ;;
  extended <- countExtended landmarks wrist [8; 12; 16; 20]%nat 0 ;;
  l5 <- nth_error landmarks 5 ;;
  l17 <- nth_error landmarks 17 ;;
  let ax := lm_x l5 - lm_x wrist in
  let ay := lm_y l5 - lm_y wrist in
  let bx := lm_x l17 - lm_x wrist in
  let by_ := lm_y l17 - lm_y wrist in
  thumbTip <- nth_error landmarks 4 ;;
  indexTip <- nth_error landmarks 8 ;;
  Some {| extendedFingers := extended;
          palmNormalZ := ax * by_ - ay * bx;
          pinch := Math_sqrt ((lm_x thumbTip - lm_x indexTip) ^ 2
                              + (lm_y thumbTip - lm_y indexTip) ^ 2);
          px := - (lm_x indexTip - 0.5) * 2;
          py := - (lm_y indexTip - 0.5) * 2 |}.

(** [velocity]: 0 unless a previous pointer and a previous time are cached
    and time has advanced. *)
Definition pointerVelocity (st : Tracker) (now : Z) (px py : Q) : Q :=
  match lastPointerRef st with
  | Some last =>
      if negb (lastTimeRef st =? 0)%Z then
        let dt := inject_Z (now - lastTimeRef st) / 1000 in
        if gtb dt 0 then
          let dx := px - v2_x last in
          let dy := py - v2_y last in
          Math_sqrt (dx * dx + dy * dy) / dt
        else 0
      else 0
  | None => 0
  end.

(** The object given to [setHandData] on a detection. *)
Definition publish (landmarks : Hand) (geo : Geometry) (g : Label)
    : option HandData :=
  l0 <- nth_error landmarks 0 ;;
  l5 <- nth_error landmarks 5 ;;
  l9 <- nth_error landmarks 9 ;;
  l17 <- nth_error landmarks 17 ;;
  Some {| gesture := g;
          position := {| v3_x := - (lm_x l9 - 0.5) * 2;
                         v3_y := - (lm_y l9 - 0.5) * 2;
                         v3_z := 0 |};
          palmCenter := {| v2_x := - (lm_x l9 - 0.5) * 2;
                           v2_y := - (lm_y l9 - 0.5) * 2 |};
          pointer := {| v2_x := px geo; v2_y := py geo |};
          rotation := {| v2_x := Math_atan2 (lm_y l9 - lm_y l0) (lm_x l9 - lm_x l0);
                         v2_y := Math_atan2 (lm_y l5 - lm_y l17) (lm_x l5 - lm_x l17) |};
          detected := true;
          pinchDistance := pinch geo |}.

(** The label computed on a frame, from the tracker as it was before. *)
Definition labelOf (st : Tracker) (now : Z) (landmarks : Hand) (geo : Geometry)
    : option Label :=
  l6 <- nth_error landmarks 6 ;;
  l8 <- nth_error landmarks 8 ;;
  Some (classify (pinch geo) (extendedFingers geo) (palmNormalZ geo)
          (pointerVelocity st now (px geo) (py geo)) l6 l8).

Definition detectFrame (st : Tracker) (now : Z) (landmarks : Hand)
    : option Tracker :=
  geo <- geometry landmarks ;;
  g <- labelOf st now landmarks geo ;;
  hd <- publish landmarks geo g ;;
  Some {| handData := Some hd;
          lastPointerRef := Some {| v2_x := px geo; v2_y := py geo |};
          lastTimeRef := now |}.

Definition detectLoop (st : Tracker) (p : Poll) : option Tracker :=
  if videoReady p then
    match firstHand p with
    | Some landmarks => detectFrame st (now p) landmarks
    | None =>
        Some {| handData := option_map lost (handData st);
                lastPointerRef := None;
                lastTimeRef := lastTimeRef st |}
    end
  else Some st.

(** The loop over a sequence of polls. *)
Fixpoint run (st : Tracker) (polls : list Poll) : option Tracker :=
  match polls with
  | [] => Some st
  | p :: rest => st' <- detectLoop st p ;; run st' rest
  end.

End WithMath.

(** A poll on which the detector ran and found a hand, or found none. *)
Definition detects (p : Poll) (landmarks : Hand) : Prop :=
  videoReady p = true /\ firstHand p = Some landmarks.

Definition noHand (p : Poll) : Prop :=
  videoReady p = true /\ firstHand p = None.

(** The frame of the latest detection in a run of polls, if any. *)
Fixpoint lastDetectedFrom (seen : option Hand) (polls : list Poll) : option Hand :=
  match polls with
  | [] => seen
  | p :: rest =>
      lastDetectedFrom
        (if videoReady p
         then match firstHand p with Some l => Some l | None => seen end
         else seen)
        rest
  end.

Definition lastDetected (polls : list Poll) : option Hand :=
  lastDetectedFrom None polls.

(** The policy as a list of rules tried in order. *)
Fixpoint first_match (rules : list (bool * Label)) (otherwise : Label) : Label :=
  match rules with
  | [] => otherwise
  | (cond, label) :: rest => if cond then label else first_match rest otherwise
  end.

Definition policy (pinchDistance : Q) (extended : nat)
    (palmNormal velocity : Q) (indexIsExtended : bool) : Label :=
  first_match
    [ (ltb pinchDistance 0.08, PINCH);
      ((4 <=? extended)%nat, OPEN);
      ((extended <=? 1)%nat && gtb (Qabs palmNormal) 0.01, CLOSED);
      ((extended =? 1)%nat && gtb velocity 0.5 && indexIsExtended, SWIPE) ]
    IDLE.

(** What the published state may hold once the latest detected frame is
    [seen]: nothing before any detection, otherwise the object published
    for that frame, as it was or with detection lost. *)
Definition reads (Math_sqrt : Q -> Q) (Math_atan2 : Q -> Q -> Q)
    (seen : option Hand) (o : option HandData) : Prop :=
  match seen with
  | None => o = None
  | Some landmarks =>
      exists geo g hd,
        geometry Math_sqrt landmarks = Some geo /\
        publish Math_atan2 landmarks geo g = Some hd /\
        (o = Some hd \/ o = Some (lost hd))
  end.

(** *** Example data *)

(** Stand-ins for [Math.sqrt] and [Math.atan2], only to run the model on
    examples: the statements below hold for every choice of them. *)
Definition ex_sqrt (x : Q) : Q :=
  let step g := Qred ((g + x / g) / 2) in
  step (step (step (step (Qred ((1 + x) / 2))))).

Definition ex_atan2 (y x : Q) : Q := 0.

(** An open hand held upright: wrist low in the image, the four fingers
    stretched up, thumb to the side. *)
Definition ex_open_hand : Hand :=
  [ mkLandmark 0.50 0.90 0;   (* 0 wrist *)
    mkLandmark 0.40 0.82 0; mkLandmark 0.32 0.74 0;
    mkLandmark 0.26 0.66 0; mkLandmark 0.20 0.60 0;   (* 4 thumb tip *)
    mkLandmark 0.42 0.60 0; mkLandmark 0.41 0.48 0;
    mkLandmark 0.40 0.38 0; mkLandmark 0.40 0.30 0;   (* 8 index tip *)
    mkLandmark 0.50 0.58 0; mkLandmark 0.50 0.45 0;
    mkLandmark 0.50 0.35 0; mkLandmark 0.50 0.26 0;   (* 12 middle tip *)
    mkLandmark 0.57 0.60 0; mkLandmark 0.58 0.48 0;
    mkLandmark 0.59 0.39 0; mkLandmark 0.60 0.31 0;   (* 16 ring tip *)
    mkLandmark 0.64 0.64 0; mkLandmark 0.66 0.55 0;
    mkLandmark 0.67 0.48 0; mkLandmark 0.68 0.42 0 ]. (* 20 pinky tip *)

(** The same hand with the index tip brought onto the thumb tip. *)
Definition ex_pinch_hand : Hand :=
  firstn 8 ex_open_hand ++ [mkLandmark 0.21 0.61 0] ++ skipn 9 ex_open_hand.

Definition ex_detect_poll : Poll :=
  {| videoReady := true; result := Some [ex_open_hand]; now := 1000 |}.

Definition ex_lost_poll : Poll :=
  {| videoReady := true; result := Some []; now := 1016 |}.

Definition ex_redetect_poll : Poll :=
  {| videoReady := true; result := Some [ex_open_hand]; now := 1032 |}.

End Gesture.

(** ** Particle field sampler (utils/imageProcessing.ts) *)

Module Sampler.
Import JS.
Open Scope Q_scope.

Record ParticleData := mkParticle {
  x : Q; y : Q; z : Q;
  r : Q; g : Q; b : Q;
  originalX : Q; originalY : Q; originalZ : Q;
  random : Q
}.

(** A loaded image: its own size, and the RGBA bytes [imgData.data] read
    back from the canvas it was drawn on. *)
Record Image := mkImage {
  img_width : Z;
  img_height : Z;
  data : list Z
}.

(** [data[j]]: [undefined] outside the buffer. *)
Definition byte (data : list Z) (j : Z) : option Z :=
  if (j <? 0)%Z then None else nth_error data (Z.to_nat j).

(** A byte used as a number. The loop divides a byte only after it found
    [data[i + 3]] defined, which makes [data[i]], [data[i + 1]] and
    [data[i + 2]] defined too. *)
Definition num (o : option Z) : Q :=
  match o with Some v => inject_Z v | None => 0 end.

(** The state of the [while] loop; [draws] counts the calls made to
    [Math.random()] so far. *)
Record Loop := mkLoop {
  particles : list ParticleData;
  attempts : nat;
  draws : nat
}.

Definition fallback : ParticleData :=
  {| x := 0; y := 0; z := 0; r := 1; g := 1; b := 1;
     originalX := 0; originalY := 0; originalZ := 0; random := 0 |}.

Section WithImage.

Variable Math_sqrt : Q -> Q.
Variable Math_pow : Q -> Q -> Q.
Variable img : Image.
Variable targetCount : nat.
(** The k-th value returned by [Math.random()]. *)
Variable Math_random : nat -> Q.

Definition width : Q := 800.
Definition aspectRatio : Q := inject_Z (img_width img) / inject_Z (img_height img).
Definition height : Q := width / aspectRatio.
Definition maxAttempts : nat := targetCount * 200.

(** The part of an iteration after the rejection test: read the pixel and
    keep it when it is opaque enough. [k] is the number of draws made. *)
Definition keepPixel (s : Loop) (rx ry : Z) (k : nat) : Loop :=
  let i := ((ry * 800 + rx) * 4)%Z in
  let opaque :=
    match byte (data img) (i + 3) with
    | Some alpha => (20 <? alpha)%Z
    | None => false
    end in
  if opaque then
    let r := num (byte (data img) i) / 255 in
    let g := num (byte (data img) (i + 1)) / 255 in
    let b := num (byte (data img) (i + 2)) / 255 in
    let luminance := 0.21 * r + 0.72 * g + 0.07 * b in
    let zDepth := (luminance - 0.5) * 2.5 in
    let finalX := (inject_Z rx / width - 0.5) * 10 * aspectRatio in
    let finalY := - (inject_Z ry / height - 0.5) * 10 in
    {| particles :=
         particles s ++
         [ {| x := finalX; y := finalY; z := zDepth;
              r := r; g := g; b := b;
              originalX := finalX; originalY := finalY; originalZ := zDepth;
              random := Math_random k |} ];
       attempts := S (attempts s);
       draws := S k |}
  else
    {| particles := particles s; attempts := S (attempts s); draws := k |}.

(** One iteration of the loop body. *)
Definition body (s : Loop) : Loop :=
  let k := draws s in
  let rx := Qfloor (Math_random k * width) in
  let ry := Qfloor (Math_random (k + 1)%nat * height) in
  let nx := (inject_Z rx / width) * 2 - 1 in
  let ny := (inject_Z ry / height) * 2 - 1 in
  let distFromCenter := Math_sqrt (nx * nx + ny * ny) in
  if ltb (Math_random (k + 2)%nat) (Math_pow distFromCenter 1.5) then
    if gtb (Math_random (k + 3)%nat) 0.15 then
      (* continue *)
      {| particles := particles s; attempts := S (attempts s);
         draws := (k + 4)%nat |}
    else keepPixel s rx ry (k + 4)%nat
  else keepPixel s rx ry (k + 3)%nat.

(** [particles.length < targetCount && attempts < maxAttempts] *)
Definition continues (s : Loop) : bool :=
  (length (particles s) <? targetCount)%nat && (attempts s <? maxAttempts)%nat.

(** The [while] loop, unfolded at most [fuel] times. *)
Fixpoint loop (fuel : nat) (s : Loop) : Loop :=
  match fuel with
  | O => s
  | S fuel' => if continues s then loop fuel' (body s) else s
  end.

Definition start : Loop := {| particles := []; attempts := 0; draws := 0 |}.

(** Every iteration spends one attempt, so [maxAttempts] unfoldings run the
    loop to its end (see [sample_terminated]). *)
Definition sample : Loop := loop maxAttempts start.

Definition processImageToParticles : list ParticleData :=
  let particles := particles sample in
  if (length particles =? 0)%nat then particles ++ [fallback] else particles.

End WithImage.

(** *** Example data *)

(** Stand-ins for [Math.sqrt] and [Math.pow], only to run the model on
    examples; [ex_pow] is [b * sqrt b], its value at the one exponent used. *)
Definition ex_sqrt (v : Q) : Q :=
  let step a := Qred ((a + v / a) / 2) in
  step (step (step (Qred ((1 + v) / 2)))).

Definition ex_pow (base e : Q) : Q := base * ex_sqrt base.

(** A fully transparent image and a fully opaque white one, both 800 by 800
    on the canvas; only the first rows are listed. *)
Definition ex_transparent : Image :=
  {| img_width := 800; img_height := 800; data := repeat 0%Z 64 |}.

Definition ex_white : Image :=
  {| img_width := 800; img_height := 800; data := repeat 255%Z 64 |}.

(** A source of draws that always lands on the first pixels. *)
Definition ex_random (k : nat) : Q := 0.001.

End Sampler.

(** ** Text glyph particles (components/TextParticleSystem.tsx) *)

Module TextParticles.
Import JS.
Open Scope Q_scope.

Inductive Phase := spawn | hold | fly | dock.

Record Vec3 := mkVec3 { x : Q; y : Q; z : Q }.

Record TextParticle := mkTextParticle {
  id : jsstring;
  char : code;
  position : Vec3;
  velocity : Vec3;
  rotation : Vec3;
  phase : Phase;
  spawnTime : Z;
  morphTime : Z;
  flyStartTime : Z;
  delay : Z;
  holdPosition : Vec3;
  dockPosition : Vec3;
  controlPoint : Vec3;
  color : jsstring
}.

(** The part of a rendered [Text] object the physics loop writes. *)
Record Mesh := mkMesh { mesh_position : Vec3; mesh_scale : Q }.

(** A particle object is shared by the React state [particles] and by the
    map [physicsStateRef]: both hold references into [heap], where the
    physics loop mutates it. The two [Map]s keep their insertion order. *)
Record System := mkSystem {
  heap : list TextParticle;
  particles : list nat;
  physicsStateRef : list (jsstring * nat);
  textRefs : list (jsstring * Mesh);
  lastTranscriptRef : jsstring;
  lastSceneVersionRef : Z;
  totalCharCountRef : nat;
  initialSpawnRef : bool
}.

Definition MAX_CHARS : nat := 500.
Definition ORBIT_Z : Q := 2.5.
Definition CHARS_PER_RING : nat := 50.

(** The component as first mounted with scene version [v]. *)
Definition mounted (v : Z) : System :=
  {| heap := []; particles := []; physicsStateRef := []; textRefs := [];
     lastTranscriptRef := []; lastSceneVersionRef := v;
     totalCharCountRef := 0; initialSpawnRef := false |}.

(** *** [Map] operations *)

Section MapOps.
Variable V : Type.

Fixpoint map_get (m : list (jsstring * V)) (k : jsstring) : option V :=
  match m with
  | [] => None
  | (k', v) :: rest => if str_eqb k' k then Some v else map_get rest k
  end.

(** [m.set(k, v)]: an existing key keeps its place. *)
Fixpoint map_set (m : list (jsstring * V)) (k : jsstring) (v : V)
    : list (jsstring * V) :=
  match m with
  | [] => [(k, v)]
  | (k', v') :: rest =>
      if str_eqb k' k then (k', v) :: rest else (k', v') :: map_set rest k v
  end.

Definition hasKey (m : list (jsstring * V)) (k : jsstring) : bool :=
  match map_get m k with Some _ => true | None => false end.

Definition map_delete (m : list (jsstring * V)) (k : jsstring)
    : list (jsstring * V) :=
  filter (fun e => negb (str_eqb (fst e) k)) m.

End MapOps.

(** [heap[ref] = p] *)
Fixpoint store (h : list TextParticle) (ref : nat) (p : TextParticle)
    : list TextParticle :=
  match h, ref with
  | [], _ => []
  | _ :: rest, O => p :: rest
  | q :: rest, S n => q :: store rest n p
  end.

(** *** The physics loop ([useFrame]) *)

Record Frame := mkFrame {
  readingMode : bool;
  now : Z;
  time : Q;
  delta : Q;
  handData : option Gesture.HandData;
  textSize : Q
}.

Definition set_motion (p : TextParticle) (pos : Vec3) (ph : Phase) (start : Z)
    : TextParticle :=
  {| id := id p; char := char p; position := pos; velocity := velocity p;
     rotation := rotation p; phase := ph; spawnTime := spawnTime p;
     morphTime := morphTime p; flyStartTime := start; delay := delay p;
     holdPosition := holdPosition p; dockPosition := dockPosition p;
     controlPoint := controlPoint p; color := color p |}.

Section WithMath.

Variable Math_sin : Q -> Q.
Variable Math_cos : Q -> Q.
Variable Math_sqrt : Q -> Q.
Variable Math_PI : Q.
(** [Math.random().toString(36).substr(2, 9) + i + now], from the draw, the
    index and the time. *)
Variable idString : Q -> nat -> Z -> jsstring.

(** PHASE 1: SPAWN & RISE *)
Definition tickSpawn (f : Frame) (p : TextParticle) : TextParticle * Mesh :=
  let safeDelta := Qmin (delta f) 0.1 in
  let lerpFactor := 3.0 * safeDelta in
  let pos :=
    {| x := x (position p) + (x (holdPosition p) - x (position p)) * lerpFactor;
       y := y (position p) + (y (holdPosition p) - y (position p)) * lerpFactor;
       z := z (position p) + (z (holdPosition p) - z (position p)) * lerpFactor |} in
  let p' :=
    if (morphTime p <=? now f)%Z
    then set_motion p pos fly (now f + delay p)
    else set_motion p pos (phase p) (flyStartTime p) in
  (p', {| mesh_position :=
            {| x := x pos;
               y := y pos + Math_sin (time f * 2 + x pos) * 0.05;
               z := z pos |};
          mesh_scale := 1.0 |}).

(** PHASE 2: FLY *)
Definition tickFly (f : Frame) (p : TextParticle) : TextParticle * Mesh :=
  let duration := 2500 in
  let elapsed := (now f - flyStartTime p)%Z in
  let progress := Qmax 0 (Qmin 1 (inject_Z elapsed / duration)) in
  let p' :=
    if geb progress 1 || (4000 <? elapsed)%Z then
      set_motion p (position p) dock (flyStartTime p)
    else
      let t := progress in
      let invT := 1 - t in
      let cp := controlPoint p in (* always set, so [|| p.dockPosition] is idle *)
      let bx := (invT * invT * x (holdPosition p)) + (2 * invT * t * x cp)
                + (t * t * x (dockPosition p)) in
      let by_ := (invT * invT * y (holdPosition p)) + (2 * invT * t * y cp)
                 + (t * t * y (dockPosition p)) in
      let bz := (invT * invT * z (holdPosition p)) + (2 * invT * t * z cp)
                + (t * t * z (dockPosition p)) in
      set_motion p {| x := bx; y := by_; z := bz |} (phase p) (flyStartTime p) in
  (p', {| mesh_position := position p';
          mesh_scale := 1.0 + (textSize f * 0.2 - 1.0) * progress |}).

Definition isGesture (h : option Gesture.HandData) (g : Gesture.Label) : bool :=
  match h with
  | Some hd =>
      match Gesture.gesture hd, g with
      | Gesture.OPEN, Gesture.OPEN | Gesture.CLOSED, Gesture.CLOSED
      | Gesture.SWIPE, Gesture.SWIPE | Gesture.PINCH, Gesture.PINCH
      | Gesture.IDLE, Gesture.IDLE => true
      | _, _ => false
      end
  | None => false
  end.

(** [dist || 1] *)
Definition orOne (dist : Q) : Q := if Qeq_bool dist 0 then 1 else dist.

(** PHASE 3: DOCK. The target is the dock position revolved and bobbing,
    then pushed by the gesture of a detected hand. *)
Definition dockTarget (f : Frame) (p : TextParticle) : Vec3 :=
  let angle := time f * 0.1 in
  let cosA := Math_cos angle in
  let sinA := Math_sin angle in
  let tx := x (dockPosition p) * cosA - y (dockPosition p) * sinA in
  let ty := x (dockPosition p) * sinA + y (dockPosition p) * cosA in
  let tz := z (dockPosition p) + Math_sin (time f + x (position p)) * 0.2 in
  match handData f with
  | Some hd =>
      if Gesture.detected hd then
        if isGesture (handData f) Gesture.OPEN then
          let dist := Math_sqrt (tx * tx + ty * ty) in
          {| x := tx + (tx / orOne dist) * 8.0;
             y := ty + (ty / orOne dist) * 8.0;
             z := tz + 5.0 |}
        else if isGesture (handData f) Gesture.SWIPE then
          let ptrX := Gesture.v2_x (Gesture.pointer hd) * 12 in
          let ptrY := Gesture.v2_y (Gesture.pointer hd) * 8 in
          let dx := x (position p) - ptrX in
          let dy := y (position p) - ptrY in
          let dist := Math_sqrt (dx * dx + dy * dy) in
          if ltb dist 3.5 then
            let force := (1.0 - dist / 3.5) * 6.0 in
            {| x := tx + (dx / dist) * force;
               y := ty + (dy / dist) * force;
               z := tz |}
          else {| x := tx; y := ty; z := tz |}
        else if isGesture (handData f) Gesture.CLOSED then
          {| x := x (dockPosition p) * 0.5;
             y := y (dockPosition p) * 0.5;
             z := tz |}
        else {| x := tx; y := ty; z := tz |}
      else {| x := tx; y := ty; z := tz |}
  | None => {| x := tx; y := ty; z := tz |}
  end.

Definition tickDock (f : Frame) (p : TextParticle) : TextParticle * Mesh :=
  let t := dockTarget f p in
  let lerpFactor := if isGesture (handData f) Gesture.CLOSED then 0.2 else 0.05 in
  let pos :=
    {| x := x (position p) + (x t - x (position p)) * lerpFactor;
       y := y (position p) + (y t - y (position p)) * lerpFactor;
       z := z (position p) + (z t - z (position p)) * lerpFactor |} in
  (set_motion p pos (phase p) (flyStartTime p),
   {| mesh_position := pos; mesh_scale := textSize f * 0.2 |}).

(** The body of [physicsStateRef.current.forEach] for a particle that has a
    mesh; a phase other than the three handled is left alone. *)
Definition tickParticle (f : Frame) (p : TextParticle) (m : Mesh)
    : TextParticle * Mesh :=
  match phase p with
  | spawn => tickSpawn f p
  | fly => tickFly f p
  | dock => tickDock f p
  | hold => (p, m)
  end.

Definition set_physics (s : System) (h : list TextParticle)
    (refs : list (jsstring * Mesh)) : System :=
  {| heap := h; particles := particles s;
     physicsStateRef := physicsStateRef s; textRefs := refs;
     lastTranscriptRef := lastTranscriptRef s;
     lastSceneVersionRef := lastSceneVersionRef s;
     totalCharCountRef := totalCharCountRef s;
     initialSpawnRef := initialSpawnRef s |}.

(** One entry of the map: skipped when the particle has no mesh. *)
Definition tickEntry (f : Frame) (s : System) (entry : jsstring * nat) : System :=
  let '(key, ref) := entry in
  match nth_error (heap s) ref, map_get (textRefs s) key with
  | Some p, Some m =>
      let '(p', m') := tickParticle f p m in
      set_physics s (store (heap s) ref p') (map_set (textRefs s) key m')
  | _, _ => s
  end.

(** The [useFrame] callback. *)
Definition tick (f : Frame) (s : System) : System :=
  if readingMode f then s
  else fold_left (tickEntry f) (physicsStateRef s) s.

(** *** The spawn logic ([useEffect] on [transcript] and [sceneVersion]) *)

(** The particle made for the [i]-th character of the new part; [draw] is
    the value of [Math.random()] used for its id. *)
Definition newParticle (isRestoring : bool) (total : nat) (count : nat)
    (now : Z) (i : nat) (c : code) (draw : Q) : TextParticle :=
  let charWidth := 0.4 in
  let totalWidth := inject_Z (Z.of_nat count) * charWidth in
  let startX := - (totalWidth / 2) in
  let holdDuration := 3500%Z in
  let holdX := startX + inject_Z (Z.of_nat i) * charWidth in
  let holdY := - 3.0 in
  let holdZ := 0 in
  let globalIndex := if isRestoring then i else (total + i)%nat in
  let ringIndex := (globalIndex / CHARS_PER_RING)%nat in
  let localIndex := (globalIndex mod CHARS_PER_RING)%nat in
  let radius := 4.3 in
  let angleStep := (Math_PI * 2) / inject_Z (Z.of_nat CHARS_PER_RING) in
  let theta := inject_Z (Z.of_nat localIndex) * angleStep in
  let baseX := Math_cos theta * radius in
  let baseY := Math_sin theta * radius in
  let baseZ := 0 in
  let ringRotationY := inject_Z (Z.of_nat ringIndex) * (Math_PI / 6) in
  let x1 := baseX * Math_cos ringRotationY - baseZ * Math_sin ringRotationY in
  let z1 := baseX * Math_sin ringRotationY + baseZ * Math_cos ringRotationY in
  let y1 := baseY in
  let dockX := x1 in
  let dockY := y1 in
  let dockZ := z1 + ORBIT_Z in
  let ctrlX := dockX * 1.5 in
  let ctrlY := dockY + 5.0 in
  let ctrlZ := 5.0 in
  {| id := idString draw i now;
     char := c;
     position := {| x := holdX; y := holdY - 2.0; z := holdZ |};
     velocity := {| x := 0; y := 0; z := 0 |};
     rotation := {| x := 0; y := 0; z := 0 |};
     phase := spawn;
     spawnTime := now;
     morphTime := (now + holdDuration)%Z;
     flyStartTime := 0;
     delay := (Z.of_nat i * 80)%Z;
     holdPosition := {| x := holdX; y := holdY; z := holdZ |};
     dockPosition := {| x := dockX; y := dockY; z := dockZ |};
     controlPoint := {| x := ctrlX; y := ctrlY; z := ctrlZ |};
     color := of_ascii "#FFFFFF" |}.

(** [newChars.map((char, i) => ...)], from index [i] on. *)
Fixpoint newParticleObjs (isRestoring : bool) (total count : nat) (now : Z)
    (Math_random : nat -> Q) (i : nat) (newChars : jsstring)
    : list TextParticle :=
  match newChars with
  | [] => []
  | c :: rest =>
      newParticle isRestoring total count now i c (Math_random i)
      :: newParticleObjs isRestoring total count now Math_random (S i) rest
  end.

(** The hard reset on upload. *)
Definition hardReset (s : System) (sceneVersion : Z) : System :=
  {| heap := heap s; particles := []; physicsStateRef := []; textRefs := [];
     lastTranscriptRef := []; lastSceneVersionRef := sceneVersion;
     totalCharCountRef := 0; initialSpawnRef := false |}.

Definition set_tracking (s : System) (last : jsstring) (version : Z)
    (initialSpawn : bool) : System :=
  {| heap := heap s; particles := particles s;
     physicsStateRef := physicsStateRef s; textRefs := textRefs s;
     lastTranscriptRef := last; lastSceneVersionRef := version;
     totalCharCountRef := totalCharCountRef s;
     initialSpawnRef := initialSpawn |}.

(** [newParticleObjs.forEach(p => physicsStateRef.current.set(p.id, p))];
    [ref] is where the first object of the batch lies in the heap. *)
Fixpoint setAll (m : list (jsstring * nat)) (batch : list TextParticle)
    (ref : nat) : list (jsstring * nat) :=
  match batch with
  | [] => m
  | p :: rest => setAll (map_set m (id p) ref) rest (S ref)
  end.

(** [keepIds.has(id)] for the objects referenced by [keep]. *)
Definition keepsId (h : list TextParticle) (keep : list nat) (k : jsstring)
    : bool :=
  existsb (fun ref =>
             match nth_error h ref with
             | Some p => str_eqb (id p) k
             | None => false
             end) keep.

(** The block under [if (newPart.length > 0)]: make the batch, count it,
    register it, and cap the list of live particles; an id that is a key of
    the physics map and is not kept loses its entry in both maps. *)
Definition spawnBatch (s : System) (isRestoring : bool) (now : Z)
    (Math_random : nat -> Q) (newPart : jsstring) : System * list TextParticle :=
  let batch :=
    newParticleObjs isRestoring (totalCharCountRef s) (length newPart) now
      Math_random 0 newPart in
  let total :=
    if isRestoring then length newPart
    else (totalCharCountRef s + length newPart)%nat in
  let first := length (heap s) in
  let h := heap s ++ batch in
  let physics := setAll (physicsStateRef s) batch first in
  let combined := particles s ++ seq first (length batch) in
  if (MAX_CHARS <? length combined)%nat then
    let keep := skipn (length combined - MAX_CHARS) combined in
    ({| heap := h; particles := keep;
        physicsStateRef := filter (fun e => keepsId h keep (fst e)) physics;
        textRefs :=
          filter (fun e => keepsId h keep (fst e) || negb (hasKey physics (fst e)))
            (textRefs s);
        lastTranscriptRef := lastTranscriptRef s;
        lastSceneVersionRef := lastSceneVersionRef s;
        totalCharCountRef := total;
        initialSpawnRef := initialSpawnRef s |}, batch)
  else
    ({| heap := h; particles := combined;
        physicsStateRef := physics;
        textRefs := textRefs s;
        lastTranscriptRef := lastTranscriptRef s;
        lastSceneVersionRef := lastSceneVersionRef s;
        totalCharCountRef := total;
        initialSpawnRef := initialSpawnRef s |}, batch).

(** What the effect decides to spawn, from the tracked previous text. *)
Definition newPartOf (isReset isRestoring : bool)
    (currentText previousText : jsstring) : jsstring :=
  if isRestoring then currentText
  else if startsWith currentText previousText && negb isReset then
    slice_from currentText (length previousText)
  else currentText.

(** The effect, run when [transcript] or [sceneVersion] changed. It gives
    the new state and the batch of particles it spawned. *)
Definition effect (s : System) (transcript : jsstring) (sceneVersion : Z)
    (now : Z) (Math_random : nat -> Q) : System * list TextParticle :=
  let isReset := negb (sceneVersion =? lastSceneVersionRef s)%Z in
  let isRestoring := isReset && (0 <? length transcript)%nat in
  let s1 := if isReset && negb isRestoring then hardReset s sceneVersion else s in
  match transcript with
  | [] => (s1, [])
  | _ :: _ =>
      let s2 :=
        if isRestoring && negb (initialSpawnRef s1)
        then set_tracking s1 [] (lastSceneVersionRef s1) true
        else s1 in
      let currentText := transcript in
      let previousText := lastTranscriptRef s2 in
      let newPart := newPartOf isReset isRestoring currentText previousText in
      let '(s3, batch) :=
        if (0 <? length newPart)%nat
        then spawnBatch s2 isRestoring now Math_random newPart
        else (s2, []) in
      (set_tracking s3 currentText
         (if isReset then sceneVersion else lastSceneVersionRef s3)
         (initialSpawnRef s3),
       batch)
  end.

(** *** The component over time *)

(** What can happen to the component: a frame, a change of its props, and
    React attaching or detaching the mesh of a rendered particle. *)
Inductive Event :=
| Tick (f : Frame)
| Props (transcript : jsstring) (sceneVersion : Z) (now : Z)
        (Math_random : nat -> Q)
| RefSet (key : jsstring) (m : Mesh)
| RefDelete (key : jsstring).

Definition set_textRefs (s : System) (refs : list (jsstring * Mesh)) : System :=
  set_physics s (heap s) refs.

Definition step (s : System) (e : Event) : System :=
  match e with
  | Tick f => tick f s
  | Props transcript sceneVersion now Math_random =>
      fst (effect s transcript sceneVersion now Math_random)
  | RefSet key m => set_textRefs s (map_set (textRefs s) key m)
  | RefDelete key => set_textRefs s (map_delete (textRefs s) key)
  end.

Definition steps (s : System) (events : list Event) : System :=
  fold_left step events s.

End WithMath.

(** The order of the phases. *)
Definition rank (ph : Phase) : nat :=
  match ph with spawn => 0 | hold => 1 | fly => 2 | dock => 3 end.

(** *** Example data *)

Definition ex_sin (v : Q) : Q := 0.
Definition ex_cos (v : Q) : Q := 1.
Definition ex_sqrt (v : Q) : Q := v.
Definition ex_PI : Q := 3.14159.
Definition ex_idString (draw : Q) (i : nat) (now : Z) : jsstring :=
  [N.of_nat i; Z.to_N now].
Definition ex_random (i : nat) : Q := 0.5.

(** [HELLO] has been spawned in scene 0. *)
Definition ex_after_hello : System :=
  fst (effect ex_sin ex_cos ex_PI ex_idString (mounted 0) (of_ascii "HELLO")
         0 1000 ex_random).

(** The first glyph of [HELLO], followed through its hold, its flight and
    some frames in dock. *)
Definition ex_frame (t : Z) : Frame :=
  {| readingMode := false; now := t; time := 0; delta := 0.016;
     handData := None; textSize := 1.5 |}.

Definition ex_events : list Event :=
  [ RefSet (ex_idString 0.5 0%nat 1000%Z)
      {| mesh_position := {| x := 0; y := 0; z := 0 |}; mesh_scale := 1 |};
    Tick (ex_frame 1016); Tick (ex_frame 4600); Tick (ex_frame 5000);
    Tick (ex_frame 9000); Tick (ex_frame 9016) ].

End TextParticles.

(** ** Memory search (App.tsx, [processedMemories]) *)

Module Search.
Import JS.
Open Scope Q_scope.

Inductive Sentiment := POSITIVE | NEGATIVE | NEUTRAL.

(** The string value of the enum. *)
Definition sentimentString (s : Sentiment) : jsstring :=
  match s with
  | POSITIVE => of_ascii "positive"
  | NEGATIVE => of_ascii "negative"
  | NEUTRAL => of_ascii "neutral"
  end.

Inductive ViewMode := LIVE | PALACE.

Record VoiceMemory := mkVoiceMemory {
  vm_id : jsstring;
  vm_transcript : jsstring;
  vm_sentiment : Sentiment;
  vm_timestamp : Z
}.

Record MemoryPackage := mkMemoryPackage {
  id : jsstring;
  timestamp : Z;
  thumbnail : jsstring;
  imageSnapshot : jsstring;
  particleCount : nat;
  sentiment : Sentiment;
  transcriptSnapshot : jsstring;
  dominantColor : jsstring;
  palette : list jsstring;
  matchScore : option Q;
  voiceMemories : list VoiceMemory
}.

(** [{ ...m, matchScore: score }] *)
Definition withScore (m : MemoryPackage) (score : Q) : MemoryPackage :=
  {| id := id m; timestamp := timestamp m; thumbnail := thumbnail m;
     imageSnapshot := imageSnapshot m; particleCount := particleCount m;
     sentiment := sentiment m; transcriptSnapshot := transcriptSnapshot m;
     dominantColor := dominantColor m; palette := palette m;
     matchScore := Some score; voiceMemories := voiceMemories m |}.

(** [m.matchScore || 0] *)
Definition scoreOf (m : MemoryPackage) : Q :=
  match matchScore m with Some s => s | None => 0 end.

(** The CJK stop words, by code unit: U+7684, U+4E86, U+548C, U+662F,
    U+5C31, U+90FD, U+800C, U+53CA, U+4E0E, U+7740, U+6216, then the pairs
    U+4E00 U+4E2A, U+6CA1 U+6709, U+6211 U+4EEC, U+4F60 U+4EEC,
    U+4ED6 U+4EEC, U+8FD9 U+4E2A, U+90A3 U+4E2A, and U+5728. *)
Definition STOP_WORDS : list jsstring :=
  [ of_ascii "the"; of_ascii "is"; of_ascii "at"; of_ascii "which";
    of_ascii "on"; of_ascii "a"; of_ascii "an"; of_ascii "and";
    of_ascii "or"; of_ascii "but"; of_ascii "if"; of_ascii "then";
    of_ascii "else"; of_ascii "when"; of_ascii "in"; of_ascii "to";
    of_ascii "for"; of_ascii "of" ]
  ++ [ [0x7684]; [0x4e86]; [0x548c]; [0x662f]; [0x5c31]; [0x90fd]; [0x800c];
       [0x53ca]; [0x4e0e]; [0x7740]; [0x6216];
       [0x4e00; 0x4e2a]; [0x6ca1; 0x6709]; [0x6211; 0x4eec]; [0x4f60; 0x4eec];
       [0x4ed6; 0x4eec]; [0x8fd9; 0x4e2a]; [0x90a3; 0x4e2a]; [0x5728] ]%N.

(** [set.has(w)] for a set of strings kept as a list. *)
Definition has (set : list jsstring) (w : jsstring) : bool :=
  existsb (str_eqb w) set.

(** The characters removed by [/[.,\/#!$%\^&\*;:{}=\-_`~()]/g]. *)
Definition isPunctuation (c : code) : bool :=
  existsb (N.eqb c)
    [46; 44; 47; 35; 33; 36; 37; 94; 38; 42; 59; 58; 123; 125; 61; 45; 95;
     96; 126; 40; 41]%N.

(** [/[\u4e00-\u9fa5]/] *)
Definition isChinese (c : code) : bool :=
  ((0x4e00 <=? c) && (c <=? 0x9fa5))%N.

(** The class [\s], which is also what [trim()] strips. *)
Definition isSpace (c : code) : bool :=
  existsb (N.eqb c)
    [9; 10; 11; 12; 13; 32; 0xa0; 0x1680; 0x2028; 0x2029; 0x202f; 0x205f;
     0x3000; 0xfeff]%N
  || ((0x2000 <=? c) && (c <=? 0x200a))%N.

(** [s.split(/\s+/)]: the pieces between maximal runs of white space, the
    empty pieces at both ends included. [skipping] holds inside a run. *)
Fixpoint splitSpaces (skipping : bool) (piece : jsstring) (s : jsstring)
    : list jsstring :=
  match s with
  | [] => [piece]
  | c :: rest =>
      if isSpace c then
        if skipping then splitSpaces true [] rest
        else piece :: splitSpaces true [] rest
      else splitSpaces false (piece ++ [c]) rest
  end.

Definition split (s : jsstring) : list jsstring := splitSpaces false [] s.

(** [split(/\s+/).filter(w => w.length > 0 && !STOP_WORDS.has(w))] *)
Definition words (s : jsstring) : list jsstring :=
  filter (fun w => (0 <? length w)%nat && negb (has STOP_WORDS w)) (split s).

(** The first loop of the CJK branch: single characters. *)
Definition singles (s : jsstring) : list jsstring :=
  flat_map (fun c => if negb (isSpace c) && negb (has STOP_WORDS [c])
                     then [[c]] else []) s.

(** The second loop: [normalizedQuery.slice(i, i + 2)] for [i < length - 1]. *)
Fixpoint bigrams (s : jsstring) : list jsstring :=
  match s with
  | c :: ((d :: _) as rest) =>
      (if negb (has STOP_WORDS [c; d]) then [[c; d]] else []) ++ bigrams rest
  | _ => []
  end.

(** [[...new Set(keywords)]]: first occurrences, in order. *)
Fixpoint dedupe (seen : list jsstring) (l : list jsstring) : list jsstring :=
  match l with
  | [] => []
  | w :: rest =>
      if has seen w then dedupe seen rest else w :: dedupe (w :: seen) rest
  end.

(** [array.sort(compare)]: the sort is stable, and [compare a b <= 0] keeps
    [a] before [b]. *)
Section Sort.
Variable A : Type.
Variable compare : A -> A -> Q.

Fixpoint insert (a : A) (sorted : list A) : list A :=
  match sorted with
  | [] => [a]
  | b :: rest =>
      if Qle_bool (compare a b) 0 then a :: b :: rest else b :: insert a rest
  end.

Fixpoint sort (l : list A) : list A :=
  match l with
  | [] => []
  | a :: rest => insert a (sort rest)
  end.

End Sort.

(** [(a, b) => b.timestamp - a.timestamp] *)
Definition byRecency (a b : MemoryPackage) : Q :=
  inject_Z (timestamp b - timestamp a).

(** The comparator of the scored list. *)
Definition byScore (a b : MemoryPackage) : Q :=
  if gtb (scoreOf b) 0 || gtb (scoreOf a) 0
  then scoreOf b - scoreOf a
  else inject_Z (timestamp b - timestamp a).

(** [transcript || finalizedTranscript] *)
Definition searchQueryOf (transcript finalizedTranscript : jsstring) : jsstring :=
  match transcript with [] => finalizedTranscript | _ => transcript end.

(** [savedMemories.map(m => ({ ...m, matchScore: 0 })).sort(...)] *)
Definition noSearch (savedMemories : list MemoryPackage) : list MemoryPackage :=
  sort byRecency (map (fun m => withScore m 0) savedMemories).

Section WithLowerCase.

(** [String.prototype.toLowerCase] *)
Variable toLowerCase : jsstring -> jsstring.

Definition normalize (searchQuery : jsstring) : jsstring :=
  filter (fun c => negb (isPunctuation c)) (toLowerCase searchQuery).

Definition keywordsOf (searchQuery : jsstring) : list jsstring :=
  let normalizedQuery := normalize searchQuery in
  let hasChinese := existsb isChinese normalizedQuery in
  dedupe []
    (if hasChinese
     then (singles normalizedQuery ++ bigrams normalizedQuery)
          ++ words normalizedQuery
     else words normalizedQuery).

Definition contentOf (memory : MemoryPackage) : jsstring :=
  toLowerCase (transcriptSnapshot memory ++ of_ascii " "
               ++ sentimentString (sentiment memory)).

(** [keywords.forEach(word => { if (content.includes(word)) hits++; })] *)
Definition hitsOf (keywords : list jsstring) (memory : MemoryPackage) : nat :=
  length (filter (includes (contentOf memory)) keywords).

Definition scoreMemory (keywords : list jsstring) (memory : MemoryPackage)
    : MemoryPackage :=
  let hits := hitsOf keywords memory in
  let score :=
    if (0 <? hits)%nat then
      Qmin (inject_Z (Z.of_nat hits)
            / Qmax 1 (inject_Z (Z.of_nat (length keywords)) * 0.5))
           1.0
    else 0 in
  withScore memory score.

Definition processedMemories (viewMode : ViewMode)
    (transcript finalizedTranscript : jsstring)
    (savedMemories : list MemoryPackage) : list MemoryPackage :=
  let searchQuery := searchQueryOf transcript finalizedTranscript in
  match viewMode, searchQuery with
  | LIVE, _ | _, [] => noSearch savedMemories
  | PALACE, _ =>
      let keywords := keywordsOf searchQuery in
      match keywords with
      | [] => noSearch savedMemories
      | _ => sort byScore (map (scoreMemory keywords) savedMemories)
      end
  end.

End WithLowerCase.

(** The score the specification gives for [hits] keywords found out of
    [count]. *)
Definition rampScore (hits count : nat) : Q :=
  Qmin 1 (inject_Z (Z.of_nat hits)
          / Qmax 1 (0.5 * inject_Z (Z.of_nat count))).

(** Descending score and descending recency of a list. *)
Definition byScoreDescending : list MemoryPackage -> Prop :=
  StronglySorted (fun a b => scoreOf b <= scoreOf a).

Definition byRecencyDescending : list MemoryPackage -> Prop :=
  StronglySorted (fun a b => (timestamp b <= timestamp a)%Z).

(** A query whose words, as white space separates them, are all stop
    words. *)
Definition allStopWords (normalizedQuery : jsstring) : Prop :=
  forall w, In w (split normalizedQuery) -> w = [] \/ has STOP_WORDS w = true.

(** *** Example data *)

(** Lower case for the letters A to Z; it leaves every other code unit as
    it is, which is what [toLowerCase] does on the strings of the examples. *)
Definition ex_toLowerCase (s : jsstring) : jsstring :=
  map (fun c => if ((65 <=? c) && (c <=? 90))%N then (c + 32)%N else c) s.

Definition ex_memory (name : jsstring) (t : Z) (text : jsstring) : MemoryPackage :=
  {| id := name; timestamp := t; thumbnail := []; imageSnapshot := [];
     particleCount := 100 * 100; sentiment := NEUTRAL;
     transcriptSnapshot := text; dominantColor := of_ascii "#ffffff";
     palette := []; matchScore := Some 0; voiceMemories := [] |}.

(** Two memories; the transcript of the older one ends with U+7684. *)
Definition ex_memories : list MemoryPackage :=
  [ ex_memory (of_ascii "2") 2000 (of_ascii "walk by the sea");
    ex_memory (of_ascii "1") 1000 [0x597d; 0x7684]%N ].

(** The query U+7684, space, U+4E86: two stop words. *)
Definition ex_stop_query : jsstring := [0x7684; 32; 0x4e86]%N.

End Search.

(** ** Ambient cloud (components/ParticleScene.tsx, [useFrame]) *)

Module Ambient.
Import JS.
Open Scope Q_scope.

Record Uniforms := mkUniforms {
  uTime : Q;
  uSize : Q;
  uDisruption : Q;
  uPointer : Q * Q;
  uSwipeActive : Q;
  uReadingMode : Q
}.

(** The part of [meshRef.current] the callback writes. *)
Record Pose := mkPose {
  position_x : Q; position_y : Q;
  rotation_x : Q; rotation_y : Q
}.

Record Scene := mkScene {
  uniforms : Uniforms;
  meshRef : option Pose
}.

(** What a frame reads: the clock and the props of the component. *)
Record Frame := mkFrame {
  elapsedTime : Q;
  size : Q;
  readingMode : bool;
  sentiment : Search.Sentiment;
  handData : option Gesture.HandData
}.

(** A hand that counts for the interaction: detected, and not reading. *)
Definition activeHand (f : Frame) : option Gesture.HandData :=
  match handData f with
  | Some hd => if Gesture.detected hd && negb (readingMode f) then Some hd else None
  | None => None
  end.

(** The value of [disruptionTarget] when the uniforms are updated. The 1.5
    assigned first for a negative sentiment never reaches that point: the
    branch of an active hand assigns the value of its gesture, and the
    other branch assigns 0. *)
Definition disruptionTarget (f : Frame) : Q :=
  match activeHand f with
  | Some hd =>
      match Gesture.gesture hd with
      | Gesture.OPEN => 2.5
      | Gesture.CLOSED => 0.0
      | Gesture.SWIPE => 0.0
      | _ => 0.2
      end
  | None => 0
  end.

Definition swipeActive (f : Frame) : Q :=
  match activeHand f with
  | Some hd => match Gesture.gesture hd with Gesture.SWIPE => 1 | _ => 0 end
  | None => 0
  end.

(** [lerpSpeed], chosen from the target and the current disruption. *)
Definition lerpSpeed (disruptionTarget currentDisruption : Q) : Q :=
  if gtb disruptionTarget currentDisruption then 0.03 else 0.15.

Definition movePose (f : Frame) (m : Pose) : Pose :=
  match activeHand f with
  | Some hd =>
      let targetPosX := Gesture.v3_x (Gesture.position hd) * 12 in
      let targetPosY := Gesture.v3_y (Gesture.position hd) * 8 in
      let targetRotX := Gesture.v2_y (Gesture.rotation hd) * 1.5 in
      let targetRotY := Gesture.v2_x (Gesture.rotation hd) * 1.5 in
      {| position_x := lerp (position_x m) targetPosX 0.1;
         position_y := lerp (position_y m) targetPosY 0.1;
         rotation_x := lerp (rotation_x m) targetRotX 0.1;
         rotation_y := lerp (rotation_y m) targetRotY 0.1 |}
  | None =>
      {| position_x := lerp (position_x m) 0 0.05;
         position_y := lerp (position_y m) 0 0.05;
         rotation_x := lerp (rotation_x m) 0 0.05;
         rotation_y := lerp (rotation_y m) 0 0.05 |}
  end.

(** The [useFrame] callback. *)
Definition useFrame (f : Frame) (s : Scene) : Scene :=
  match meshRef s with
  | None => s
  | Some m =>
      let u := uniforms s in
      let pointer :=
        match activeHand f with
        | Some hd =>
            match Gesture.gesture hd with
            | Gesture.SWIPE =>
                (Gesture.v2_x (Gesture.pointer hd) * 12,
                 Gesture.v2_y (Gesture.pointer hd) * 8)
            | _ => uPointer u
            end
        | None => uPointer u
        end in
      let currentDisruption := uDisruption u in
      {| uniforms :=
           {| uTime := elapsedTime f;
              uSize := size f;
              uDisruption :=
                lerp currentDisruption (disruptionTarget f)
                  (lerpSpeed (disruptionTarget f) currentDisruption);
              uPointer := pointer;
              uSwipeActive := lerp (uSwipeActive u) (swipeActive f) 0.1;
              uReadingMode :=
                lerp (uReadingMode u) (if readingMode f then 1.0 else 0.0) 0.05 |};
         meshRef := Some (movePose f m) |}
  end.

(** The rate at which a frame moves the disruption of a scene. *)
Definition rateOf (f : Frame) (s : Scene) : Q :=
  lerpSpeed (disruptionTarget f) (uDisruption (uniforms s)).

(** *** Example data *)

Definition ex_scene (disruption : Q) : Scene :=
  {| uniforms := {| uTime := 0; uSize := 0.3; uDisruption := disruption;
                    uPointer := (0, 0); uSwipeActive := 0; uReadingMode := 0 |};
     meshRef := Some {| position_x := 0; position_y := 0;
                        rotation_x := 0; rotation_y := 0 |} |}.

Definition ex_open_palm : Gesture.HandData :=
  {| Gesture.gesture := Gesture.OPEN;
     Gesture.position := {| Gesture.v3_x := 0; Gesture.v3_y := 0; Gesture.v3_z := 0 |};
     Gesture.palmCenter := {| Gesture.v2_x := 0; Gesture.v2_y := 0 |};
     Gesture.pointer := {| Gesture.v2_x := 0; Gesture.v2_y := 0 |};
     Gesture.rotation := {| Gesture.v2_x := 0; Gesture.v2_y := 0 |};
     Gesture.detected := true;
     Gesture.pinchDistance := 0.3 |}.

(** A frame with an open hand, and a frame with no hand. *)
Definition ex_scatter_frame : Frame :=
  {| elapsedTime := 1; size := 0.3; readingMode := false;
     sentiment := Search.NEUTRAL; handData := Some ex_open_palm |}.

Definition ex_relax_frame : Frame :=
  {| elapsedTime := 2; size := 0.3; readingMode := false;
     sentiment := Search.NEUTRAL; handData := None |}.

End Ambient.

(** ** Recording (App.tsx, [handleToggleRecording]; utils/audioStreamer.ts) *)

Module Recording.

(** The browser side of audio capture: the streams handed out by
    [getUserMedia] whose audio track is still live, and the next stream to
    hand out. A track ends only when [stop()] is called on it; stopping a
    [MediaRecorder] or closing an [AudioContext] leaves it live. *)
Record Browser := mkBrowser {
  liveStreams : list nat;
  nextStream : nat
}.

Definition getUserMedia (b : Browser) : nat * Browser :=
  (nextStream b,
   {| liveStreams := nextStream b :: liveStreams b;
      nextStream := S (nextStream b) |}).

(** [stream.getTracks().forEach(track => track.stop())] *)
Definition stopTracks (stream : nat) (b : Browser) : Browser :=
  {| liveStreams := filter (fun s => negb (s =? stream)) (liveStreams b);
     nextStream := nextStream b |}.

Inductive RecorderState := inactive | recording.

Record MediaRecorder := mkMediaRecorder {
  recorderStream : nat;
  recorderState : RecorderState
}.

(** The state [handleToggleRecording] works on. *)
Record App := mkApp {
  isRecording : bool;
  recognitionStarted : bool;
  mediaRecorderRef : option MediaRecorder;
  sentimentIntervalRef : option nat
}.

Definition idle : App :=
  {| isRecording := false; recognitionStarted := false;
     mediaRecorderRef := None; sentimentIntervalRef := None |}.

(** [granted] tells whether [getUserMedia({ audio: true })] resolves; when
    it rejects the [catch] only logs. [timer] is the id [setInterval] gives. *)
Definition handleToggleRecording (granted : bool) (timer : nat)
    (a : App) (b : Browser) : App * Browser :=
  if isRecording a then
    (* STOP RECORDING *)
    ({| isRecording := false; recognitionStarted := false;
        mediaRecorderRef := None; sentimentIntervalRef := None |}, b)
  else
    (* START RECORDING *)
    if granted then
      let '(stream, b') := getUserMedia b in
      ({| isRecording := true; recognitionStarted := true;
          mediaRecorderRef :=
            Some {| recorderStream := stream; recorderState := recording |};
          sentimentIntervalRef := Some timer |}, b')
    else
      ({| isRecording := true; recognitionStarted := true;
          mediaRecorderRef := mediaRecorderRef a;
          sentimentIntervalRef := sentimentIntervalRef a |}, b).

(** The fields of [AudioStreamer] that recording uses. *)
Record AudioStreamer := mkAudioStreamer {
  audioContext : option nat;
  processor : option nat;
  inputStream : option nat
}.

Definition fresh : AudioStreamer :=
  {| audioContext := None; processor := None; inputStream := None |}.

(** [startRecording]: the context is made first; when [getUserMedia]
    rejects, the [catch] leaves the stream and the processor unset. *)
Definition startRecording (granted : bool) (context node : nat)
    (a : AudioStreamer) (b : Browser) : AudioStreamer * Browser :=
  if granted then
    let '(stream, b') := getUserMedia b in
    ({| audioContext := Some context; processor := Some node;
        inputStream := Some stream |}, b')
  else
    ({| audioContext := Some context; processor := processor a;
        inputStream := inputStream a |}, b).

Definition stopRecording (a : AudioStreamer) (b : Browser)
    : AudioStreamer * Browser :=
  ({| audioContext := None; processor := None; inputStream := None |},
   match inputStream a with
   | Some stream => stopTracks stream b
   | None => b
   end).

Definition quiet : Browser := {| liveStreams := []; nextStream := 0 |}.

End Recording.

(** ** Further data for the gesture classifier *)

Module GestureData.
Import JS Gesture.
Open Scope Q_scope.

(** A published state is coherent when a lost detection carries the label
    IDLE and the palm centre repeats the position, which lies in the plane
    [z = 0]. *)
Definition coherent (h : HandData) : Prop :=
  (detected h = false -> gesture h = IDLE) /\
  v3_z (position h) = 0 /\
  v2_x (palmCenter h) = v3_x (position h) /\
  v2_y (palmCenter h) = v3_y (position h).

(** The pointer cache agrees with the published state: empty unless a hand
    is detected, and then the pointer that was published. *)
Definition cacheAgrees (st : Tracker) : Prop :=
  match lastPointerRef st with
  | Some ptr =>
      exists h, handData st = Some h /\ detected h = true /\ pointer h = ptr
  | None =>
      forall h, handData st = Some h -> detected h = false
  end.

(** Landmarks in normalized image coordinates. *)
Definition inImage (l : Landmark) : Prop :=
  0 <= lm_x l <= 1 /\ 0 <= lm_y l <= 1.

Definition inSquare (v : Vec2) : Prop :=
  -1 <= v2_x v <= 1 /\ -1 <= v2_y v <= 1.

(** A hand pointing with the index finger only, palm edge-on, and the same
    hand a little to the side. *)
Definition ex_point_hand (shift : Q) : Hand :=
  [ mkLandmark 0.50 0.90 0;
    mkLandmark 0.45 0.85 0; mkLandmark 0.42 0.80 0;
    mkLandmark 0.40 0.76 0; mkLandmark 0.38 0.72 0;
    mkLandmark 0.50 0.70 0; mkLandmark (0.50 + shift) 0.55 0;
    mkLandmark (0.50 + shift) 0.45 0; mkLandmark (0.50 + shift) 0.35 0;
    mkLandmark 0.50 0.72 0; mkLandmark 0.50 0.80 0;
    mkLandmark 0.50 0.84 0; mkLandmark 0.50 0.86 0;
    mkLandmark 0.50 0.74 0; mkLandmark 0.50 0.81 0;
    mkLandmark 0.50 0.85 0; mkLandmark 0.50 0.87 0;
    mkLandmark 0.50 0.76 0; mkLandmark 0.50 0.82 0;
    mkLandmark 0.50 0.86 0; mkLandmark 0.50 0.88 0 ].

Definition ex_point_poll : Poll :=
  {| videoReady := true; result := Some [ex_point_hand 0]; now := 1000 |}.

Definition ex_unready_poll : Poll :=
  {| videoReady := false; result := None; now := 1016 |}.

Definition ex_swipe_poll : Poll :=
  {| videoReady := true; result := Some [ex_point_hand 0.2]; now := 1100 |}.

Definition ex_polls : list Poll :=
  [ ex_point_poll; ex_unready_poll; ex_swipe_poll;
    {| videoReady := true; result := None; now := 1116 |} ].

(** The tracker after the first two polls, after the swipe poll, and the
    state that poll publishes. *)
Definition orInitial (st : option Tracker) : Tracker :=
  match st with Some st' => st' | None => initial end.

Definition ex_pointing : Tracker :=
  Eval vm_compute in
    orInitial (run ex_sqrt ex_atan2 initial [ex_point_poll; ex_unready_poll]).

Definition ex_swiping : Tracker :=
  Eval vm_compute in
    orInitial (detectLoop ex_sqrt ex_atan2 ex_pointing ex_swipe_poll).

Definition ex_swipe_state : HandData :=
  Eval vm_compute in
    match handData ex_swiping with
    | Some h => h
    | None => Ambient.ex_open_palm
    end.

Definition ex_open_state : HandData :=
  Eval vm_compute in
    match handData (orInitial (detectLoop ex_sqrt ex_atan2 initial ex_detect_poll)) with
    | Some h => h
    | None => Ambient.ex_open_palm
    end.

Definition ex_open_geometry : Geometry :=
  Eval vm_compute in
    match geometry ex_sqrt ex_open_hand with
    | Some geo => geo
    | None => {| extendedFingers := 0; palmNormalZ := 0; pinch := 0;
                 px := 0; py := 0 |}
    end.

(** A frame cut short after the ring finger. *)
Definition ex_short_poll : Poll :=
  {| videoReady := true; result := Some [firstn 17 (ex_point_hand 0)];
     now := 1000 |}.

End GestureData.

(** ** Further data for the sampler *)

Module SamplerData.
Import Sampler.
Open Scope Q_scope.

(** The perceived brightness of the colour a particle carries. *)
Definition luminance (p : ParticleData) : Q :=
  0.21 * r p + 0.72 * g p + 0.07 * b p.

(** A particle whose anchor is where it stands. *)
Definition anchored (p : ParticleData) : Prop :=
  originalX p = x p /\ originalY p = y p /\ originalZ p = z p.

(** A colour with channels between 0 and 1 and the depth the sampler
    derives from it. *)
Definition shaded (p : ParticleData) : Prop :=
  (0 <= r p <= 1 /\ 0 <= g p <= 1 /\ 0 <= b p <= 1) /\
  z p = (luminance p - 0.5) * 2.5 /\
  - (1.25) <= z p <= 1.25.

(** A small opaque picture with a dark and a bright pixel in front. *)
Definition ex_two_tone : Image :=
  {| img_width := 800; img_height := 800;
     data := [10; 20; 30; 255; 250; 240; 230; 255]%Z ++ repeat 128%Z 56 |}.

(** Four coloured pixels, all of them transparent. *)
Definition ex_clear : Image :=
  {| img_width := 800; img_height := 800;
     data := [200; 100; 50; 0; 10; 250; 90; 0;
              255; 255; 255; 20; 0; 0; 0; 5]%Z |}.

End SamplerData.

(** ** Further data for the text glyph particles *)

Module TextParticleData.
Import JS TextParticles.
Open Scope Q_scope.

(** The fields of a particle that are set once, when it is made: all of
    them but the position, the phase and the start of the flight. *)
Definition sameGlyph (p q : TextParticle) : Prop :=
  id q = id p /\ char q = char p /\
  velocity q = velocity p /\ rotation q = rotation p /\
  spawnTime q = spawnTime p /\ morphTime q = morphTime p /\
  delay q = delay p /\
  holdPosition q = holdPosition p /\ dockPosition q = dockPosition p /\
  controlPoint q = controlPoint p /\ color q = color p.

(** Every object of [h] is still in [h'], related by [R]. *)
Definition heapRelated (R : TextParticle -> TextParticle -> Prop)
    (h h' : list TextParticle) : Prop :=
  forall ref p,
    nth_error h ref = Some p ->
    exists p', nth_error h' ref = Some p' /\ R p p'.

(** Every object of [h] is still in [h'], in a phase that is not earlier. *)
Definition advanced (h h' : list TextParticle) : Prop :=
  forall ref p,
    nth_error h ref = Some p ->
    exists p', nth_error h' ref = Some p'
               /\ (rank (phase p) <= rank (phase p'))%nat.

(** The ids of the objects a list of references points to. *)
Definition idsOf (h : list TextParticle) (refs : list nat) : list (option jsstring) :=
  map (fun ref => option_map id (nth_error h ref)) refs.

(** The particle objects of the React state [particles], in order. *)
Definition liveParticles (s : System) : list (option TextParticle) :=
  map (nth_error (heap s)) (particles s).

(** [physicsStateRef.current.get(k)]: the particle object kept under a key. *)
Definition physicsObject (s : System) (k : jsstring) : option TextParticle :=
  match map_get (physicsStateRef s) k with
  | Some ref => nth_error (heap s) ref
  | None => None
  end.

(** The last [n] entries of a list, all of them when it has no more:
    [l.slice(l.length - n)] under the test [l.length > n]. *)
Definition lastN (A : Type) (n : nat) (l : list A) : list A :=
  skipn (length l - n) l.

(** The physics map and the list of live particles hold the same glyphs:
    - a key of the map is the id of a live particle and the other way round;
    - under each key the map keeps a reference of the live list, to an object
      that carries the key as its id, the newest live object that does;
    - every live reference points into the heap;
    - the live list is in the order of creation. *)
Definition inSync (s : System) : Prop :=
  (forall k, In k (map fst (physicsStateRef s))
             <-> In (Some k) (idsOf (heap s) (particles s))) /\
  (forall k ref,
     map_get (physicsStateRef s) k = Some ref ->
     In ref (particles s) /\
     option_map id (nth_error (heap s) ref) = Some k /\
     forall ref',
       In ref' (particles s) ->
       option_map id (nth_error (heap s) ref') = Some k ->
       (ref' <= ref)%nat) /\
  Forall (fun ref => (ref < length (heap s))%nat) (particles s) /\
  StronglySorted lt (particles s).

(** A change of the props, as opposed to a frame or a mesh event. *)
Definition isUpdate (e : Event) : bool :=
  match e with
  | Props _ _ _ _ => true
  | _ => false
  end.

(** A transcript of 300 characters, to fill the list of live glyphs. *)
Definition ex_long_text : jsstring := repeat 97%N 300.

Definition ex_crowded : System :=
  fst (effect ex_sin ex_cos ex_PI ex_idString
         (fst (effect ex_sin ex_cos ex_PI ex_idString (mounted 0)
                 ex_long_text 0 1000 ex_random))
         (of_ascii "a fresh sentence") 0 2000 ex_random).

End TextParticleData.

(** ** Further definitions for the memory search *)

Module SearchData.
Import JS Search.
Open Scope Q_scope.

(** The prop [searchResultsCount] given to the controls: defined in the
    palace view with a non-empty query only. *)
Definition searchResultsCount (toLowerCase : jsstring -> jsstring)
    (viewMode : ViewMode) (transcript finalizedTranscript : jsstring)
    (savedMemories : list MemoryPackage) : option nat :=
  match viewMode, searchQueryOf transcript finalizedTranscript with
  | PALACE, _ :: _ =>
      Some (length (filter (fun m => gtb (scoreOf m) 0)
                      (processedMemories toLowerCase viewMode transcript
                         finalizedTranscript savedMemories)))
  | _, _ => None
  end.

(** [word] occurs in [text] as a substring. *)
Definition occursIn (word text : jsstring) : Prop :=
  exists before after, text = before ++ word ++ after.

(** [n] is the number of the [words], counted with their repetitions, that
    satisfy [P]. *)
Inductive countOf (P : jsstring -> Prop) : list jsstring -> nat -> Prop :=
| countOf_nil : countOf P [] 0
| countOf_hit (word : jsstring) (words : list jsstring) (n : nat) :
    P word -> countOf P words n -> countOf P (word :: words) (S n)
| countOf_miss (word : jsstring) (words : list jsstring) (n : nat) :
    ~ P word -> countOf P words n -> countOf P (word :: words) n.

(** A keyword worth searching for: not empty and not a stop word. *)
Definition usable (w : jsstring) : Prop :=
  w <> [] /\ has STOP_WORDS w = false.

Definition ex_three_memories : list MemoryPackage :=
  [ ex_memory (of_ascii "3") 3000 (of_ascii "rain on the window");
    ex_memory (of_ascii "2") 2000 (of_ascii "walk by the sea");
    ex_memory (of_ascii "1") 1000 (of_ascii "the sea at night") ].

End SearchData.

(** ** Further definitions for the ambient cloud *)

Module AmbientData.
Import JS Ambient.
Open Scope Q_scope.

(** The uniforms as [useRef] first makes them, for a particle size. *)
Definition initialUniforms (size : Q) : Uniforms :=
  {| uTime := 0; uSize := size; uDisruption := 0; uPointer := (0, 0);
     uSwipeActive := 0; uReadingMode := 0 |}.

(** The blend weights within the ranges the shader expects. *)
Definition inRange (u : Uniforms) : Prop :=
  0 <= uDisruption u <= 2.5 /\
  0 <= uSwipeActive u <= 1 /\
  0 <= uReadingMode u <= 1.

(** The scene after a sequence of frames. *)
Definition frames (fs : list Frame) (s : Scene) : Scene :=
  fold_left (fun s f => useFrame f s) fs s.

End AmbientData.

(** ** Memory palace (components/MemoryPalace.tsx) *)

Module Palace.
Import JS Search.
Open Scope Q_scope.

Definition Position : Type := Q * Q * Q.

(** [memories.some(m => (m.matchScore || 0) > 0)] *)
Definition hasActiveSearch (memories : list MemoryPackage) : bool :=
  existsb (fun m => gtb (scoreOf m) 0) memories.

(** The alternating offset of the [i]-th match: 0, 1, -1, 2, -2, ... *)
Definition offsetUnit (i : nat) : Z :=
  if (0 <? i)%nat then
    (Qceiling (inject_Z (Z.of_nat i) / 2)
     * (if (i mod 2 =? 1)%nat then 1 else -1))%Z
  else 0%Z.

(** The place of the [i]-th match in focus mode. *)
Definition focusSlot (i : nat) : Position :=
  let spread := 7.0 in
  let offset := inject_Z (offsetUnit i) * spread in
  let z := 6.0 - Qabs (inject_Z (offsetUnit i)) * 1.5 in
  let y := - Qabs (inject_Z (offsetUnit i)) * 0.5 in
  (offset, y, z).

(** [array.forEach((mem, i) => posMap.set(mem.id, place i))], from index
    [i] on. *)
Fixpoint setEach (place : nat -> Position) (l : list MemoryPackage) (i : nat)
    (posMap : list (jsstring * Position)) : list (jsstring * Position) :=
  match l with
  | [] => posMap
  | mem :: rest =>
      setEach place rest (S i) (TextParticles.map_set posMap (id mem) (place i))
  end.

Section WithMath.

Variable Math_sin : Q -> Q.
Variable Math_cos : Q -> Q.
Variable Math_PI : Q.
(** The k-th value returned by [Math.random()] while the layout is made. *)
Variable Math_random : nat -> Q.

(** The place of the [i]-th memory without a score, deep in the background;
    it takes three draws. *)
Definition scatterSlot (i : nat) : Position :=
  let angle := inject_Z (Z.of_nat i) * 137.5 * (Math_PI / 180) in
  let radius := 20 + Math_random (3 * i)%nat * 10 in
  let x := Math_cos angle * radius in
  let y := (Math_random (3 * i + 1)%nat - 0.5) * 15 in
  let z := - (15) - Math_random (3 * i + 2)%nat * 10 in
  (x, y, z).

(** The place of the [i]-th memory on the gallery spiral. *)
Definition gallerySlot (i : nat) : Position :=
  let angle := inject_Z (Z.of_nat i) * 1.5 in
  let radius := 5 + inject_Z (Z.of_nat i) * 4 in
  let x := Math_cos angle * radius in
  let z := Math_sin angle * radius in
  let y := Math_sin (inject_Z (Z.of_nat i) * 0.5) * 2 in
  (x, y, z).

(** The [useMemo] that lays the memories out. *)
Definition targetPositions (memories : list MemoryPackage)
    : list (jsstring * Position) :=
  let matches := filter (fun m => gtb (scoreOf m) 0) memories in
  let nonMatches := filter (fun m => Qle_bool (scoreOf m) 0) memories in
  if hasActiveSearch memories && (0 <? length matches)%nat then
    setEach scatterSlot nonMatches 0 (setEach focusSlot matches 0 [])
  else
    setEach gallerySlot memories 0 [].

(** [targetPositions.get(mem.id) || [0, 0, 0]] *)
Definition targetOf (memories : list MemoryPackage) (mem : MemoryPackage)
    : Position :=
  match TextParticles.map_get (targetPositions memories) (id mem) with
  | Some p => p
  | None => (0, 0, 0)
  end.

End WithMath.

(** *** Gesture control of the palace ([useFrame]) *)

Record GestureState := mkGestureState {
  prevPinch : Q;
  prevPalm : Gesture.Vec2;
  targetRot_x : Q;
  targetRot_y : Q;
  targetScale : Q;
  isPinching : bool;
  isPanning : bool
}.

(** The rotation and scale of the group that holds the bubbles. *)
Record Group := mkGroup { rotation_x : Q; rotation_y : Q; scale : Q }.

Record Scene := mkScene {
  gestureState : GestureState;
  groupRef : option Group
}.

Definition initialGesture : GestureState :=
  {| prevPinch := 0;
     prevPalm := {| Gesture.v2_x := 0; Gesture.v2_y := 0 |};
     targetRot_x := 0; targetRot_y := 0; targetScale := 1.0;
     isPinching := false; isPanning := false |}.

(** [v || fallback] on numbers. *)
Definition orElse (v fallback : Q) : Q := if Qeq_bool v 0 then fallback else v.

(** SCALE CONTROL (PINCH) *)
Definition pinchControl (pinchDist : Q) (st : GestureState) : GestureState :=
  if ltb pinchDist 0.15 then
    if negb (isPinching st) then
      {| prevPinch := pinchDist; prevPalm := prevPalm st;
         targetRot_x := targetRot_x st; targetRot_y := targetRot_y st;
         targetScale := targetScale st;
         isPinching := true; isPanning := isPanning st |}
    else
      let safePrev := orElse (prevPinch st) 0.001 in
      let ratio := pinchDist / safePrev in
      let scaleDelta := (ratio - 1) * 1.5 in
      let newScale := Qmax 0.3 (Qmin 3.0 (targetScale st + scaleDelta)) in
      {| prevPinch := pinchDist; prevPalm := prevPalm st;
         targetRot_x := targetRot_x st; targetRot_y := targetRot_y st;
         targetScale := newScale;
         isPinching := isPinching st; isPanning := isPanning st |}
  else
    {| prevPinch := prevPinch st; prevPalm := prevPalm st;
       targetRot_x := targetRot_x st; targetRot_y := targetRot_y st;
       targetScale := targetScale st;
       isPinching := false; isPanning := isPanning st |}.

(** ROTATION CONTROL (PAN) *)
Definition panControl (pinchDist : Q) (palmCenter : Gesture.Vec2)
    (st : GestureState) : GestureState :=
  if negb (ltb pinchDist 0.15) then
    if negb (isPanning st) then
      {| prevPinch := prevPinch st; prevPalm := palmCenter;
         targetRot_x := targetRot_x st; targetRot_y := targetRot_y st;
         targetScale := targetScale st;
         isPinching := isPinching st; isPanning := true |}
    else
      let dx := Gesture.v2_x palmCenter - Gesture.v2_x (prevPalm st) in
      let dy := Gesture.v2_y palmCenter - Gesture.v2_y (prevPalm st) in
      {| prevPinch := prevPinch st; prevPalm := palmCenter;
         targetRot_x := targetRot_x st + dy * 0.5;
         targetRot_y := targetRot_y st + dx * 0.5;
         targetScale := targetScale st;
         isPinching := isPinching st; isPanning := isPanning st |}
  else
    {| prevPinch := prevPinch st; prevPalm := prevPalm st;
       targetRot_x := targetRot_x st; targetRot_y := targetRot_y st;
       targetScale := targetScale st;
       isPinching := isPinching st; isPanning := false |}.

(** The [useFrame] callback of the palace. *)
Definition useFrame (handData : option Gesture.HandData) (s : Scene) : Scene :=
  match groupRef s with
  | None => s
  | Some group =>
      let st :=
        match handData with
        | Some hd =>
            if Gesture.detected hd then
              let pinchDist := orElse (Gesture.pinchDistance hd) 1.0 in
              panControl pinchDist (Gesture.palmCenter hd)
                (pinchControl pinchDist (gestureState s))
            else gestureState s
        | None => gestureState s
        end in
      {| gestureState := st;
         groupRef :=
           Some {| rotation_x := lerp (rotation_x group) (targetRot_x st) 0.1;
                   rotation_y := lerp (rotation_y group) (targetRot_y st) 0.1;
                   scale := lerp (scale group) (targetScale st) 0.1 |} |}
  end.

Definition frames (hands : list (option Gesture.HandData)) (s : Scene) : Scene :=
  fold_left (fun s hd => useFrame hd s) hands s.

(** The palace as first mounted: the group of a fresh scene has no rotation
    and scale 1. *)
Definition mounted : Scene :=
  {| gestureState := initialGesture;
     groupRef := Some {| rotation_x := 0; rotation_y := 0; scale := 1 |} |}.

(** The scale target and the scale of the group within the limits of the
    zoom. *)
Definition scalesBounded (s : Scene) : Prop :=
  0.3 <= targetScale (gestureState s) <= 3 /\
  match groupRef s with
  | Some group => 0.3 <= scale group <= 3
  | None => False
  end.

(** *** Example data *)

Definition ex_pinch (distance : Q) : option Gesture.HandData :=
  Some {| Gesture.gesture := Gesture.PINCH;
          Gesture.position := {| Gesture.v3_x := 0; Gesture.v3_y := 0;
                                 Gesture.v3_z := 0 |};
          Gesture.palmCenter := {| Gesture.v2_x := 0; Gesture.v2_y := 0 |};
          Gesture.pointer := {| Gesture.v2_x := 0; Gesture.v2_y := 0 |};
          Gesture.rotation := {| Gesture.v2_x := 0; Gesture.v2_y := 0 |};
          Gesture.detected := true;
          Gesture.pinchDistance := distance |}.

Definition ex_scored (name : jsstring) (t : Z) (score : Q) : MemoryPackage :=
  withScore (ex_memory name t (of_ascii "text")) score.

Definition ex_found : list MemoryPackage :=
  [ ex_scored (of_ascii "a") 1 1; ex_scored (of_ascii "b") 2 0.5;
    ex_scored (of_ascii "c") 3 0.5; ex_scored (of_ascii "d") 4 0 ].

End Palace.

(** ** Saving and restoring a memory (App.tsx) *)

Module Session.
Import JS Search.
Open Scope Q_scope.

(** *** Integers and their hexadecimal text *)

(** [ToInt32] on an integer. *)
Definition toInt32 (n : Z) : Z :=
  let m := (n mod 4294967296)%Z in
  if (2147483648 <=? m)%Z then (m - 4294967296)%Z else m.

(** [n << k] on integers, for [0 <= k < 32]. *)
Definition shl (n k : Z) : Z := toInt32 (toInt32 n * 2 ^ k)%Z.

(** The digit [d] of [0123456789abcdef]. *)
Definition hexDigit (d : Z) : code :=
  if (d <? 10)%Z then Z.to_N (48 + d) else Z.to_N (87 + d).

(** The hexadecimal digits of [n >= 0]; a number below [2 ^ fuel] needs no
    more than [fuel] steps. *)
Fixpoint hexOf (fuel : nat) (n : Z) : jsstring :=
  match fuel with
  | O => []
  | S fuel' =>
      if (n <? 16)%Z then [hexDigit n]
      else hexOf fuel' (n / 16)%Z ++ [hexDigit (n mod 16)%Z]
  end.

(** [n.toString(16)] on an integer. *)
Definition toString16 (n : Z) : jsstring :=
  if (n <? 0)%Z then 45%N :: hexOf (S (Z.to_nat (Z.log2 (- n)))) (- n)%Z
  else hexOf (S (Z.to_nat (Z.log2 n))) n.

Definition isHexDigit (c : code) : Prop :=
  (48 <= c <= 57)%N \/ (97 <= c <= 102)%N.

(** *** The palette of a scene *)

(** The inner loop over one chunk: every tenth particle from [j] on, below
    [stop] and within the array. One step needs one unit of fuel; the array
    length is enough of it. *)
Fixpoint chunkSum (fuel : nat) (sortedParticles : list Sampler.ParticleData)
    (j stop : nat) (acc : Q * Q * Q * nat) : Q * Q * Q * nat :=
  match fuel with
  | O => acc
  | S fuel' =>
      if (j <? stop)%nat && (j <? length sortedParticles)%nat then
        match nth_error sortedParticles j with
        | Some p =>
            let '(r, g, b, count) := acc in
            chunkSum fuel' sortedParticles (j + 10) stop
              (r + Sampler.r p, g + Sampler.g p, b + Sampler.b p, S count)
        | None => acc
        end
      else acc
  end.

(** The colour of a chunk from its sums. *)
Definition hexOfSums (sums : Q * Q * Q * nat) : jsstring :=
  let '(r, g, b, count) := sums in
  if (0 <? count)%nat then
    let n := inject_Z (Z.of_nat count) in
    of_ascii "#"
    ++ slice_from
         (toString16 (shl 1 24 + shl (Qfloor (r / n * 255)) 16
                      + shl (Qfloor (g / n * 255)) 8
                      + Qfloor (b / n * 255))%Z) 1
  else of_ascii "#ffffff".

Definition paletteEntry (sortedParticles : list Sampler.ParticleData)
    (chunkSize i : nat) : jsstring :=
  hexOfSums (chunkSum (length sortedParticles) sortedParticles
               (i * chunkSize) ((i + 1) * chunkSize) (0, 0, 0, 0%nat)).

(** The three colours [handleSaveMemory] computes, near chunk first. *)
Definition paletteOf (particles : list Sampler.ParticleData) : list jsstring :=
  let sortedParticles :=
    sort (fun a b => Sampler.z b - Sampler.z a) particles in
  if (0 <? length sortedParticles)%nat then
    let chunkSize :=
      Z.to_nat (Qceiling (inject_Z (Z.of_nat (length sortedParticles)) / 3)) in
    [ paletteEntry sortedParticles chunkSize 0;
      paletteEntry sortedParticles chunkSize 1;
      paletteEntry sortedParticles chunkSize 2 ]
  else [ of_ascii "#ffffff"; of_ascii "#cccccc"; of_ascii "#999999" ].

(** Colour channels as the sampler makes them, between 0 and 1. *)
Definition unitColour (p : Sampler.ParticleData) : Prop :=
  0 <= Sampler.r p <= 1 /\ 0 <= Sampler.g p <= 1 /\ 0 <= Sampler.b p <= 1.

(** The sums of a chunk stay between 0 and the number of particles
    counted. *)
Definition sumsBounded (sums : Q * Q * Q * nat) : Prop :=
  let '(r, g, b, count) := sums in
  let n := inject_Z (Z.of_nat count) in
  0 <= r <= n /\ 0 <= g <= n /\ 0 <= b <= n.

(** [#] followed by six hexadecimal digits. *)
Definition isHexColour (s : jsstring) : Prop :=
  exists digits, s = of_ascii "#" ++ digits /\
                 length digits = 6%nat /\ Forall isHexDigit digits.

(** *** The state of the application *)

Inductive SaveStatus := idle | saving | saved.

Record AppState := mkAppState {
  viewMode : ViewMode;
  saveStatus : SaveStatus;
  savedMemories : list MemoryPackage;
  particles : list Sampler.ParticleData;
  density : nat;
  sentiment : Sentiment;
  sentimentRef : Sentiment;
  transcript : jsstring;
  finalizedTranscript : jsstring;
  voiceMemories : list VoiceMemory;
  currentMemoryTimestamp : Z;
  sceneVersion : Z;
  currentImageUrlRef : jsstring
}.

(** [l.join(sep)] *)
Fixpoint join (sep : jsstring) (l : list jsstring) : jsstring :=
  match l with
  | [] => []
  | [s] => s
  | s :: rest => s ++ sep ++ join sep rest
  end.

(** [a || b] on strings. *)
Definition orString (a b : jsstring) : jsstring :=
  match a with [] => b | _ :: _ => a end.

(** [fullTranscript || finalizedTranscript || "Silent Memory"] *)
Definition finalSnapshot (a : AppState) : jsstring :=
  let fullTranscript :=
    join (of_ascii " ") (map vm_transcript (voiceMemories a)) in
  orString (orString fullTranscript (finalizedTranscript a))
    (of_ascii "Silent Memory").

Section WithToString.

(** [n.toString()] on a clock reading. *)
Variable toString : Z -> jsstring.

(** The package [handleSaveMemory] builds. [canvas] is the data URL of the
    canvas when the document has one; [now_id] and [now_ts] are the two
    readings of the clock. A palette always has a first colour; the empty
    string stands for [undefined] otherwise. *)
Definition packageOf (canvas : option jsstring) (now_id now_ts : Z)
    (a : AppState) : MemoryPackage :=
  let screenshotUrl := match canvas with Some url => url | None => [] end in
  let palette := paletteOf (particles a) in
  {| id := toString now_id;
     timestamp := now_ts;
     thumbnail := screenshotUrl;
     imageSnapshot := currentImageUrlRef a;
     particleCount := density a;
     Search.sentiment := sentiment a;
     transcriptSnapshot := finalSnapshot a;
     dominantColor := match palette with c :: _ => c | [] => [] end;
     palette := palette;
     matchScore := Some 0;
     Search.voiceMemories := voiceMemories a |}.

Definition handleSaveMemory (canvas : option jsstring) (now_id now_ts : Z)
    (a : AppState) : AppState :=
  {| viewMode := viewMode a;
     saveStatus := saving;
     savedMemories := packageOf canvas now_id now_ts a :: savedMemories a;
     particles := particles a;
     density := density a;
     sentiment := sentiment a;
     sentimentRef := sentimentRef a;
     transcript := transcript a;
     finalizedTranscript := finalizedTranscript a;
     voiceMemories := voiceMemories a;
     currentMemoryTimestamp := currentMemoryTimestamp a;
     sceneVersion := sceneVersion a;
     currentImageUrlRef := currentImageUrlRef a |}.

(** The handler up to the start of the sampling; the effect that follows
    the render copies the sentiment into its ref. *)
Definition handleRestoreMemory (memory : MemoryPackage) (a : AppState)
    : AppState :=
  {| viewMode := LIVE;
     saveStatus := saveStatus a;
     savedMemories := savedMemories a;
     particles := [];
     density := particleCount memory;
     sentiment := Search.sentiment memory;
     sentimentRef := Search.sentiment memory;
     transcript := transcript a;
     finalizedTranscript := transcriptSnapshot memory;
     voiceMemories := Search.voiceMemories memory;
     currentMemoryTimestamp := timestamp memory;
     sceneVersion := sceneVersion a;
     currentImageUrlRef := imageSnapshot memory |}.

(** [handleUpload] up to the start of the sampling. *)
Definition handleUpload (url : jsstring) (now : Z) (a : AppState) : AppState :=
  {| viewMode := viewMode a;
     saveStatus := saveStatus a;
     savedMemories := savedMemories a;
     particles := [];
     density := density a;
     sentiment := sentiment a;
     sentimentRef := sentimentRef a;
     transcript := [];
     finalizedTranscript := [];
     voiceMemories := [];
     currentMemoryTimestamp := now;
     sceneVersion := sceneVersion a;
     currentImageUrlRef := url |}.

(** The sampling resolved: [setParticles(data); setSceneVersion(Date.now())]. *)
Definition particlesLoaded (data : list Sampler.ParticleData) (now : Z)
    (a : AppState) : AppState :=
  {| viewMode := viewMode a;
     saveStatus := saveStatus a;
     savedMemories := savedMemories a;
     particles := data;
     density := density a;
     sentiment := sentiment a;
     sentimentRef := sentimentRef a;
     transcript := transcript a;
     finalizedTranscript := finalizedTranscript a;
     voiceMemories := voiceMemories a;
     currentMemoryTimestamp := currentMemoryTimestamp a;
     sceneVersion := now;
     currentImageUrlRef := currentImageUrlRef a |}.

(** *** Speech results ([recognition.onresult]) *)

(** [event.results[i]]: its flag and the transcript of its first
    alternative. *)
Record SpeechResult := mkSpeechResult {
  isFinal : bool;
  alternative : jsstring
}.

(** One final result: the text becomes the finalized transcript, the
    interim transcript is cleared and a voice memory is appended. *)
Definition finalResult (finalText : jsstring) (now_id now_ts : Z)
    (a : AppState) : AppState :=
  let newMemory :=
    {| vm_id := toString now_id; vm_transcript := finalText;
       vm_sentiment := sentimentRef a; vm_timestamp := now_ts |} in
  {| viewMode := viewMode a;
     saveStatus := saveStatus a;
     savedMemories := savedMemories a;
     particles := particles a;
     density := density a;
     sentiment := sentiment a;
     sentimentRef := sentimentRef a;
     transcript := [];
     finalizedTranscript := finalText;
     voiceMemories := voiceMemories a ++ [newMemory];
     currentMemoryTimestamp := currentMemoryTimestamp a;
     sceneVersion := sceneVersion a;
     currentImageUrlRef := currentImageUrlRef a |}.

Definition setTranscript (text : jsstring) (a : AppState) : AppState :=
  {| viewMode := viewMode a;
     saveStatus := saveStatus a;
     savedMemories := savedMemories a;
     particles := particles a;
     density := density a;
     sentiment := sentiment a;
     sentimentRef := sentimentRef a;
     transcript := text;
     finalizedTranscript := finalizedTranscript a;
     voiceMemories := voiceMemories a;
     currentMemoryTimestamp := currentMemoryTimestamp a;
     sceneVersion := sceneVersion a;
     currentImageUrlRef := currentImageUrlRef a |}.

(** The loop over the results; [Date_now k] is the k-th reading of the
    clock, and a final result takes two. *)
Fixpoint resultLoop (Date_now : nat -> Z) (results : list SpeechResult)
    (k : nat) (interim : jsstring) (a : AppState) : jsstring * AppState :=
  match results with
  | [] => (interim, a)
  | res :: rest =>
      if isFinal res then
        resultLoop Date_now rest (k + 2) interim
          (finalResult (alternative res) (Date_now k) (Date_now (k + 1)%nat) a)
      else
        resultLoop Date_now rest k (interim ++ alternative res) a
  end.

(** [recognition.onresult]: the results from [resultIndex] on. *)
Definition onresult (Date_now : nat -> Z) (results : list SpeechResult)
    (resultIndex : nat) (a : AppState) : AppState :=
  let '(interim, a') :=
    resultLoop Date_now (skipn resultIndex results) 0 [] a in
  match interim with
  | [] => a'
  | _ :: _ => setTranscript interim a'
  end.

End WithToString.

(** The final results among those an event brings. *)
Definition finalTexts (results : list SpeechResult) : list jsstring :=
  map alternative (filter isFinal results).

(** The interim results of an event, concatenated. *)
Definition interimText (results : list SpeechResult) : jsstring :=
  concat (map alternative (filter (fun res => negb (isFinal res)) results)).

(** *** Example data *)

Definition ex_toString (n : Z) : jsstring := [Z.to_N n].

Definition ex_particle (depth red green blue : Q) : Sampler.ParticleData :=
  {| Sampler.x := 0; Sampler.y := 0; Sampler.z := depth;
     Sampler.r := red; Sampler.g := green; Sampler.b := blue;
     Sampler.originalX := 0; Sampler.originalY := 0;
     Sampler.originalZ := depth; Sampler.random := 0.5 |}.

(** A live scene with three particles, two voice memories and an interim
    transcript. *)
Definition ex_live : AppState :=
  {| viewMode := LIVE; saveStatus := idle; savedMemories := [];
     particles := [ ex_particle 1 1 0.5 0; ex_particle 3 0.2 0.4 0.6;
                    ex_particle 2 0 0 1 ];
     density := (150 * 100)%nat; sentiment := POSITIVE; sentimentRef := POSITIVE;
     transcript := of_ascii "and";
     finalizedTranscript := of_ascii "the sea";
     voiceMemories :=
       [ {| vm_id := [1%N]; vm_transcript := of_ascii "a walk";
            vm_sentiment := NEUTRAL; vm_timestamp := 1 |};
         {| vm_id := [2%N]; vm_transcript := of_ascii "the sea";
            vm_sentiment := POSITIVE; vm_timestamp := 2 |} ];
     currentMemoryTimestamp := 0; sceneVersion := 0;
     currentImageUrlRef := of_ascii "blob:1" |}.

Definition ex_palette : list jsstring :=
  Eval vm_compute in paletteOf (particles ex_live).

End Session.

(** ** PCM conversion (utils/audioStreamer.ts, [onaudioprocess]) *)

Module Pcm.
Import JS.
Open Scope Q_scope.

(** The integral part of a number, toward zero. *)
Definition truncate (v : Q) : Z :=
  if Qle_bool 0 v then Qfloor v else Qceiling v.

(** The value an [Int16Array] keeps of a number stored in it. *)
Definition toInt16 (v : Q) : Z :=
  let m := (truncate v mod 65536)%Z in
  if (32768 <=? m)%Z then (m - 65536)%Z else m.

(** [s < 0 ? s * 0x8000 : s * 0x7FFF] for the clamped sample [s]. *)
Definition scaled (input : Q) : Q :=
  let s := Qmax (- (1)) (Qmin 1 input) in
  if ltb s 0 then s * 32768 else s * 32767.

(** One sample: clamp to [-1, 1], scale, store. *)
Definition pcmSample (input : Q) : Z := toInt16 (scaled input).

(** [pcmData] for the samples of a buffer. *)
Definition pcmData (inputData : list Q) : list Z := map pcmSample inputData.

End Pcm.

(** * Properties *)

(** ** Numbers and strings *)

Section JSFacts.
Import JS.
Open Scope Q_scope.

Lemma ltb_lt (a b : Q) : ltb a b = true <-> a < b.
Proof.
  unfold ltb. rewrite negb_true_iff. split; intro H.
  - apply Qnot_le_lt. intro Hle. apply Qle_bool_iff in Hle. congruence.
  - destruct (Qle_bool b a) eqn:E; [|reflexivity].
    apply Qle_bool_iff in E. exfalso. exact (Qlt_not_le _ _ H E).
Qed.

Lemma ltb_ge (a b : Q) : ltb a b = false <-> b <= a.
Proof.
  unfold ltb. rewrite negb_false_iff. apply Qle_bool_iff.
Qed.

Lemma str_eqb_eq (s t : jsstring) : str_eqb s t = true <-> s = t.
Proof.
  revert t. induction s as [|a s IH]; intros [|b t]; simpl; split;
    try congruence; try reflexivity.
  - rewrite andb_true_iff. intros [Hab Hst]. apply N.eqb_eq in Hab.
    apply IH in Hst. congruence.
  - intros [= -> ->]. rewrite andb_true_iff. split.
    + apply N.eqb_refl.
    + now apply IH.
Qed.

Lemma startsWith_app (p s : jsstring) : startsWith (p ++ s) p = true.
Proof.
  induction p as [|a p IH]; simpl; [reflexivity|].
  unfold code_eqb. now rewrite N.eqb_refl, IH.
Qed.

Lemma startsWith_split (s p : jsstring) :
  startsWith s p = true -> s = p ++ skipn (length p) s.
Proof.
  revert s. induction p as [|b p IH]; intros s H; simpl in *.
  - reflexivity.
  - destruct s as [|a s]; [discriminate|].
    apply andb_true_iff in H. destruct H as [Hab Hs].
    apply N.eqb_eq in Hab. subst b. simpl. f_equal. now apply IH.
Qed.

End JSFacts.

(** ** Gesture classifier *)

Section GestureFacts.
Import JS Gesture.
Open Scope Q_scope.

Variable Math_sqrt : Q -> Q.
Variable Math_atan2 : Q -> Q -> Q.

Local Abbreviation geometry := (geometry Math_sqrt).
Local Abbreviation pointerVelocity := (pointerVelocity Math_sqrt).
Local Abbreviation publish := (publish Math_atan2).
Local Abbreviation detectFrame := (detectFrame Math_sqrt Math_atan2).
Local Abbreviation detectLoop := (detectLoop Math_sqrt Math_atan2).
Local Abbreviation run := (run Math_sqrt Math_atan2).
Local Abbreviation reads := (reads Math_sqrt Math_atan2).

(** The nested conditionals and the ordered rule list pick the same label. *)
Lemma classify_policy (pinchDistance : Q) (extended : nat)
    (palmNormal velocity : Q) (l6 l8 : Landmark) :
  classify pinchDistance extended palmNormal velocity l6 l8
  = policy pinchDistance extended palmNormal velocity (indexExtended l6 l8).
Proof.
  unfold classify, policy, first_match.
  destruct (ltb pinchDistance 0.08); [reflexivity|].
  destruct (4 <=? extended)%nat; [reflexivity|].
  destruct ((extended <=? 1)%nat && gtb (Qabs palmNormal) 0.01); [reflexivity|].
  destruct ((extended =? 1)%nat && gtb velocity 0.5); simpl; reflexivity.
Qed.

(** A hand of 21 landmarks has every index the loop reads. *)
Lemma landmark_defined (landmarks : Hand) (i : nat) :
  length landmarks = 21%nat -> (i < 21)%nat ->
  exists l, nth_error landmarks i = Some l.
Proof.
  intros Hlen Hi.
  destruct (nth_error landmarks i) as [l|] eqn:E; [now exists l|].
  apply nth_error_None in E. lia.
Qed.

Lemma countExtended_total (landmarks : Hand) (wrist : Landmark)
    (tips : list nat) (acc : nat) :
  length landmarks = 21%nat -> Forall (fun i => (i < 21)%nat) tips ->
  exists n, countExtended landmarks wrist tips acc = Some n.
Proof.
  intros Hlen Htips. revert acc.
  induction Htips as [|idx rest Hidx _ IH]; intro acc; simpl.
  - now exists acc.
  - destruct (@landmark_defined landmarks idx Hlen Hidx) as [tip ->].
    assert (Hpip : (idx - 2 < 21)%nat) by lia.
    destruct (@landmark_defined landmarks (idx - 2) Hlen Hpip) as [pip ->].
    apply IH.
Qed.

Lemma geometry_total (landmarks : Hand) :
  length landmarks = 21%nat -> exists geo, geometry landmarks = Some geo.
Proof.
  intro Hlen. unfold Gesture.geometry.
  destruct (@landmark_defined landmarks 0 Hlen) as [wrist ->]; [lia|].
  destruct (@countExtended_total landmarks wrist [8; 12; 16; 20]%nat 0%nat Hlen)
    as [n ->].
  { repeat constructor; lia. }
  destruct (@landmark_defined landmarks 5 Hlen) as [l5 ->]; [lia|].
  destruct (@landmark_defined landmarks 17 Hlen) as [l17 ->]; [lia|].
  destruct (@landmark_defined landmarks 4 Hlen) as [l4 ->]; [lia|].
  destruct (@landmark_defined landmarks 8 Hlen) as [l8 ->]; [lia|].
  eexists. reflexivity.
Qed.

Lemma publish_total (landmarks : Hand) (geo : Geometry) (g : Label) :
  length landmarks = 21%nat ->
  exists hd, publish landmarks geo g = Some hd /\
             gesture hd = g /\ detected hd = true.
Proof.
  intro Hlen. unfold Gesture.publish.
  destruct (@landmark_defined landmarks 0 Hlen) as [l0 ->]; [lia|].
  destruct (@landmark_defined landmarks 5 Hlen) as [l5 ->]; [lia|].
  destruct (@landmark_defined landmarks 9 Hlen) as [l9 ->]; [lia|].
  destruct (@landmark_defined landmarks 17 Hlen) as [l17 ->]; [lia|].
  eexists. split; [reflexivity|]. split; reflexivity.
Qed.

(** A frame of 21 landmarks is processed without error, and the state
    published for it carries the label the conditionals compute. *)
Lemma detectFrame_publishes (st : Tracker) (t : Z) (landmarks : Hand) :
  length landmarks = 21%nat ->
  exists geo l6 l8 st' hd,
    geometry landmarks = Some geo /\
    nth_error landmarks 6 = Some l6 /\
    nth_error landmarks 8 = Some l8 /\
    detectFrame st t landmarks = Some st' /\
    handData st' = Some hd /\
    detected hd = true /\
    gesture hd =
      classify (pinch geo) (extendedFingers geo) (palmNormalZ geo)
               (pointerVelocity st t (px geo) (py geo)) l6 l8.
Proof.
  intro Hlen.
  destruct (@geometry_total landmarks Hlen) as [geo Hgeo].
  destruct (@landmark_defined landmarks 6 Hlen) as [l6 H6]; [lia|].
  destruct (@landmark_defined landmarks 8 Hlen) as [l8 H8]; [lia|].
  set (g := classify (pinch geo) (extendedFingers geo) (palmNormalZ geo)
              (pointerVelocity st t (px geo) (py geo)) l6 l8).
  destruct (@publish_total landmarks geo g Hlen) as [hd [Hpub [Hg Hd]]].
  exists geo, l6, l8.
  eexists. exists hd.
  repeat split; try eassumption.
  - unfold Gesture.detectFrame, Gesture.labelOf.
    rewrite Hgeo, H6, H8. fold g. rewrite Hpub. reflexivity.
  - reflexivity.
Qed.

(** C1. On every poll that detects a hand of 21 landmarks the loop publishes
    a state whose label is decided in priority order: PINCH when the pinch
    distance is below 0.08; else OPEN when at least four fingers are
    extended; else CLOSED when at most one finger is extended and the
    absolute palm normal exceeds 0.01; else SWIPE when exactly one finger is
    extended, the pointer velocity exceeds 0.5 and the index finger is
    extended; else IDLE. *)
Theorem gesture_label_priority (st : Tracker) (p : Poll) (landmarks : Hand) :
  detects p landmarks ->
  length landmarks = 21%nat ->
  exists geo l6 l8 st' hd,
    geometry landmarks = Some geo /\
    nth_error landmarks 6 = Some l6 /\
    nth_error landmarks 8 = Some l8 /\
    detectLoop st p = Some st' /\
    handData st' = Some hd /\
    detected hd = true /\
    gesture hd =
      policy (pinch geo) (extendedFingers geo) (palmNormalZ geo)
             (pointerVelocity st (now p) (px geo) (py geo))
             (indexExtended l6 l8).
Proof.
  intros [Hready Hhand] Hlen.
  destruct (@detectFrame_publishes st (now p) landmarks Hlen)
    as (geo & l6 & l8 & st' & hd & Hgeo & H6 & H8 & Hframe & Hhd & Hd & Hg).
  exists geo, l6, l8, st', hd.
  repeat split; try assumption.
  - unfold Gesture.detectLoop. now rewrite Hready, Hhand.
  - rewrite Hg. apply classify_policy.
Qed.


(** Without a cached pointer the velocity is 0. *)
Lemma velocity_without_pointer (st : Tracker) (t : Z) (x y : Q) :
  lastPointerRef st = None -> pointerVelocity st t x y = 0.
Proof.
  intro H. unfold Gesture.pointerVelocity. now rewrite H.
Qed.

(** Polls that detect nothing leave the pointer cache empty. *)
Lemma gap_keeps_pointer_cleared (gap : list Poll) (st st' : Tracker) :
  Forall (fun g => forall l, ~ detects g l) gap ->
  lastPointerRef st = None ->
  run st gap = Some st' ->
  lastPointerRef st' = None.
Proof.
  intro Hgap. revert st.
  induction Hgap as [|g gap Hg _ IH]; intros st Hptr Hrun; simpl in Hrun.
  - now inversion Hrun; subst.
  - unfold Gesture.detectLoop in Hrun.
    destruct (videoReady g) eqn:Hready.
    + destruct (firstHand g) as [l|] eqn:Hhand.
      * exfalso. apply (Hg l). now split.
      * eapply IH; [|exact Hrun]. reflexivity.
    + eapply IH; [|exact Hrun]. exact Hptr.
Qed.

(** C9. On a poll where the detector finds no hand, the published state,
    when there is one, has [detected = false] and label IDLE, the cached
    pointer is cleared, and at the next poll that detects a hand, however
    many polls without a detection lie in between, the pointer velocity is
    0 and the label is the one the policy gives for velocity 0. *)
Theorem no_hand_resets_pointer (st : Tracker) (p : Poll) :
  noHand p ->
  exists st1,
    detectLoop st p = Some st1 /\
    (forall h, handData st1 = Some h -> detected h = false /\ gesture h = IDLE) /\
    lastPointerRef st1 = None /\
    (forall gap st2 q landmarks,
        Forall (fun g => forall l, ~ detects g l) gap ->
        run st1 gap = Some st2 ->
        detects q landmarks ->
        length landmarks = 21%nat ->
        (forall x y, pointerVelocity st2 (now q) x y = 0) /\
        exists geo l6 l8 st3 hd,
          geometry landmarks = Some geo /\
          nth_error landmarks 6 = Some l6 /\
          nth_error landmarks 8 = Some l8 /\
          detectLoop st2 q = Some st3 /\
          handData st3 = Some hd /\
          gesture hd =
            policy (pinch geo) (extendedFingers geo) (palmNormalZ geo) 0
                   (indexExtended l6 l8)).
Proof.
  intros [Hready Hnone].
  eexists. split; [|split; [|split]].
  - unfold Gesture.detectLoop. rewrite Hready, Hnone. reflexivity.
  - simpl. intros h Hh. destruct (handData st) as [prev|]; simpl in Hh.
    + inversion Hh; subst. split; reflexivity.
    + discriminate.
  - reflexivity.
  - intros gap st2 q landmarks Hgap Hrun Hq Hlen.
    assert (Hptr : lastPointerRef st2 = None).
    { eapply gap_keeps_pointer_cleared; [exact Hgap| |exact Hrun]. reflexivity. }
    split.
    + intros x y. now apply velocity_without_pointer.
    + destruct Hq as [Hqready Hqhand].
      destruct (@detectFrame_publishes st2 (now q) landmarks Hlen)
        as (geo & l6 & l8 & st3 & hd & Hgeo & H6 & H8 & Hframe & Hhd & _ & Hg).
      exists geo, l6, l8, st3, hd. repeat split; try assumption.
      * unfold Gesture.detectLoop. now rewrite Hqready, Hqhand.
      * rewrite Hg, classify_policy. now rewrite velocity_without_pointer.
Qed.

(** What the published state holds follows the latest detected frame. *)
Lemma detectLoop_reads (seen : option Hand) (st st' : Tracker) (p : Poll) :
  reads seen (handData st) ->
  detectLoop st p = Some st' ->
  reads (lastDetectedFrom seen [p]) (handData st').
Proof.
  intros Hinv Hstep. unfold Gesture.detectLoop in Hstep. simpl.
  destruct (videoReady p).
  - destruct (firstHand p) as [landmarks|].
    + unfold Gesture.detectFrame in Hstep.
      destruct (geometry landmarks) as [geo|] eqn:Hgeo; [|discriminate].
      destruct (labelOf Math_sqrt st (now p) landmarks geo) as [g|];
        [|discriminate].
      destruct (publish landmarks geo g) as [hd|] eqn:Hpub; [|discriminate].
      inversion Hstep; subst; simpl.
      exists geo, g, hd. repeat split; try assumption. now left.
    + inversion Hstep; subst; simpl.
      destruct seen as [landmarks|]; simpl in *.
      * destruct Hinv as (geo & g & hd & Hgeo & Hpub & [H|H]);
          exists geo, g, hd; rewrite H; simpl; repeat split; auto.
      * now rewrite Hinv.
  - now inversion Hstep; subst.
Qed.

Lemma run_reads (polls : list Poll) (seen : option Hand) (st st' : Tracker) :
  reads seen (handData st) ->
  run st polls = Some st' ->
  reads (lastDetectedFrom seen polls) (handData st').
Proof.
  revert seen st. induction polls as [|p polls IH]; intros seen st Hinv Hrun.
  - simpl in *. now inversion Hrun; subst.
  - simpl in Hrun.
    destruct (detectLoop st p) as [st1|] eqn:Hstep; [|discriminate].
    pose proof (@detectLoop_reads seen st st1 p Hinv Hstep) as Hinv1.
    simpl in Hinv1. simpl. exact (IH _ st1 Hinv1 Hrun).
Qed.

(** C10. After any run of the loop from its initial state, a poll on which
    the detector finds no hand leaves the state absent when no hand was ever
    detected; otherwise it publishes the previous state with only [detected]
    set to false and the label set to IDLE, and its position, palm centre,
    pointer, rotation and pinch distance are those published for the latest
    detected frame. *)
Theorem detection_loss_frame (trace : list Poll) (st : Tracker) (p : Poll) :
  run initial trace = Some st ->
  noHand p ->
  exists st',
    detectLoop st p = Some st' /\
    handData st' = option_map lost (handData st) /\
    match lastDetected trace with
    | None => handData st = None /\ handData st' = None
    | Some landmarks =>
        exists geo g hd prev h',
          geometry landmarks = Some geo /\
          publish landmarks geo g = Some hd /\
          handData st = Some prev /\
          handData st' = Some h' /\
          detected h' = false /\
          gesture h' = IDLE /\
          position h' = position prev /\
          palmCenter h' = palmCenter prev /\
          pointer h' = pointer prev /\
          rotation h' = rotation prev /\
          pinchDistance h' = pinchDistance prev /\
          position h' = position hd /\
          palmCenter h' = palmCenter hd /\
          pointer h' = pointer hd /\
          rotation h' = rotation hd /\
          pinchDistance h' = pinchDistance hd
    end.
Proof.
  intros Hrun [Hready Hnone].
  eexists. split; [|split].
  - unfold Gesture.detectLoop. rewrite Hready, Hnone. reflexivity.
  - reflexivity.
  - assert (Hinv : reads (lastDetected trace) (handData st)).
    { apply (@run_reads trace None initial st); [reflexivity|exact Hrun]. }
    simpl. destruct (lastDetected trace) as [landmarks|]; simpl in Hinv.
    + destruct Hinv as (geo & g & hd & Hgeo & Hpub & [H|H]); rewrite H;
        exists geo, g, hd; eexists; eexists;
        repeat split; try eassumption; reflexivity.
    + rewrite Hinv. split; reflexivity.
Qed.

End GestureFacts.

Section GestureExamples.
Import JS Gesture.
Open Scope Q_scope.

(** The open hand is OPEN; with the index tip on the thumb tip it is PINCH,
    although three fingers are still extended. *)
Example open_hand_is_open :
  option_map (fun st => option_map gesture (handData st))
    (Gesture.detectLoop ex_sqrt ex_atan2 initial ex_detect_poll)
  = Some (Some OPEN).
Proof. vm_compute. reflexivity. Qed.

Example pinch_comes_first :
  option_map (fun st => option_map gesture (handData st))
    (Gesture.detectLoop ex_sqrt ex_atan2 initial
       {| videoReady := true; result := Some [ex_pinch_hand]; now := 1000 |})
  = Some (Some PINCH).
Proof. vm_compute. reflexivity. Qed.

Lemma gesture_label_priority_witness :
  exists geo l6 l8 st' hd,
    Gesture.geometry ex_sqrt ex_open_hand = Some geo /\
    nth_error ex_open_hand 6 = Some l6 /\
    nth_error ex_open_hand 8 = Some l8 /\
    Gesture.detectLoop ex_sqrt ex_atan2 initial ex_detect_poll = Some st' /\
    handData st' = Some hd /\
    detected hd = true /\
    gesture hd =
      policy (pinch geo) (extendedFingers geo) (palmNormalZ geo)
             (Gesture.pointerVelocity ex_sqrt initial (now ex_detect_poll)
                (px geo) (py geo))
             (indexExtended l6 l8).
Proof.
  apply (@gesture_label_priority ex_sqrt ex_atan2 initial ex_detect_poll ex_open_hand).
  - split; reflexivity.
  - reflexivity.
Defined.


Lemma no_hand_resets_pointer_witness :
  exists st1,
    Gesture.detectLoop ex_sqrt ex_atan2 initial ex_lost_poll = Some st1 /\
    lastPointerRef st1 = None /\
    forall x y,
      Gesture.pointerVelocity ex_sqrt st1 (now ex_redetect_poll) x y = 0.
Proof.
  destruct (@no_hand_resets_pointer ex_sqrt ex_atan2 initial ex_lost_poll)
    as (st1 & Hloop & _ & Hptr & Hnext).
  - split; reflexivity.
  - exists st1. split; [exact Hloop|]. split; [exact Hptr|].
    apply (Hnext [] st1 ex_redetect_poll ex_open_hand).
    + constructor.
    + reflexivity.
    + split; reflexivity.
    + reflexivity.
Defined.

Lemma detection_loss_frame_witness :
  exists st st',
    Gesture.run ex_sqrt ex_atan2 initial [ex_detect_poll] = Some st /\
    Gesture.detectLoop ex_sqrt ex_atan2 st ex_lost_poll = Some st' /\
    handData st' = option_map lost (handData st).
Proof.
  destruct (Gesture.run ex_sqrt ex_atan2 initial [ex_detect_poll])
    as [st|] eqn:Hrun; [|discriminate].
  destruct (@detection_loss_frame ex_sqrt ex_atan2 [ex_detect_poll] st
              ex_lost_poll Hrun) as (st' & Hloop & Hlost & _).
  - split; reflexivity.
  - exists st, st'. split; [reflexivity|]. split; assumption.
Defined.

End GestureExamples.

(** ** Particle field sampler *)

Section SamplerFacts.
Import JS.
Open Scope nat_scope.

Variable Math_sqrt : Q -> Q.
Variable Math_pow : Q -> Q -> Q.
Variable img : Sampler.Image.
Variable targetCount : nat.
Variable Math_random : nat -> Q.

Local Abbreviation body := (Sampler.body Math_sqrt Math_pow img Math_random).
Local Abbreviation continues := (Sampler.continues targetCount).
Local Abbreviation loop := (Sampler.loop Math_sqrt Math_pow img targetCount Math_random).
Local Abbreviation sample := (Sampler.sample Math_sqrt Math_pow img targetCount Math_random).
Local Abbreviation maxAttempts := (Sampler.maxAttempts targetCount).
Local Abbreviation processImageToParticles :=
  (Sampler.processImageToParticles Math_sqrt Math_pow img targetCount Math_random).

Lemma keepPixel_effect (s : Sampler.Loop) (rx ry : Z) (k : nat) :
  let s' := Sampler.keepPixel img Math_random s rx ry k in
  Sampler.attempts s' = S (Sampler.attempts s) /\
  length (Sampler.particles s) <= length (Sampler.particles s')
    <= S (length (Sampler.particles s)).
Proof.
  unfold Sampler.keepPixel.
  destruct (match Sampler.byte (Sampler.data img) _ with
            | Some alpha => (20 <? alpha)%Z | None => false end); simpl.
  - rewrite length_app. simpl. lia.
  - lia.
Qed.

(** An iteration spends one attempt and adds at most one particle. *)
Lemma body_effect (s : Sampler.Loop) :
  Sampler.attempts (body s) = S (Sampler.attempts s) /\
  length (Sampler.particles s) <= length (Sampler.particles (body s))
    <= S (length (Sampler.particles s)).
Proof.
  unfold Sampler.body.
  destruct (ltb _ _); [destruct (gtb _ _)|]; try apply keepPixel_effect.
  simpl. lia.
Qed.

(** The loop ends within the attempts that are left. *)
Lemma loop_terminated (fuel : nat) (s : Sampler.Loop) :
  maxAttempts <= Sampler.attempts s + fuel ->
  continues (loop fuel s) = false.
Proof.
  revert s. induction fuel as [|fuel IH]; intros s Hfuel; simpl.
  - unfold Sampler.continues. apply andb_false_iff. right.
    apply Nat.ltb_ge. lia.
  - destruct (continues s) eqn:Hc; [|exact Hc].
    apply IH. destruct (body_effect s) as [Ha _]. rewrite Ha. lia.
Qed.

Lemma loop_bounds (fuel : nat) (s : Sampler.Loop) :
  length (Sampler.particles s) <= targetCount ->
  Sampler.attempts s <= maxAttempts ->
  length (Sampler.particles (loop fuel s)) <= targetCount /\
  Sampler.attempts (loop fuel s) <= maxAttempts.
Proof.
  revert s. induction fuel as [|fuel IH]; intros s Hlen Hatt; simpl.
  - now split.
  - destruct (continues s) eqn:Hc; [|now split].
    unfold Sampler.continues in Hc. apply andb_true_iff in Hc.
    destruct Hc as [Hl Ha]. apply Nat.ltb_lt in Hl, Ha.
    destruct (body_effect s) as [Ha' [_ Hl']].
    apply IH; lia.
Qed.

Lemma sample_terminated : continues sample = false.
Proof.
  apply loop_terminated. simpl. lia.
Qed.


(** C2, as amended. Whatever the image, the target count and the random
    draws, the loop ends with at most [targetCount] accepted points, and
    with exactly [targetCount] unless the [200 * targetCount] attempts are
    used up; the result is the accepted points, or the single fallback
    point, at the origin and white, when none was accepted; so it holds at
    least one point and at most [max 1 targetCount]. *)
Theorem sampler_count_bounds :
  continues sample = false /\
  length (Sampler.particles sample) <= targetCount /\
  Sampler.attempts sample <= 200 * targetCount /\
  (length (Sampler.particles sample) = targetCount \/
   Sampler.attempts sample = 200 * targetCount) /\
  processImageToParticles =
    match Sampler.particles sample with
    | [] => [Sampler.fallback]
    | accepted => accepted
    end /\
  1 <= length processImageToParticles <= Nat.max 1 targetCount /\
  (Sampler.x Sampler.fallback = 0 /\ Sampler.y Sampler.fallback = 0 /\
   Sampler.z Sampler.fallback = 0 /\ Sampler.r Sampler.fallback = 1 /\
   Sampler.g Sampler.fallback = 1 /\ Sampler.b Sampler.fallback = 1)%Q.
Proof.
  pose proof sample_terminated as Hend.
  destruct (@loop_bounds maxAttempts Sampler.start) as [Hlen Hatt];
    [simpl; lia | simpl; lia |].
  fold sample in Hlen, Hatt. unfold Sampler.maxAttempts in Hatt.
  split; [exact Hend|].
  split; [exact Hlen|].
  split; [lia|].
  split.
  { unfold Sampler.continues in Hend. apply andb_false_iff in Hend.
    destruct Hend as [H|H]; apply Nat.ltb_ge in H;
      unfold Sampler.maxAttempts in *; lia. }
  assert (Hres : processImageToParticles =
                 match Sampler.particles sample with
                 | [] => [Sampler.fallback]
                 | accepted => accepted
                 end).
  { unfold Sampler.processImageToParticles.
    destruct (Sampler.particles sample); reflexivity. }
  split; [exact Hres|].
  split.
  { rewrite Hres. revert Hlen.
    destruct (Sampler.particles sample) as [|p ps]; cbn [length]; lia. }
  repeat split; reflexivity.
Qed.

End SamplerFacts.

Section SamplerExamples.
Import Sampler.
Open Scope nat_scope.

(** With a target of two points an opaque image yields two, a transparent
    one yields the fallback point alone. *)
Example sampler_white_two :
  length (processImageToParticles ex_sqrt ex_pow ex_white 2 ex_random) = 2.
Proof. vm_compute. reflexivity. Qed.

Example sampler_transparent_fallback :
  processImageToParticles ex_sqrt ex_pow ex_transparent 2 ex_random = [fallback]
  /\ attempts (sample ex_sqrt ex_pow ex_transparent 2 ex_random) = 400.
Proof. vm_compute. split; reflexivity. Qed.

(** C2 as stated fails for a target of zero points: the loop accepts
    nothing and the fallback point makes the result longer than the target. *)
Lemma sampler_at_most_target_fails :
  length (processImageToParticles ex_sqrt ex_pow ex_white 0 ex_random) = 1
  /\ ~ (length (processImageToParticles ex_sqrt ex_pow ex_white 0 ex_random)
        <= 0).
Proof.
  split.
  - reflexivity.
  - vm_compute. intro H. inversion H.
Qed.

End SamplerExamples.

(** ** Text glyph particles *)

Section TextParticleFacts.
Import JS TextParticles TextParticleData.
Open Scope nat_scope.

Variable Math_sin : Q -> Q.
Variable Math_cos : Q -> Q.
Variable Math_sqrt : Q -> Q.
Variable Math_PI : Q.
Variable idString : Q -> nat -> Z -> jsstring.

Local Abbreviation tickParticle := (tickParticle Math_sin Math_cos Math_sqrt).
Local Abbreviation tickEntry := (tickEntry Math_sin Math_cos Math_sqrt).
Local Abbreviation tick := (tick Math_sin Math_cos Math_sqrt).
Local Abbreviation newParticleObjs := (newParticleObjs Math_sin Math_cos Math_PI idString).
Local Abbreviation spawnBatch := (spawnBatch Math_sin Math_cos Math_PI idString).
Local Abbreviation effect := (effect Math_sin Math_cos Math_PI idString).
Local Abbreviation step := (step Math_sin Math_cos Math_sqrt Math_PI idString).
Local Abbreviation steps := (steps Math_sin Math_cos Math_sqrt Math_PI idString).

(** A tick keeps the phase of a particle or moves it one step on. *)
Lemma tickParticle_phase (f : Frame) (p : TextParticle) (m : Mesh) :
  let p' := fst (tickParticle f p m) in
  phase p' = phase p \/
  (phase p = spawn /\ phase p' = fly) \/
  (phase p = fly /\ phase p' = dock).
Proof.
  unfold TextParticles.tickParticle.
  destruct (phase p) eqn:Hph; simpl.
  - unfold tickSpawn; simpl.
    destruct (morphTime p <=? TextParticles.now f)%Z; simpl; auto.
  - now left.
  - destruct (geb _ 1 || _)%bool; simpl; auto.
  - now left.
Qed.

Lemma tickParticle_rank (f : Frame) (p : TextParticle) (m : Mesh) :
  rank (phase p) <= rank (phase (fst (tickParticle f p m))).
Proof.
  destruct (tickParticle_phase f p m) as [H|[[H1 H2]|[H1 H2]]];
    rewrite ?H, ?H1, ?H2; simpl; lia.
Qed.

Lemma advanced_refl (h : list TextParticle) : advanced h h.
Proof. intros ref p H. exists p. split; [exact H|lia]. Qed.

Lemma advanced_trans (h1 h2 h3 : list TextParticle) :
  advanced h1 h2 -> advanced h2 h3 -> advanced h1 h3.
Proof.
  intros H12 H23 ref p H.
  destruct (H12 ref p H) as [p2 [H2 Hle2]].
  destruct (H23 ref p2 H2) as [p3 [H3 Hle3]].
  exists p3. split; [exact H3|lia].
Qed.

Lemma advanced_app (h batch : list TextParticle) : advanced h (h ++ batch).
Proof.
  intros ref p H. exists p. split; [|lia].
  rewrite nth_error_app1; [exact H|].
  apply nth_error_Some. congruence.
Qed.

Lemma store_same (h : list TextParticle) (ref : nat) (p q : TextParticle) :
  nth_error h ref = Some q -> nth_error (store h ref p) ref = Some p.
Proof.
  revert ref. induction h as [|a h IH]; intros [|ref] H; simpl in *;
    try discriminate; auto.
Qed.

Lemma store_other (h : list TextParticle) (ref r : nat) (p : TextParticle) :
  r <> ref -> nth_error (store h ref p) r = nth_error h r.
Proof.
  revert ref r. induction h as [|a h IH]; intros [|ref] [|r] H; simpl;
    try reflexivity; try congruence.
  apply IH. congruence.
Qed.

Lemma tickEntry_advanced (f : Frame) (s : System) (entry : jsstring * nat) :
  advanced (heap s) (heap (tickEntry f s entry)).
Proof.
  destruct entry as [key ref]. unfold TextParticles.tickEntry.
  destruct (nth_error (heap s) ref) as [p|] eqn:Hp; [|apply advanced_refl].
  destruct (map_get (textRefs s) key) as [m|]; [|apply advanced_refl].
  pose proof (tickParticle_rank f p m) as Hrank.
  destruct (tickParticle f p m) as [p' m']. simpl in *.
  intros r q Hq. destruct (Nat.eq_dec r ref) as [->|Hne].
  - exists p'. split; [now apply store_same with (q := p)|].
    rewrite Hp in Hq. inversion Hq; subst. exact Hrank.
  - exists q. rewrite store_other by exact Hne. split; [exact Hq|lia].
Qed.

Lemma tick_advanced (f : Frame) (s : System) :
  advanced (heap s) (heap (tick f s)).
Proof.
  unfold TextParticles.tick. destruct (readingMode f); [apply advanced_refl|].
  generalize (physicsStateRef s) as entries. intro entries. revert s.
  induction entries as [|e entries IH]; intro s; simpl.
  - apply advanced_refl.
  - eapply advanced_trans; [apply tickEntry_advanced|apply IH].
Qed.

(** The spawn logic only adds objects to the heap. *)
Lemma effect_heap (s : System) (transcript : jsstring) (sceneVersion now : Z)
    (Math_random : nat -> Q) :
  heap (fst (effect s transcript sceneVersion now Math_random))
  = heap s ++ snd (effect s transcript sceneVersion now Math_random).
Proof.
  unfold TextParticles.effect.
  set (isReset := negb (sceneVersion =? lastSceneVersionRef s)%Z).
  set (isRestoring := (isReset && (0 <? length transcript))%bool).
  set (s1 := if (isReset && negb isRestoring)%bool
             then hardReset s sceneVersion else s).
  assert (H1 : heap s1 = heap s).
  { unfold s1. destruct (isReset && negb isRestoring)%bool; reflexivity. }
  destruct transcript as [|c transcript].
  - simpl. now rewrite app_nil_r.
  - set (s2 := if (isRestoring && negb (initialSpawnRef s1))%bool
               then set_tracking s1 [] (lastSceneVersionRef s1) true else s1).
    assert (H2 : heap s2 = heap s).
    { unfold s2. destruct (isRestoring && negb (initialSpawnRef s1))%bool;
        simpl; exact H1. }
    destruct (0 <? length (newPartOf isReset isRestoring (c :: transcript)
                             (lastTranscriptRef s2))).
    + unfold TextParticles.spawnBatch.
      destruct (MAX_CHARS <? _); simpl; now rewrite H2.
    + simpl. now rewrite app_nil_r.
Qed.

Lemma step_advanced (s : System) (e : Event) :
  advanced (heap s) (heap (step s e)).
Proof.
  destruct e as [f|transcript v t rnd|key m|key]; simpl.
  - apply tick_advanced.
  - rewrite effect_heap. apply advanced_app.
  - apply advanced_refl.
  - apply advanced_refl.
Qed.

Lemma steps_advanced (events : list Event) (s : System) :
  advanced (heap s) (heap (steps s events)).
Proof.
  revert s. induction events as [|e events IH]; intro s; simpl.
  - apply advanced_refl.
  - eapply advanced_trans; [apply step_advanced|apply IH].
Qed.

(** C3. A physics tick keeps the phase of a glyph particle or advances it
    from spawn to fly or from fly to dock; and over every sequence of
    ticks, prop changes and mesh attachments, every particle object stays in
    place with a phase that never regresses: one in dock stays in dock, and
    one in fly never returns to spawn. *)
Theorem glyph_phase_monotonic (events : list Event) (s : System) (ref : nat)
    (p : TextParticle) :
  nth_error (heap s) ref = Some p ->
  (forall f m,
      let q := fst (tickParticle f p m) in
      phase q = phase p \/
      (phase p = spawn /\ phase q = fly) \/
      (phase p = fly /\ phase q = dock)) /\
  exists p',
    nth_error (heap (steps s events)) ref = Some p' /\
    rank (phase p) <= rank (phase p') /\
    (phase p = dock -> phase p' = dock) /\
    (phase p = fly -> phase p' = fly \/ phase p' = dock).
Proof.
  intro Hp. split.
  - intros f m. apply tickParticle_phase.
  - destruct (@steps_advanced events s ref p Hp) as [p' [Hp' Hle]].
    exists p'. split; [exact Hp'|]. split; [exact Hle|].
    split; intro Hph; rewrite Hph in Hle;
      destruct (phase p'); simpl in Hle; auto; lia.
Qed.


(** The batch made for a text carries its characters, in order, all in the
    spawn phase. *)
Lemma newParticleObjs_chars (isRestoring : bool) (total count : nat) (t : Z)
    (Math_random : nat -> Q) (i : nat) (newChars : jsstring) :
  map char (newParticleObjs isRestoring total count t Math_random i newChars)
  = newChars /\
  Forall (fun p => phase p = spawn)
    (newParticleObjs isRestoring total count t Math_random i newChars).
Proof.
  revert i. induction newChars as [|c rest IH]; intro i; simpl.
  - split; [reflexivity|constructor].
  - destruct (IH (S i)) as [Hc Hs]. split.
    + now rewrite Hc.
    + constructor; [reflexivity|exact Hs].
Qed.

Lemma spawnBatch_batch (s : System) (isRestoring : bool) (t : Z)
    (Math_random : nat -> Q) (newPart : jsstring) :
  snd (spawnBatch s isRestoring t Math_random newPart)
  = newParticleObjs isRestoring (totalCharCountRef s) (length newPart) t
      Math_random 0 newPart
  /\ lastTranscriptRef (fst (spawnBatch s isRestoring t Math_random newPart))
     = lastTranscriptRef s.
Proof.
  unfold TextParticles.spawnBatch. destruct (MAX_CHARS <? _); split; reflexivity.
Qed.

(** The effect records every non-empty transcript it processes, whatever
    the scene version: the recorded text is the latest such transcript. *)
Lemma effect_records_transcript (s : System) (transcript : jsstring)
    (sceneVersion t : Z) (Math_random : nat -> Q) :
  transcript <> [] ->
  let after := fst (effect s transcript sceneVersion t Math_random) in
  lastTranscriptRef after = transcript /\
  lastSceneVersionRef after = sceneVersion.
Proof.
  intro Hne. destruct transcript as [|c transcript]; [congruence|].
  unfold TextParticles.effect.
  set (isReset := negb (sceneVersion =? lastSceneVersionRef s)%Z).
  assert (His : (isReset && (0 <? length (c :: transcript)))%bool = isReset).
  { simpl. apply andb_true_r. }
  rewrite His. rewrite andb_negb_r.
  set (s2 := if (isReset && negb (initialSpawnRef s))%bool
             then set_tracking s [] (lastSceneVersionRef s) true else s).
  assert (Hv : lastSceneVersionRef s2 = lastSceneVersionRef s).
  { unfold s2. destruct (isReset && negb (initialSpawnRef s))%bool; reflexivity. }
  set (newPart := newPartOf isReset isReset (c :: transcript) (lastTranscriptRef s2)).
  assert (Hspawn : forall r,
             r = (if 0 <? length newPart
                  then spawnBatch s2 isReset t Math_random newPart
                  else (s2, [])) ->
             lastSceneVersionRef (fst r) = lastSceneVersionRef s).
  { intros r ->. destruct (0 <? length newPart); [|exact Hv].
    unfold TextParticles.spawnBatch. destruct (MAX_CHARS <? _); exact Hv. }
  specialize (Hspawn _ eq_refl).
  destruct (if 0 <? length newPart
            then spawnBatch s2 isReset t Math_random newPart
            else (s2, [])) as [s3 batch].
  simpl in *. split; [reflexivity|].
  unfold isReset. destruct (sceneVersion =? lastSceneVersionRef s)%Z eqn:E; simpl.
  - apply Z.eqb_eq in E. congruence.
  - reflexivity.
Qed.

End TextParticleFacts.

Section TextParticleExamples.
Import JS TextParticles.
Open Scope nat_scope.

Local Abbreviation ex_effect := (effect ex_sin ex_cos ex_PI ex_idString).
Local Abbreviation ex_steps := (steps ex_sin ex_cos ex_sqrt ex_PI ex_idString).

Example glyph_reaches_dock :
  option_map phase (nth_error (heap (ex_steps ex_after_hello ex_events)) 0)
  = Some dock.
Proof. vm_compute. reflexivity. Qed.

Lemma glyph_phase_monotonic_witness :
  exists p p',
    nth_error (heap ex_after_hello) 0 = Some p /\
    nth_error (heap (ex_steps ex_after_hello ex_events)) 0 = Some p' /\
    rank (phase p) <= rank (phase p').
Proof.
  destruct (nth_error (heap ex_after_hello) 0) as [p|] eqn:Hp; [|discriminate].
  destruct (@glyph_phase_monotonic ex_sin ex_cos ex_sqrt ex_PI ex_idString
              ex_events ex_after_hello 0 p Hp) as (_ & p' & Hp' & Hle & _).
  exists p, p'. split; [reflexivity|]. split; [exact Hp'|exact Hle].
Defined.

End TextParticleExamples.

(** ** Memory search *)

Lemma StronglySorted_weaken (A : Type) (R R' : A -> A -> Prop) (l : list A) :
  (forall a b, R a b -> R' a b) -> StronglySorted R l -> StronglySorted R' l.
Proof.
  intros Himp. induction 1 as [|a l _ IH Hall]; constructor.
  - exact IH.
  - eapply Forall_impl; [|exact Hall]. intros b. apply Himp.
Qed.

Lemma StronglySorted_weaken_in (A : Type) (R R' : A -> A -> Prop) (l : list A) :
  (forall a b, In a l -> In b l -> R a b -> R' a b) ->
  StronglySorted R l -> StronglySorted R' l.
Proof.
  intros Himp Hs. induction Hs as [|a l _ IH Hall]; constructor.
  - apply IH. intros x y Hx Hy. apply Himp; now right.
  - apply Forall_forall. intros b Hb. apply Himp; [now left|now right|].
    rewrite Forall_forall in Hall. now apply Hall.
Qed.

Section SortFacts.
Import Search.
Open Scope Q_scope.

Variable A : Type.
Variable compare : A -> A -> Q.

Let before (a b : A) : Prop := compare a b <= 0.

Hypothesis before_total : forall a b, before a b \/ before b a.
Hypothesis before_trans : forall a b c, before a b -> before b c -> before a c.

Lemma insert_perm (a : A) (l : list A) : Permutation (a :: l) (insert compare a l).
Proof.
  induction l as [|b l IH]; simpl.
  - apply Permutation_refl.
  - destruct (Qle_bool (compare a b) 0).
    + apply Permutation_refl.
    + eapply Permutation_trans; [apply perm_swap|].
      now apply perm_skip.
Qed.

Lemma sort_perm (l : list A) : Permutation l (sort compare l).
Proof.
  induction l as [|a l IH]; simpl.
  - apply Permutation_refl.
  - eapply Permutation_trans; [|apply insert_perm]. now apply perm_skip.
Qed.

Lemma insert_sorted (a : A) (l : list A) :
  StronglySorted before l -> StronglySorted before (insert compare a l).
Proof.
  induction 1 as [|b l Hsorted IH Hall]; simpl.
  - repeat constructor.
  - destruct (Qle_bool (compare a b) 0) eqn:E.
    + apply Qle_bool_iff in E. constructor.
      * now constructor.
      * constructor; [exact E|].
        eapply Forall_impl; [|exact Hall].
        intros c Hc. exact (before_trans E Hc).
    + constructor; [exact IH|].
      assert (Hba : before b a).
      { destruct (before_total a b) as [H|H]; [|exact H].
        apply Qle_bool_iff in H. unfold before in *. congruence. }
      eapply Permutation_Forall; [apply insert_perm|].
      now constructor.
Qed.

Lemma sort_sorted (l : list A) : StronglySorted before (sort compare l).
Proof.
  induction l as [|a l IH]; simpl.
  - constructor.
  - now apply insert_sorted.
Qed.

End SortFacts.

Section SearchFacts.
Import JS Search.
Open Scope Q_scope.

Variable toLowerCase : jsstring -> jsstring.

Local Abbreviation keywordsOf := (keywordsOf toLowerCase).
Local Abbreviation hitsOf := (hitsOf toLowerCase).
Local Abbreviation scoreMemory := (scoreMemory toLowerCase).
Local Abbreviation processedMemories := (processedMemories toLowerCase).
Local Abbreviation normalize := (normalize toLowerCase).

Lemma inject_Z_nonpos (v : Z) : inject_Z v <= 0 <-> (v <= 0)%Z.
Proof. change 0 with (inject_Z 0). now rewrite <- Zle_Qle. Qed.

Lemma byRecency_before (a b : MemoryPackage) :
  byRecency a b <= 0 <-> (timestamp b <= timestamp a)%Z.
Proof. unfold byRecency. rewrite inject_Z_nonpos. lia. Qed.

Lemma byScore_before (a b : MemoryPackage) :
  byScore a b <= 0 <->
  ((0 < scoreOf b \/ 0 < scoreOf a) /\ scoreOf b <= scoreOf a) \/
  (scoreOf b <= 0 /\ scoreOf a <= 0 /\ (timestamp b <= timestamp a)%Z).
Proof.
  unfold byScore, gtb.
  destruct (ltb 0 (scoreOf b)) eqn:Hb; destruct (ltb 0 (scoreOf a)) eqn:Ha;
    simpl;
    try apply ltb_lt in Hb; try apply ltb_lt in Ha;
    try apply ltb_ge in Hb; try apply ltb_ge in Ha;
    rewrite ?inject_Z_nonpos; split; intro H;
    try (left; split; [solve [auto]|lra]);
    try (destruct H as [[_ H]|[H1 [H2 _]]]; lra).
  - right. repeat split; try assumption. lia.
  - destruct H as [[[H|H] _]|[_ [_ H]]]; try lra. lia.
Qed.

Lemma byRecency_sorted (l : list MemoryPackage) :
  byRecencyDescending (sort byRecency l).
Proof.
  unfold byRecencyDescending.
  eapply StronglySorted_weaken; [|apply sort_sorted].
  - intros a b H. apply byRecency_before. exact H.
  - intros a b. destruct (Z.le_ge_cases (timestamp b) (timestamp a)) as [H|H];
      [left|right]; now apply byRecency_before.
  - intros a b c Hab Hbc. apply byRecency_before in Hab, Hbc.
    apply byRecency_before. lia.
Qed.


Ltac order_cases a b :=
  destruct (Qlt_le_dec 0 (scoreOf a)); destruct (Qlt_le_dec 0 (scoreOf b));
  destruct (Qlt_le_dec (scoreOf a) (scoreOf b));
  destruct (Z.le_ge_cases (timestamp a) (timestamp b)).

Lemma byScore_total (a b : MemoryPackage) :
  byScore a b <= 0 \/ byScore b a <= 0.
Proof.
  rewrite !byScore_before.
  order_cases a b;
    first [ left; left; split; [solve [auto]|lra]
          | right; left; split; [solve [auto]|lra]
          | left; right; repeat split; (lra || lia)
          | right; right; repeat split; (lra || lia) ].
Qed.

Lemma byScore_trans (a b c : MemoryPackage) :
  byScore a b <= 0 -> byScore b c <= 0 -> byScore a c <= 0.
Proof.
  rewrite !byScore_before.
  intros [[Hf1 H1]|[H1 [H1' T1]]] [[Hf2 H2]|[H2 [H2' T2]]].
  - destruct (Qlt_le_dec 0 (scoreOf c)); destruct (Qlt_le_dec 0 (scoreOf a));
      first [ left; split; [solve [auto]|lra] | destruct Hf1, Hf2; lra ].
  - destruct (Qlt_le_dec 0 (scoreOf a));
      [ left; split; [solve [auto]|lra] | destruct Hf1; lra ].
  - destruct Hf2; lra.
  - right. repeat split; (lra || lia).
Qed.

(** The score given to a memory is the ramp of the specification. *)
Lemma scoreMemory_ramp (keywords : list jsstring) (memory : MemoryPackage) :
  let scored := scoreMemory keywords memory in
  let hits := hitsOf keywords memory in
  matchScore scored = Some (scoreOf scored) /\
  scoreOf scored == rampScore hits (length keywords) /\
  0 <= scoreOf scored <= 1 /\
  (hits = 0%nat -> scoreOf scored == 0) /\
  (0 < scoreOf scored <-> (0 < hits)%nat).
Proof.
  intros scored hits. unfold scored, Search.scoreMemory, scoreOf, rampScore.
  fold hits. cbn [matchScore withScore].
  set (k := inject_Z (Z.of_nat (length keywords))).
  assert (Hden : Qmax 1 (k * 0.5) == Qmax 1 (0.5 * k)).
  { apply Q.max_compat; [reflexivity|apply Qmult_comm]. }
  assert (Hpos : 0 < Qmax 1 (0.5 * k)).
  { apply Qlt_le_trans with 1; [reflexivity|apply Q.le_max_l]. }
  assert (Hh : 0 <= inject_Z (Z.of_nat hits)).
  { change 0 with (inject_Z 0). rewrite <- Zle_Qle. lia. }
  assert (Hq : 0 <= inject_Z (Z.of_nat hits) / Qmax 1 (0.5 * k)).
  { apply Qle_shift_div_l; [exact Hpos|]. now rewrite Qmult_0_l. }
  split; [reflexivity|].
  destruct (0 <? hits)%nat eqn:E.
  - apply Nat.ltb_lt in E.
    assert (Heq : Qmin (inject_Z (Z.of_nat hits) / Qmax 1 (k * 0.5)) 1.0
                  == Qmin 1 (inject_Z (Z.of_nat hits) / Qmax 1 (0.5 * k))).
    { rewrite Q.min_comm. apply Q.min_compat; [reflexivity|].
      now rewrite Hden. }
    assert (Hstrict : 0 < inject_Z (Z.of_nat hits) / Qmax 1 (0.5 * k)).
    { apply Qlt_shift_div_l; [exact Hpos|]. rewrite Qmult_0_l.
      change 0 with (inject_Z 0). rewrite <- Zlt_Qlt. lia. }
    split; [exact Heq|]. rewrite Heq.
    split; [split; [apply Q.min_glb; [discriminate|exact Hq]|apply Q.le_min_l]|].
    split; [intro; lia|].
    split; [intros _; exact E|intros _].
    apply Q.min_glb_lt; [reflexivity|exact Hstrict].
  - apply Nat.ltb_ge in E. assert (hits = 0%nat) as -> by lia. simpl.
    assert (Hz : Qmin 1 (0 / Qmax 1 (0.5 * k)) == 0).
    { rewrite Q.min_r; [reflexivity|].
      setoid_replace (0 / Qmax 1 (0.5 * k)) with 0 by reflexivity.
      discriminate. }
    split; [symmetry; exact Hz|].
    split; [split; discriminate|].
    split; [reflexivity|].
    split; intro H; [inversion H|lia].
Qed.

Lemma byScore_sorted (l : list MemoryPackage) :
  Forall (fun m => 0 <= scoreOf m) l ->
  byScoreDescending (sort byScore l) /\
  ((forall m, In m l -> ~ 0 < scoreOf m) -> byRecencyDescending (sort byScore l)).
Proof.
  intro Hnonneg.
  assert (Hs : StronglySorted (fun a b => byScore a b <= 0) (sort byScore l)).
  { apply sort_sorted; [apply byScore_total|apply byScore_trans]. }
  assert (Hin : forall m, In m (sort byScore l) -> In m l).
  { intros m Hm. eapply Permutation_in; [|exact Hm].
    apply Permutation_sym, sort_perm. }
  rewrite Forall_forall in Hnonneg.
  split.
  - eapply StronglySorted_weaken_in; [|exact Hs].
    intros a b Ha Hb H. apply byScore_before in H.
    destruct H as [[_ H]|[H1 [H2 _]]]; [exact H|].
    pose proof (Hnonneg a (Hin a Ha)). lra.
  - intro Hzero. eapply StronglySorted_weaken_in; [|exact Hs].
    intros a b Ha Hb H. apply byScore_before in H.
    destruct H as [[[H|H] _]|[_ [_ H]]]; [| |exact H].
    + exfalso. exact (Hzero b (Hin b Hb) H).
    + exfalso. exact (Hzero a (Hin a Ha) H).
Qed.


Lemma withScore_forget (m : MemoryPackage) (a b : Q) :
  withScore (withScore m a) b = withScore m b.
Proof. reflexivity. Qed.

Lemma noSearch_reset (savedMemories : list MemoryPackage) :
  Permutation (noSearch savedMemories)
    (map (fun m => withScore m 0) savedMemories) /\
  Forall (fun m => matchScore m = Some 0) (noSearch savedMemories) /\
  byRecencyDescending (noSearch savedMemories) /\
  byScoreDescending (noSearch savedMemories).
Proof.
  assert (Hperm : Permutation (noSearch savedMemories)
                    (map (fun m => withScore m 0) savedMemories)).
  { apply Permutation_sym, sort_perm. }
  assert (Hzero : Forall (fun m => matchScore m = Some 0) (noSearch savedMemories)).
  { eapply Permutation_Forall; [apply Permutation_sym; exact Hperm|].
    apply Forall_forall. intros m Hm. apply in_map_iff in Hm.
    destruct Hm as [m0 [<- _]]. reflexivity. }
  split; [exact Hperm|]. split; [exact Hzero|].
  split; [apply byRecency_sorted|].
  assert (Hs : forall l, Forall (fun m => matchScore m = Some 0) l ->
               byScoreDescending l).
  { induction 1 as [|m l Hm Hl IH]; constructor; [exact IH|].
    eapply Forall_impl; [|exact Hl]. intros b Hb. unfold scoreOf.
    rewrite Hm, Hb. discriminate. }
  now apply Hs.
Qed.

Lemma filter_none (A : Type) (f : A -> bool) (l : list A) :
  (forall a, In a l -> f a = false) -> filter f l = [].
Proof.
  induction l as [|a l IH]; intro H; simpl; [reflexivity|].
  rewrite (H a) by now left. apply IH. intros b Hb. apply H. now right.
Qed.

(** Without CJK characters, a query made of stop words has no keyword. *)
Lemma stop_words_no_keyword (searchQuery : jsstring) :
  existsb isChinese (normalize searchQuery) = false ->
  allStopWords (normalize searchQuery) ->
  keywordsOf searchQuery = [].
Proof.
  intros Hcjk Hstop. unfold Search.keywordsOf. rewrite Hcjk.
  unfold words. rewrite filter_none; [reflexivity|].
  intros w Hw. destruct (Hstop w Hw) as [->|Hin]; [reflexivity|].
  rewrite Hin. apply andb_false_r.
Qed.

Lemma hitsOf_scored (keywords kw : list jsstring) (m : MemoryPackage) :
  hitsOf keywords (scoreMemory kw m) = hitsOf keywords m.
Proof. reflexivity. Qed.

(** [includes] finds a word exactly when the text is some text, the word,
    and some text. *)
Lemma includes_occurs (text word : jsstring) :
  includes text word = true <-> SearchData.occursIn word text.
Proof.
  unfold SearchData.occursIn. induction text as [|a text IH].
  - simpl. rewrite orb_false_r. split.
    + intro H. exists [], []. destruct word; [reflexivity|discriminate].
    + intros (before & after & H). symmetry in H.
      apply app_eq_nil in H. destruct H as [_ H].
      apply app_eq_nil in H. destruct H as [-> _]. reflexivity.
  - cbn [includes]. rewrite orb_true_iff, IH. split.
    + intros [H|(before & after & ->)].
      * exists [], (skipn (length word) (a :: text)).
        now apply startsWith_split.
      * now exists (a :: before), after.
    + intros (before & after & H). destruct before as [|b before].
      * left. simpl in H. rewrite H. apply startsWith_app.
      * right. simpl in H. inversion H. now exists before, after.
Qed.

(** Counting with a test that decides the property. *)
Lemma countOf_filter (P : jsstring -> Prop) (f : jsstring -> bool)
    (words : list jsstring) :
  (forall word, f word = true <-> P word) ->
  SearchData.countOf P words (length (filter f words)).
Proof.
  intro Hf. induction words as [|word words IH]; simpl.
  - constructor.
  - destruct (f word) eqn:E; simpl.
    + apply SearchData.countOf_hit; [now apply Hf|exact IH].
    + apply SearchData.countOf_miss; [|exact IH].
      intro H. apply Hf in H. congruence.
Qed.

(** The count is determined by the words and the property. *)
Lemma countOf_unique (P : jsstring -> Prop) (words : list jsstring)
    (n m : nat) :
  SearchData.countOf P words n -> SearchData.countOf P words m -> n = m.
Proof.
  intro Hn. revert m. induction Hn; intros m Hm; inversion Hm; subst;
    try reflexivity; try tauto.
  - f_equal. now apply IHHn.
  - now apply IHHn.
Qed.

(** The hits of the code are the keywords that occur in the lower-cased
    transcript, a space and the sentiment label. *)
Lemma hitsOf_counts (keywords : list jsstring) (memory : MemoryPackage) :
  SearchData.countOf
    (fun word =>
       SearchData.occursIn word
         (toLowerCase (transcriptSnapshot memory ++ of_ascii " "
                       ++ sentimentString (sentiment memory))))
    keywords (hitsOf keywords memory).
Proof.
  unfold Search.hitsOf, contentOf. apply countOf_filter.
  intro word. apply includes_occurs.
Qed.

(** C5. In the palace view with a non-empty query whose keyword set is not
    empty, the returned list is the scored memories in some order, and the
    match score of each is [min(1, hits / max(1, 0.5 * keywordCount))],
    where [hits] is the number of keywords that occur as a substring of
    the lower-cased text made of the transcript, a space and the sentiment
    label (the keywords are taken from the lower-cased query); so every
    score lies in [0, 1] and is 0 when no keyword hits. *)
Theorem memory_match_score (transcript finalizedTranscript : jsstring)
    (savedMemories : list MemoryPackage) :
  let searchQuery := searchQueryOf transcript finalizedTranscript in
  let keywords := keywordsOf searchQuery in
  searchQuery <> [] ->
  keywords <> [] ->
  let result := processedMemories PALACE transcript finalizedTranscript
                  savedMemories in
  Permutation result (map (scoreMemory keywords) savedMemories) /\
  Permutation (map (fun m => withScore m 0) result)
    (map (fun m => withScore m 0) savedMemories) /\
  forall m, In m result ->
    let content :=
      toLowerCase (transcriptSnapshot m ++ of_ascii " "
                   ++ sentimentString (sentiment m)) in
    exists hits,
      SearchData.countOf (fun word => SearchData.occursIn word content)
        keywords hits /\
      hitsOf keywords m = hits /\
      matchScore m = Some (scoreOf m) /\
      scoreOf m == rampScore hits (length keywords) /\
      0 <= scoreOf m <= 1 /\
      (hits = 0%nat -> scoreOf m == 0).
Proof.
  intros searchQuery keywords Hquery Hkeywords result.
  assert (Hresult : result = sort byScore (map (scoreMemory keywords) savedMemories)).
  { unfold result, Search.processedMemories. fold searchQuery.
    destruct searchQuery as [|c q] eqn:Eq; [congruence|].
    fold keywords. destruct keywords; [congruence|reflexivity]. }
  assert (Hperm : Permutation result (map (scoreMemory keywords) savedMemories)).
  { rewrite Hresult. apply Permutation_sym, sort_perm. }
  split; [exact Hperm|]. split.
  { rewrite (Permutation_map (fun m => withScore m 0) Hperm), map_map.
    apply Permutation_refl. }
  intros m Hm content. apply (Permutation_in _ Hperm) in Hm.
  apply in_map_iff in Hm. destruct Hm as [m0 [<- _]].
  destruct (scoreMemory_ramp keywords m0) as (H1 & H2 & H3 & H4 & _).
  exists (hitsOf keywords (scoreMemory keywords m0)).
  split; [apply hitsOf_counts|]. split; [reflexivity|].
  rewrite hitsOf_scored. repeat split; try assumption; apply H3.
Qed.

(** C6, as amended. The returned list holds every saved memory and is
    always in descending order of match score; when no memory has a positive
    score it is in descending order of timestamp; in the live view, with an
    empty query, or with a query that yields no keyword, every score is 0
    and the order is descending timestamp; and a query without CJK
    characters whose words are all stop words yields no keyword. *)
Theorem memories_ordering (viewMode : ViewMode)
    (transcript finalizedTranscript : jsstring)
    (savedMemories : list MemoryPackage) :
  let searchQuery := searchQueryOf transcript finalizedTranscript in
  let result := processedMemories viewMode transcript finalizedTranscript
                  savedMemories in
  Permutation (map (fun m => withScore m 0) result)
              (map (fun m => withScore m 0) savedMemories) /\
  byScoreDescending result /\
  ((forall m, In m result -> ~ 0 < scoreOf m) -> byRecencyDescending result) /\
  (viewMode = LIVE \/ searchQuery = [] \/ keywordsOf searchQuery = [] ->
   Forall (fun m => matchScore m = Some 0) result /\
   byRecencyDescending result) /\
  (existsb isChinese (normalize searchQuery) = false ->
   allStopWords (normalize searchQuery) ->
   keywordsOf searchQuery = []).
Proof.
  intros searchQuery result.
  assert (Hcases :
    result = noSearch savedMemories \/
    (viewMode = PALACE /\ searchQuery <> [] /\ keywordsOf searchQuery <> [] /\
     result = sort byScore (map (scoreMemory (keywordsOf searchQuery))
                              savedMemories))).
  { unfold result, Search.processedMemories. fold searchQuery.
    destruct viewMode; [now left|].
    destruct searchQuery as [|c q]; [now left|].
    destruct (keywordsOf (c :: q)) eqn:Ek; [now left|].
    right. repeat split; congruence. }
  destruct Hcases as [Hres|(Hview & Hquery & Hkw & Hres)]; rewrite Hres.
  - destruct (noSearch_reset savedMemories) as (Hperm & Hzero & Hrec & Hscore).
    split.
    { eapply Permutation_trans; [apply Permutation_map; exact Hperm|].
      rewrite map_map. apply Permutation_refl. }
    split; [exact Hscore|].
    split; [intros _; exact Hrec|].
    split; [intros _; now split|].
    apply stop_words_no_keyword.
  - set (scored := map (scoreMemory (keywordsOf searchQuery)) savedMemories).
    assert (Hnonneg : Forall (fun m => 0 <= scoreOf m) scored).
    { apply Forall_forall. intros m Hm. apply in_map_iff in Hm.
      destruct Hm as [m0 [<- _]].
      destruct (scoreMemory_ramp (keywordsOf searchQuery) m0)
        as (_ & _ & H3 & _). apply H3. }
    destruct (byScore_sorted Hnonneg) as [Hscore Hrec].
    split.
    { eapply Permutation_trans;
        [apply Permutation_map, Permutation_sym, sort_perm|].
      unfold scored. rewrite map_map. apply Permutation_refl. }
    split; [exact Hscore|].
    split.
    { intro Hzero. apply Hrec. intros m Hm. apply Hzero.
      eapply Permutation_in; [apply sort_perm|exact Hm]. }
    split.
    { intros [H|[H|H]]; [congruence|contradiction|contradiction]. }
    apply stop_words_no_keyword.
Qed.

End SearchFacts.

Section SearchExamples.
Import JS Search.
Open Scope Q_scope.

Local Abbreviation ex_processed := (processedMemories ex_toLowerCase).

(** The query [sea walk] finds both of its keywords in the first memory and
    none in the second. *)
Example search_sea_walk :
  map (fun m => (timestamp m, Qred (scoreOf m)))
    (ex_processed PALACE (of_ascii "Sea, walk!") [] ex_memories)
  = [(2000%Z, 1); (1000%Z, 0)].
Proof. vm_compute. reflexivity. Qed.

(** For the query [Sea, walk!] the keywords are [sea] and [walk]; each
    memory of the result has the score of the number of the two that occur
    in its lower-cased content. *)
Lemma memory_match_score_witness :
  Forall (fun m =>
            exists hits,
              SearchData.countOf
                (fun word =>
                   SearchData.occursIn word
                     (ex_toLowerCase (transcriptSnapshot m ++ of_ascii " "
                                      ++ sentimentString (sentiment m))))
                [of_ascii "sea"; of_ascii "walk"] hits /\
              scoreOf m == rampScore hits 2 /\
              0 <= scoreOf m <= 1)
    (ex_processed PALACE (of_ascii "Sea, walk!") [] ex_memories).
Proof.
  apply Forall_forall.
  destruct (@memory_match_score ex_toLowerCase (of_ascii "Sea, walk!") []
              ex_memories) as (_ & _ & H).
  - discriminate.
  - discriminate.
  - intros m Hm. destruct (H m Hm) as (hits & Hc & _ & _ & Hs & Hr & _).
    exists hits. split; [exact Hc|]. split; [exact Hs|exact Hr].
Defined.

(** Both keywords occur in [walk by the sea neutral], none in the other
    memory. *)
Example sea_walk_hits :
  map (hitsOf ex_toLowerCase [of_ascii "sea"; of_ascii "walk"]) ex_memories
  = [2%nat; 0%nat] /\
  keywordsOf ex_toLowerCase (of_ascii "Sea, walk!")
  = [of_ascii "sea"; of_ascii "walk"].
Proof. vm_compute. split; reflexivity. Qed.

Lemma memories_ordering_witness :
  Forall (fun m => matchScore m = Some 0)
    (ex_processed PALACE (of_ascii "the of") [] ex_memories) /\
  byRecencyDescending (ex_processed PALACE (of_ascii "the of") [] ex_memories).
Proof.
  destruct (@memories_ordering ex_toLowerCase PALACE (of_ascii "the of") []
              ex_memories) as (_ & _ & _ & Hreset & Hstop).
  apply Hreset. right. right. apply Hstop.
  - reflexivity.
  - intros w Hw. vm_compute in Hw.
    destruct Hw as [<-|[<-|[]]]; right; reflexivity.
Defined.

(** C6 as stated fails for a query made of the stop words U+7684 and
    U+4E86: the pairs they form with the space between them are kept as
    keywords, the memory whose transcript ends with U+7684 scores above 0,
    and it comes first although it is the older one. *)
Lemma stop_word_query_not_reset :
  allStopWords (normalize ex_toLowerCase ex_stop_query) /\
  map (fun m => (timestamp m, Qred (scoreOf m)))
    (ex_processed PALACE ex_stop_query [] ex_memories)
  = [(1000%Z, 1); (2000%Z, 0)] /\
  ~ Forall (fun m => matchScore m = Some 0)
      (ex_processed PALACE ex_stop_query [] ex_memories) /\
  ~ byRecencyDescending (ex_processed PALACE ex_stop_query [] ex_memories).
Proof.
  split; [|split; [|split]].
  - intros w Hw. vm_compute in Hw.
    destruct Hw as [<-|[<-|[]]]; right; reflexivity.
  - vm_compute. reflexivity.
  - intro H. vm_compute in H. inversion H as [|m l Hm _]. discriminate Hm.
  - intro H. vm_compute in H. inversion H as [|m l _ Hall]; subst.
    inversion Hall as [|m' l' Hle _]; subst. apply Hle. reflexivity.
Qed.

End SearchExamples.

(** ** Ambient cloud *)

Section AmbientFacts.
Import JS Ambient.
Open Scope Q_scope.

(** C7, as amended. When the disruption target of a frame is above the
    current disruption the uniform moves toward it at rate 0.03, and when it
    is below at rate 0.15: the blend weight rises more slowly than it falls,
    so scattering engages more slowly than it relaxes. *)
Theorem disruption_rates (rising falling : Frame) (s s' : Scene) (m m' : Pose) :
  meshRef s = Some m ->
  meshRef s' = Some m' ->
  uDisruption (uniforms s) < disruptionTarget rising ->
  disruptionTarget falling < uDisruption (uniforms s') ->
  rateOf rising s = 0.03 /\
  rateOf falling s' = 0.15 /\
  rateOf rising s < rateOf falling s' /\
  uDisruption (uniforms (useFrame rising s))
    = lerp (uDisruption (uniforms s)) (disruptionTarget rising) (rateOf rising s) /\
  uDisruption (uniforms (useFrame falling s'))
    = lerp (uDisruption (uniforms s')) (disruptionTarget falling)
        (rateOf falling s').
Proof.
  intros Hm Hm' Hup Hdown.
  assert (Hr : rateOf rising s = 0.03).
  { unfold rateOf, lerpSpeed, gtb. apply ltb_lt in Hup. now rewrite Hup. }
  assert (Hf : rateOf falling s' = 0.15).
  { unfold rateOf, lerpSpeed, gtb.
    assert (H : ltb (uDisruption (uniforms s')) (disruptionTarget falling) = false).
    { apply ltb_ge. now apply Qlt_le_weak. }
    now rewrite H. }
  split; [exact Hr|]. split; [exact Hf|].
  split; [rewrite Hr, Hf; reflexivity|].
  unfold useFrame. rewrite Hm, Hm'. split; reflexivity.
Qed.

End AmbientFacts.

Section AmbientExamples.
Import JS Ambient.
Open Scope Q_scope.

Lemma disruption_rates_witness :
  rateOf ex_scatter_frame (ex_scene 0) = 0.03 /\
  rateOf ex_relax_frame (ex_scene 2.5) = 0.15.
Proof.
  destruct (@disruption_rates ex_scatter_frame ex_relax_frame
              (ex_scene 0) (ex_scene 2.5)
              {| position_x := 0; position_y := 0;
                 rotation_x := 0; rotation_y := 0 |}
              {| position_x := 0; position_y := 0;
                 rotation_x := 0; rotation_y := 0 |})
    as (Hr & Hf & _); try reflexivity.
  split; assumption.
Defined.

(** C7 as stated fails: from rest an open hand raises the target to 2.5
    and the rate is 0.03, while a scattered cloud with no hand in view falls
    back at rate 0.15, so the rate toward a higher target is not the larger
    one. *)
Lemma scatter_not_faster_than_relax :
  uDisruption (uniforms (ex_scene 0)) < disruptionTarget ex_scatter_frame /\
  disruptionTarget ex_relax_frame < uDisruption (uniforms (ex_scene 2.5)) /\
  ~ rateOf ex_relax_frame (ex_scene 2.5) < rateOf ex_scatter_frame (ex_scene 0).
Proof.
  split; [reflexivity|]. split; [reflexivity|].
  intro H. vm_compute in H. discriminate H.
Qed.

End AmbientExamples.

(** ** Recording *)

Section RecordingFacts.
Import Recording.
Open Scope nat_scope.

(** [AudioStreamer.stopRecording] ends the tracks of the stream it holds
    and forgets it; a second call changes nothing. *)
Lemma streamer_stop_releases (a : AudioStreamer) (b : Browser) :
  let '(a1, b1) := stopRecording a b in
  inputStream a1 = None /\
  (forall stream, inputStream a = Some stream -> ~ In stream (liveStreams b1)) /\
  stopRecording a1 b1 = (a1, b1).
Proof.
  unfold stopRecording. simpl. split; [reflexivity|]. split; [|reflexivity].
  intros stream Hs. rewrite Hs. simpl. intro Hin.
  apply filter_In in Hin. destruct Hin as [_ Hne].
  rewrite Nat.eqb_refl in Hne. discriminate.
Qed.

Lemma streamer_session_released (context node : nat) :
  let '(a1, b1) := startRecording true context node fresh quiet in
  let '(a2, b2) := stopRecording a1 b1 in
  liveStreams b1 = [0] /\ liveStreams b2 = [] /\ stopRecording a2 b2 = (a2, b2).
Proof. repeat split. Qed.

(** C8. Start a recording with [handleToggleRecording], microphone access
    granted, and stop it with a second call: the recorder and the timer are
    dropped, and the audio stream acquired for the session is still live,
    where the claim wants every track of the session stopped. *)
Theorem app_stop_leaves_stream_live (timer : nat) :
  let '(a1, b1) := handleToggleRecording true timer idle quiet in
  let '(a2, b2) := handleToggleRecording true timer a1 b1 in
  isRecording a1 = true /\
  liveStreams b1 = [0] /\
  isRecording a2 = false /\
  mediaRecorderRef a2 = None /\
  sentimentIntervalRef a2 = None /\
  liveStreams b2 = [0].
Proof. repeat split. Qed.

End RecordingFacts.

(** * Further properties *)

(** ** Gesture classifier *)

Section GestureMoreFacts.
Import JS Gesture GestureData.
Open Scope Q_scope.

Variable Math_sqrt : Q -> Q.
Variable Math_atan2 : Q -> Q -> Q.

Local Abbreviation geometry := (geometry Math_sqrt).
Local Abbreviation pointerVelocity := (pointerVelocity Math_sqrt).
Local Abbreviation publish := (publish Math_atan2).
Local Abbreviation detectFrame := (detectFrame Math_sqrt Math_atan2).
Local Abbreviation detectLoop := (detectLoop Math_sqrt Math_atan2).
Local Abbreviation run := (run Math_sqrt Math_atan2).

(** What a successful detection has computed. *)
Lemma detectFrame_inv (st st' : Tracker) (t : Z) (landmarks : Hand) :
  detectFrame st t landmarks = Some st' ->
  exists geo l6 l8 hd,
    geometry landmarks = Some geo /\
    nth_error landmarks 6 = Some l6 /\
    nth_error landmarks 8 = Some l8 /\
    publish landmarks geo
      (classify (pinch geo) (extendedFingers geo) (palmNormalZ geo)
         (pointerVelocity st t (px geo) (py geo)) l6 l8) = Some hd /\
    st' = {| handData := Some hd;
             lastPointerRef := Some {| v2_x := px geo; v2_y := py geo |};
             lastTimeRef := t |}.
Proof.
  unfold Gesture.detectFrame, Gesture.labelOf. intro H.
  destruct (geometry landmarks) as [geo|]; [|discriminate].
  destruct (nth_error landmarks 6) as [l6|]; [|discriminate].
  destruct (nth_error landmarks 8) as [l8|]; [|discriminate].
  destruct (publish landmarks geo _) as [hd|] eqn:Hpub; [|discriminate].
  inversion H; subst. exists geo, l6, l8, hd. repeat split. exact Hpub.
Qed.

Lemma publish_inv (landmarks : Hand) (geo : Geometry) (g : Label) (hd : HandData) :
  publish landmarks geo g = Some hd ->
  exists l9,
    nth_error landmarks 9 = Some l9 /\
    gesture hd = g /\ detected hd = true /\
    pointer hd = {| v2_x := px geo; v2_y := py geo |} /\
    pinchDistance hd = pinch geo /\
    position hd = {| v3_x := - (lm_x l9 - 0.5) * 2;
                     v3_y := - (lm_y l9 - 0.5) * 2; v3_z := 0 |} /\
    palmCenter hd = {| v2_x := - (lm_x l9 - 0.5) * 2;
                       v2_y := - (lm_y l9 - 0.5) * 2 |}.
Proof.
  unfold Gesture.publish. intro H.
  destruct (nth_error landmarks 0); [|discriminate].
  destruct (nth_error landmarks 5); [|discriminate].
  destruct (nth_error landmarks 9) as [l9|]; [|discriminate].
  destruct (nth_error landmarks 17); [|discriminate].
  inversion H; subst. exists l9. repeat split.
Qed.

(** What one turn of the loop can do to the tracker. *)
Lemma detectLoop_cases (st st' : Tracker) (p : Poll) :
  detectLoop st p = Some st' ->
  (videoReady p = false /\ st' = st) \/
  (noHand p /\
   st' = {| handData := option_map lost (handData st);
            lastPointerRef := None; lastTimeRef := lastTimeRef st |}) \/
  (exists landmarks,
      detects p landmarks /\ detectFrame st (now p) landmarks = Some st').
Proof.
  unfold Gesture.detectLoop. intro H.
  destruct (videoReady p) eqn:Hready.
  - destruct (firstHand p) as [landmarks|] eqn:Hhand.
    + right. right. exists landmarks. split; [split; assumption|exact H].
    + right. left. inversion H; subst. split; [split; assumption|reflexivity].
  - left. inversion H. now split.
Qed.

(** X1. Over every run of the loop from its initial state, a published
    state that is not detected has the label IDLE, its position lies in the
    plane [z = 0], and its palm centre repeats the position. *)
Theorem published_state_coherent (polls : list Poll) (st : Tracker) (h : HandData) :
  run initial polls = Some st ->
  handData st = Some h ->
  coherent h.
Proof.
  assert (Hgen : forall polls st0 st,
             (forall h, handData st0 = Some h -> coherent h) ->
             run st0 polls = Some st ->
             forall h, handData st = Some h -> coherent h).
  { clear. induction polls as [|p polls IH]; intros st0 st Hinv Hrun; simpl in Hrun.
    - inversion Hrun; subst. exact Hinv.
    - destruct (detectLoop st0 p) as [st1|] eqn:Hstep; [|discriminate].
      apply (IH st1 st); [|exact Hrun].
      destruct (detectLoop_cases _ _ Hstep)
        as [[_ ->]|[[_ ->]|[landmarks [_ Hframe]]]].
      + exact Hinv.
      + simpl. intros h Hh. destruct (handData st0) as [prev|]; [|discriminate].
        simpl in Hh. inversion Hh; subst.
        destruct (Hinv prev eq_refl) as (_ & Hz & Hx & Hy).
        repeat split; assumption.
      + apply detectFrame_inv in Hframe.
        destruct Hframe as (geo & l6 & l8 & hd & _ & _ & _ & Hpub & ->).
        apply publish_inv in Hpub.
        destruct Hpub as (l9 & _ & _ & Hd & _ & _ & Hpos & Hpalm).
        simpl. intros h Hh. inversion Hh; subst.
        unfold coherent. rewrite Hd, Hpos, Hpalm. simpl.
        repeat split; try reflexivity. discriminate. }
  intros Hrun Hh. apply (Hgen polls initial st); try assumption.
  simpl. discriminate.
Qed.

(** X2. Over every run of the loop from its initial state, the cached
    pointer is empty unless the published state is a detected hand, and then
    it is the pointer of that state. *)
Theorem pointer_cache_agrees (polls : list Poll) (st : Tracker) :
  run initial polls = Some st -> cacheAgrees st.
Proof.
  assert (Hgen : forall polls st0 st,
             cacheAgrees st0 -> run st0 polls = Some st -> cacheAgrees st).
  { clear. induction polls as [|p polls IH]; intros st0 st Hinv Hrun; simpl in Hrun.
    - now inversion Hrun; subst.
    - destruct (detectLoop st0 p) as [st1|] eqn:Hstep; [|discriminate].
      apply (IH st1 st); [|exact Hrun].
      destruct (detectLoop_cases _ _ Hstep)
        as [[_ ->]|[[_ ->]|[landmarks [_ Hframe]]]].
      + exact Hinv.
      + unfold cacheAgrees. simpl. intros h Hh.
        destruct (handData st0); [|discriminate].
        simpl in Hh. now inversion Hh.
      + apply detectFrame_inv in Hframe.
        destruct Hframe as (geo & l6 & l8 & hd & _ & _ & _ & Hpub & ->).
        apply publish_inv in Hpub.
        destruct Hpub as (l9 & _ & _ & Hd & Hptr & _).
        unfold cacheAgrees. simpl. exists hd. repeat split; assumption. }
  intro Hrun. apply (Hgen polls initial st); [|exact Hrun].
  unfold cacheAgrees. simpl. discriminate.
Qed.


Lemma countExtended_bounds (landmarks : Hand) (wrist : Landmark)
    (tips : list nat) (acc n : nat) :
  countExtended landmarks wrist tips acc = Some n ->
  (acc <= n <= acc + length tips)%nat.
Proof.
  revert acc. induction tips as [|idx rest IH]; intros acc H; simpl in *.
  - inversion H. lia.
  - destruct (nth_error landmarks idx) as [tip|]; [|discriminate].
    destruct (nth_error landmarks (idx - 2)) as [pip|]; [|discriminate].
    apply IH in H.
    destruct (gtb _ 0.1 && gtb _ 0.05)%bool; lia.
Qed.

(** X3. The count of extended fingers measured on a frame is at most 4. *)
Theorem extended_fingers_at_most_four (landmarks : Hand) (geo : Geometry) :
  geometry landmarks = Some geo -> (extendedFingers geo <= 4)%nat.
Proof.
  unfold Gesture.geometry. intro H.
  destruct (nth_error landmarks 0) as [wrist|]; [|discriminate].
  destruct (countExtended landmarks wrist [8; 12; 16; 20]%nat 0) as [n|] eqn:Hn;
    [|discriminate].
  destruct (nth_error landmarks 5); [|discriminate].
  destruct (nth_error landmarks 17); [|discriminate].
  destruct (nth_error landmarks 4); [|discriminate].
  destruct (nth_error landmarks 8); [|discriminate].
  inversion H; subst; simpl.
  apply countExtended_bounds in Hn. simpl in Hn. lia.
Qed.

Lemma geometry_pointer (landmarks : Hand) (geo : Geometry) :
  geometry landmarks = Some geo ->
  exists l8,
    nth_error landmarks 8 = Some l8 /\
    px geo = - (lm_x l8 - 0.5) * 2 /\ py geo = - (lm_y l8 - 0.5) * 2.
Proof.
  unfold Gesture.geometry. intro H.
  destruct (nth_error landmarks 0) as [wrist|]; [|discriminate].
  destruct (countExtended landmarks wrist [8; 12; 16; 20]%nat 0); [|discriminate].
  destruct (nth_error landmarks 5); [|discriminate].
  destruct (nth_error landmarks 17); [|discriminate].
  destruct (nth_error landmarks 4); [|discriminate].
  destruct (nth_error landmarks 8) as [l8|]; [|discriminate].
  inversion H; subst; simpl. exists l8. repeat split.
Qed.

(** X4. When every landmark of a detected frame lies in the image, with
    coordinates between 0 and 1, the published pointer and palm centre lie
    in the square from -1 to 1. *)
Theorem published_points_in_square (st st' : Tracker) (p : Poll)
    (landmarks : Hand) (hd : HandData) :
  detects p landmarks ->
  Forall inImage landmarks ->
  detectLoop st p = Some st' ->
  handData st' = Some hd ->
  inSquare (pointer hd) /\ inSquare (palmCenter hd).
Proof.
  intros [Hready Hhand] Hin Hloop Hhd.
  unfold Gesture.detectLoop in Hloop. rewrite Hready, Hhand in Hloop.
  apply detectFrame_inv in Hloop.
  destruct Hloop as (geo & l6 & l8 & hd' & Hgeo & _ & _ & Hpub & ->).
  simpl in Hhd. inversion Hhd; subst hd'.
  apply publish_inv in Hpub.
  destruct Hpub as (l9 & H9 & _ & _ & Hptr & _ & _ & Hpalm).
  destruct (geometry_pointer _ Hgeo) as (l8' & H8 & Hpx & Hpy).
  rewrite Forall_forall in Hin.
  assert (I8 : inImage l8') by (apply Hin; eapply nth_error_In; exact H8).
  assert (I9 : inImage l9) by (apply Hin; eapply nth_error_In; exact H9).
  destruct I8 as [[? ?] [? ?]], I9 as [[? ?] [? ?]].
  rewrite Hptr, Hpalm, Hpx, Hpy. unfold inSquare. simpl.
  repeat split; lra.
Qed.

Lemma countExtended_missing (landmarks : Hand) (wrist : Landmark)
    (tips : list nat) (acc idx : nat) :
  In idx tips -> nth_error landmarks idx = None ->
  countExtended landmarks wrist tips acc = None.
Proof.
  revert acc. induction tips as [|i rest IH]; intros acc Hin Hnone; simpl.
  - destruct Hin.
  - destruct Hin as [->|Hin].
    + now rewrite Hnone.
    + destruct (nth_error landmarks i); [|reflexivity].
      destruct (nth_error landmarks (i - 2)); [|reflexivity].
      now apply IH.
Qed.

(** X5. A poll that detects a hand is processed without error exactly when
    the frame holds at least 21 landmarks; a shorter frame raises. *)
Theorem frame_needs_21_landmarks (st : Tracker) (p : Poll) (landmarks : Hand) :
  detects p landmarks ->
  (exists st', detectLoop st p = Some st') <-> (21 <= length landmarks)%nat.
Proof.
  intros [Hready Hhand]. unfold Gesture.detectLoop. rewrite Hready, Hhand.
  split.
  - intros [st' H]. apply detectFrame_inv in H.
    destruct H as (geo & _ & _ & _ & Hgeo & _).
    destruct (le_lt_dec 21 (length landmarks)) as [Hle|Hlt]; [exact Hle|].
    exfalso. unfold Gesture.geometry in Hgeo.
    destruct (nth_error landmarks 0) as [wrist|]; [|discriminate].
    rewrite (@countExtended_missing landmarks wrist [8; 12; 16; 20]%nat 0 20)
      in Hgeo; [discriminate|simpl; tauto|].
    apply nth_error_None. lia.
  - intro Hlen.
    assert (Hdef : forall i, (i < 21)%nat ->
                   exists l, nth_error landmarks i = Some l).
    { intros i Hi. destruct (nth_error landmarks i) as [l|] eqn:E;
        [now exists l|]. apply nth_error_None in E. lia. }
    unfold Gesture.detectFrame, Gesture.labelOf, Gesture.geometry, Gesture.publish.
    destruct (Hdef 0%nat) as [wrist ->]; [lia|].
    assert (Hcount : exists n,
               countExtended landmarks wrist [8; 12; 16; 20]%nat 0 = Some n).
    { cbn [countExtended Nat.sub].
      destruct (Hdef 8%nat) as [? ->]; [lia|].
      destruct (Hdef 6%nat) as [? ->]; [lia|].
      destruct (Hdef 12%nat) as [? ->]; [lia|].
      destruct (Hdef 10%nat) as [? ->]; [lia|].
      destruct (Hdef 16%nat) as [? ->]; [lia|].
      destruct (Hdef 14%nat) as [? ->]; [lia|].
      destruct (Hdef 20%nat) as [? ->]; [lia|].
      destruct (Hdef 18%nat) as [? ->]; [lia|].
      eexists. reflexivity. }
    destruct Hcount as [n ->].
    destruct (Hdef 5%nat) as [? ->]; [lia|].
    destruct (Hdef 17%nat) as [? ->]; [lia|].
    destruct (Hdef 4%nat) as [? ->]; [lia|].
    destruct (Hdef 8%nat) as [? ->]; [lia|].
    destruct (Hdef 6%nat) as [? ->]; [lia|].
    destruct (Hdef 9%nat) as [? ->]; [lia|].
    eexists. reflexivity.
Qed.

Lemma velocity_needs_time (st : Tracker) (t : Z) (x y : Q) :
  0.5 < pointerVelocity st t x y ->
  lastPointerRef st <> None /\ (lastTimeRef st < t)%Z.
Proof.
  unfold Gesture.pointerVelocity. intro H.
  destruct (lastPointerRef st) as [last|]; [|exfalso; revert H; discriminate].
  split; [discriminate|].
  destruct (negb (lastTimeRef st =? 0)%Z); [|exfalso; revert H; discriminate].
  destruct (gtb (inject_Z (t - lastTimeRef st) / 1000) 0) eqn:Hdt;
    [|exfalso; revert H; discriminate].
  unfold gtb in Hdt. apply ltb_lt in Hdt.
  assert (Hpos : 0 < inject_Z (t - lastTimeRef st)).
  { unfold Qdiv in Hdt.
    setoid_replace (inject_Z (t - lastTimeRef st))
      with (inject_Z (t - lastTimeRef st) * / 1000 * 1000) by field.
    apply Qmult_lt_0_compat; [exact Hdt|reflexivity]. }
  change 0 with (inject_Z 0) in Hpos. rewrite <- Zlt_Qlt in Hpos. lia.
Qed.

Lemma classify_swipe (pinchDistance : Q) (extended : nat)
    (palmNormal velocity : Q) (l6 l8 : Landmark) :
  classify pinchDistance extended palmNormal velocity l6 l8 = SWIPE ->
  0.08 <= pinchDistance /\ extended = 1%nat /\ Qabs palmNormal <= 0.01 /\
  0.5 < velocity /\ 0.05 < lm_y l6 - lm_y l8.
Proof.
  unfold classify, indexExtended, gtb.
  destruct (ltb pinchDistance 0.08) eqn:Hp; [discriminate|].
  destruct (4 <=? extended)%nat; [discriminate|].
  destruct (extended <=? 1)%nat eqn:Hle; simpl.
  - destruct (ltb 0.01 (Qabs palmNormal)) eqn:Hn; [discriminate|].
    destruct (extended =? 1)%nat eqn:He; simpl; [|discriminate].
    destruct (ltb 0.5 velocity) eqn:Hv; [|discriminate].
    destruct (ltb 0.05 (lm_y l6 - lm_y l8)) eqn:Hi; [|discriminate].
    intros _. apply ltb_ge in Hp, Hn. apply ltb_lt in Hv, Hi.
    apply Nat.eqb_eq in He. repeat split; assumption.
  - destruct (extended =? 1)%nat eqn:He; simpl; [|discriminate].
    apply Nat.eqb_eq in He. subst. discriminate.
Qed.

(** X6. A poll publishes SWIPE only when exactly one finger is extended,
    the pinch distance is at least 0.08, the palm normal is at most 0.01 in
    absolute value, the pointer velocity exceeds 0.5, and a pointer was
    cached at an earlier time: the first detection and a detection at an
    unchanged clock never swipe. *)
Theorem swipe_conditions (st st' : Tracker) (p : Poll) (landmarks : Hand)
    (hd : HandData) :
  detects p landmarks ->
  detectLoop st p = Some st' ->
  handData st' = Some hd ->
  gesture hd = SWIPE ->
  exists geo,
    geometry landmarks = Some geo /\
    extendedFingers geo = 1%nat /\
    0.08 <= pinch geo /\
    Qabs (palmNormalZ geo) <= 0.01 /\
    0.5 < pointerVelocity st (now p) (px geo) (py geo) /\
    lastPointerRef st <> None /\
    (lastTimeRef st < now p)%Z.
Proof.
  intros [Hready Hhand] Hloop Hhd Hswipe.
  unfold Gesture.detectLoop in Hloop. rewrite Hready, Hhand in Hloop.
  apply detectFrame_inv in Hloop.
  destruct Hloop as (geo & l6 & l8 & hd' & Hgeo & _ & _ & Hpub & ->).
  simpl in Hhd. inversion Hhd; subst hd'.
  apply publish_inv in Hpub. destruct Hpub as (_ & _ & Hg & _).
  rewrite Hswipe in Hg. symmetry in Hg. apply classify_swipe in Hg.
  destruct Hg as (Hp & He & Hn & Hv & _).
  destruct (velocity_needs_time _ _ _ _ Hv) as [Hptr Ht].
  exists geo. repeat split; assumption.
Qed.

End GestureMoreFacts.

Section GestureMoreExamples.
Import JS Gesture GestureData.
Open Scope Q_scope.

Local Abbreviation ex_run := (Gesture.run ex_sqrt ex_atan2).
Local Abbreviation ex_loop := (Gesture.detectLoop ex_sqrt ex_atan2).

(** The pointing hand, moved sideways between two polls, swipes. *)
Example pointing_hand_swipes :
  option_map (fun st => option_map gesture (handData st))
    (ex_run initial (firstn 3 ex_polls))
  = Some (Some SWIPE).
Proof. vm_compute. reflexivity. Qed.

Lemma published_state_coherent_witness : coherent ex_swipe_state.
Proof.
  apply (@published_state_coherent ex_sqrt ex_atan2 (firstn 3 ex_polls)
           ex_swiping ex_swipe_state).
  - vm_compute. reflexivity.
  - reflexivity.
Defined.

Lemma pointer_cache_agrees_witness : cacheAgrees ex_swiping.
Proof.
  apply (@pointer_cache_agrees ex_sqrt ex_atan2 (firstn 3 ex_polls) ex_swiping).
  vm_compute. reflexivity.
Defined.

Lemma extended_fingers_at_most_four_witness :
  (extendedFingers ex_open_geometry <= 4)%nat.
Proof.
  apply (@extended_fingers_at_most_four ex_sqrt ex_open_hand).
  vm_compute. reflexivity.
Defined.

Lemma frame_needs_21_landmarks_witness :
  ~ exists st', ex_loop initial ex_short_poll = Some st'.
Proof.
  intro H.
  apply (@frame_needs_21_landmarks ex_sqrt ex_atan2 initial ex_short_poll
           (firstn 17 (ex_point_hand 0))) in H.
  - vm_compute in H. lia.
  - split; reflexivity.
Defined.

Lemma published_points_in_square_witness :
  inSquare (pointer ex_open_state) /\ inSquare (palmCenter ex_open_state).
Proof.
  apply (@published_points_in_square ex_sqrt ex_atan2 initial
           (orInitial (ex_loop initial ex_detect_poll))
           ex_detect_poll ex_open_hand ex_open_state).
  - split; reflexivity.
  - repeat (apply Forall_cons;
            [unfold inImage; simpl; split; split; discriminate|]).
    apply Forall_nil.
  - vm_compute. reflexivity.
  - vm_compute. reflexivity.
Defined.

Lemma swipe_conditions_witness :
  exists geo,
    Gesture.geometry ex_sqrt (ex_point_hand 0.2) = Some geo /\
    extendedFingers geo = 1%nat /\
    0.08 <= pinch geo /\
    Qabs (palmNormalZ geo) <= 0.01 /\
    0.5 < Gesture.pointerVelocity ex_sqrt ex_pointing (now ex_swipe_poll)
            (px geo) (py geo) /\
    lastPointerRef ex_pointing <> None /\
    (lastTimeRef ex_pointing < now ex_swipe_poll)%Z.
Proof.
  apply (@swipe_conditions ex_sqrt ex_atan2 ex_pointing ex_swiping
           ex_swipe_poll (ex_point_hand 0.2) ex_swipe_state).
  - split; reflexivity.
  - vm_compute. reflexivity.
  - reflexivity.
  - reflexivity.
Defined.

End GestureMoreExamples.

(** ** Particle field sampler *)

Section SamplerMoreFacts.
Import JS Sampler SamplerData.
Open Scope Q_scope.

Variable Math_sqrt : Q -> Q.
Variable Math_pow : Q -> Q -> Q.
Variable img : Image.
Variable targetCount : nat.
Variable Math_random : nat -> Q.

Local Abbreviation body := (body Math_sqrt Math_pow img Math_random).
Local Abbreviation loop := (loop Math_sqrt Math_pow img targetCount Math_random).
Local Abbreviation sample := (sample Math_sqrt Math_pow img targetCount Math_random).
Local Abbreviation processImageToParticles :=
  (processImageToParticles Math_sqrt Math_pow img targetCount Math_random).

(** A property of particles that every accepted pixel establishes holds of
    all the particles of the loop. *)
Lemma loop_particles (P : ParticleData -> Prop) :
  (forall s rx ry k,
      Forall P (particles s) ->
      Forall P (particles (keepPixel img Math_random s rx ry k))) ->
  forall fuel s, Forall P (particles s) -> Forall P (particles (loop fuel s)).
Proof.
  intros Hkeep. induction fuel as [|fuel IH]; intros s Hs; simpl.
  - exact Hs.
  - destruct (continues targetCount s); [|exact Hs].
    apply IH. unfold Sampler.body.
    destruct (ltb _ _); [destruct (gtb _ _)|]; try (apply Hkeep; exact Hs).
    exact Hs.
Qed.

(** X7. Every point the sampler returns, the fallback point included, has
    its original position equal to its position. *)
Theorem sampled_points_anchored :
  Forall anchored processImageToParticles.
Proof.
  assert (H : Forall anchored (particles sample)).
  { apply loop_particles; [|constructor].
    intros s rx ry k Hs. unfold keepPixel.
    destruct (match byte (data img) _ with
              | Some alpha => (20 <? alpha)%Z | None => false end); simpl.
    - apply Forall_app. split; [exact Hs|].
      constructor; [|constructor]. repeat split.
    - exact Hs. }
  unfold Sampler.processImageToParticles.
  destruct (length (particles sample) =? 0)%nat; [|exact H].
  apply Forall_app. split; [exact H|].
  constructor; [|constructor]. repeat split.
Qed.

Lemma channel_bounds (j : Z) :
  Forall (fun v => (0 <= v <= 255)%Z) (data img) ->
  0 <= num (byte (data img) j) / 255 <= 1.
Proof.
  intro Hdata.
  assert (Hv : 0 <= num (byte (data img) j) <= 255).
  { unfold num, byte. destruct (j <? 0)%Z; [split; discriminate|].
    destruct (nth_error (data img) (Z.to_nat j)) as [v|] eqn:E;
      [|split; discriminate].
    apply nth_error_In in E. rewrite Forall_forall in Hdata.
    destruct (Hdata v E) as [H0 H255].
    split.
    - change 0 with (inject_Z 0). now rewrite <- Zle_Qle.
    - change 255 with (inject_Z 255). now rewrite <- Zle_Qle. }
  destruct Hv as [H0 H255]. split.
  - apply Qle_shift_div_l; [reflexivity|]. lra.
  - apply Qle_shift_div_r; [reflexivity|]. lra.
Qed.

(** X8. When the bytes of the pixel buffer lie between 0 and 255, every
    accepted point has colour channels between 0 and 1 and the depth
    [(luminance - 0.5) * 2.5], between -1.25 and 1.25; so of two accepted
    points the brighter one is at least as close to the viewer. *)
Theorem accepted_points_shaded :
  Forall (fun v => (0 <= v <= 255)%Z) (data img) ->
  Forall shaded (particles sample) /\
  forall p q,
    In p (particles sample) -> In q (particles sample) ->
    luminance p <= luminance q -> z p <= z q.
Proof.
  intro Hdata.
  assert (H : Forall shaded (particles sample)).
  { apply loop_particles; [|constructor].
    intros s rx ry k Hs. unfold keepPixel.
    destruct (match byte (data img) _ with
              | Some alpha => (20 <? alpha)%Z | None => false end); simpl;
      [|exact Hs].
    apply Forall_app. split; [exact Hs|].
    constructor; [|constructor].
    set (i := ((ry * 800 + rx) * 4)%Z).
    pose proof (channel_bounds i Hdata) as [Hr0 Hr1].
    pose proof (channel_bounds (i + 1) Hdata) as [Hg0 Hg1].
    pose proof (channel_bounds (i + 2) Hdata) as [Hb0 Hb1].
    unfold shaded, luminance. simpl.
    repeat split; try assumption; lra. }
  split; [exact H|].
  intros p q Hp Hq Hlum. rewrite Forall_forall in H.
  destruct (H p Hp) as (_ & Hzp & _). destruct (H q Hq) as (_ & Hzq & _).
  rewrite Hzp, Hzq. lra.
Qed.

(** X9. When the alpha byte of every pixel is at most 20, as in a fully
    transparent image, no pixel is accepted: the loop uses up all its
    [200 * targetCount] attempts and the result is the fallback point
    alone. *)
Theorem transparent_image_falls_back :
  (forall m alpha, byte (data img) (4 * m + 3) = Some alpha -> (alpha <= 20)%Z) ->
  particles sample = [] /\
  attempts sample = (200 * targetCount)%nat /\
  processImageToParticles = [fallback].
Proof.
  intro Hdata.
  assert (Hnone : Forall (fun _ => False) (particles sample)).
  { apply loop_particles; [|constructor].
    intros s rx ry k Hs. unfold keepPixel.
    replace ((ry * 800 + rx) * 4 + 3)%Z with (4 * (ry * 800 + rx) + 3)%Z by lia.
    destruct (byte (data img) (4 * (ry * 800 + rx) + 3)) as [alpha|] eqn:E;
      simpl; [|exact Hs].
    apply Hdata in E. apply Z.ltb_ge in E. rewrite E. exact Hs. }
  assert (Hempty : particles sample = []).
  { destruct (particles sample) as [|p ps]; [reflexivity|].
    inversion Hnone; contradiction. }
  split; [exact Hempty|].
  pose proof (sample_terminated Math_sqrt Math_pow img targetCount Math_random)
    as Hend.
  destruct (@loop_bounds Math_sqrt Math_pow img targetCount Math_random
              (maxAttempts targetCount) start) as [_ Hatt];
    [simpl; lia | simpl; lia |].
  fold sample in Hatt.
  unfold continues in Hend. rewrite Hempty in Hend. simpl in Hend.
  unfold maxAttempts in *.
  split.
  - apply andb_false_iff in Hend. destruct Hend as [H|H]; apply Nat.ltb_ge in H; lia.
  - unfold Sampler.processImageToParticles. rewrite Hempty. reflexivity.
Qed.

End SamplerMoreFacts.

Section SamplerMoreExamples.
Import Sampler SamplerData.
Open Scope Q_scope.

Lemma accepted_points_shaded_witness :
  Forall shaded (particles (sample ex_sqrt ex_pow ex_two_tone 2 ex_random)).
Proof.
  apply (@accepted_points_shaded ex_sqrt ex_pow ex_two_tone 2%nat ex_random).
  repeat (apply Forall_cons; [split; discriminate|]). apply Forall_nil.
Defined.

Lemma transparent_image_falls_back_witness :
  processImageToParticles ex_sqrt ex_pow ex_clear 3 ex_random = [fallback].
Proof.
  apply (@transparent_image_falls_back ex_sqrt ex_pow ex_clear 3%nat ex_random).
  intros m alpha Hb. unfold byte in Hb.
  destruct (4 * m + 3 <? 0)%Z eqn:E; [discriminate|]. apply Z.ltb_ge in E.
  destruct (Z_lt_le_dec m 4) as [Hlt|Hge].
  - assert (Hm : m = 0%Z \/ m = 1%Z \/ m = 2%Z \/ m = 3%Z) by lia.
    destruct Hm as [-> | [-> | [-> | ->]]]; vm_compute in Hb; inversion Hb;
      discriminate.
  - assert (Hnone : nth_error (data ex_clear) (Z.to_nat (4 * m + 3)) = None).
    { apply nth_error_None. change (length (data ex_clear)) with 16%nat. lia. }
    rewrite Hnone in Hb. discriminate.
Defined.

End SamplerMoreExamples.

(** ** Facts about the maps *)

Section MapFacts.
Import JS TextParticles.

Lemma map_set_keys (V : Type) (m : list (jsstring * V)) (k0 : jsstring) (v : V)
    (k : jsstring) :
  In k (map fst (map_set m k0 v)) <-> In k (map fst m) \/ k = k0.
Proof.
  induction m as [|[k' v'] m IH]; simpl.
  - intuition.
  - destruct (str_eqb k' k0) eqn:E; simpl.
    + apply str_eqb_eq in E. subst. intuition.
    + rewrite IH. intuition.
Qed.

Lemma map_get_set_same (V : Type) (m : list (jsstring * V)) (k : jsstring)
    (v : V) :
  map_get (map_set m k v) k = Some v.
Proof.
  induction m as [|[k' v'] m IH]; simpl.
  - rewrite (proj2 (str_eqb_eq k k) eq_refl). reflexivity.
  - destruct (str_eqb k' k) eqn:E; simpl; rewrite E; auto.
Qed.

Lemma map_get_set_other (V : Type) (m : list (jsstring * V))
    (k k' : jsstring) (v : V) :
  k' <> k ->
  map_get (map_set m k v) k'
  = map_get m k'.
Proof.
  intro Hne. induction m as [|[k0 v0] m IH]; simpl.
  - destruct (str_eqb k k') eqn:E; [|reflexivity].
    apply str_eqb_eq in E. congruence.
  - destruct (str_eqb k0 k) eqn:E; simpl.
    + apply str_eqb_eq in E. subst k0.
      destruct (str_eqb k k') eqn:E2; [|reflexivity].
      apply str_eqb_eq in E2. congruence.
    + rewrite IH. reflexivity.
Qed.

Lemma hasKey_keys (V : Type) (m : list (jsstring * V)) (k : jsstring) :
  In k (map fst m) -> hasKey m k = true.
Proof.
  unfold hasKey. induction m as [|[k' v] m IH]; simpl; [tauto|].
  intro Hin. destruct (str_eqb k' k) eqn:E; [reflexivity|].
  destruct Hin as [-> | Hin]; [|auto].
  rewrite (proj2 (str_eqb_eq k k) eq_refl) in E. discriminate.
Qed.

Lemma map_get_keys (V : Type) (m : list (jsstring * V)) (k : jsstring) :
  In k (map fst m) <-> exists v, map_get m k = Some v.
Proof.
  induction m as [|[k' v'] m IH]; simpl.
  - split; [tauto|intros [v H]; discriminate].
  - destruct (str_eqb k' k) eqn:E.
    + apply str_eqb_eq in E. split; [intros _; now exists v'|auto].
    + rewrite <- IH. split; [|auto].
      intros [H|H]; [|exact H].
      apply str_eqb_eq in H. congruence.
Qed.

Lemma map_get_filter (V : Type) (f : jsstring -> bool)
    (m : list (jsstring * V)) (k : jsstring) :
  map_get (filter (fun e => f (fst e)) m) k
  = if f k then map_get m k else None.
Proof.
  induction m as [|[k' v] m IH]; simpl.
  - now destruct (f k).
  - destruct (f k') eqn:Ek'; simpl; destruct (str_eqb k' k) eqn:E.
    + apply str_eqb_eq in E. subst. now rewrite Ek'.
    + exact IH.
    + apply str_eqb_eq in E. subst. now rewrite IH, Ek'.
    + exact IH.
Qed.

End MapFacts.

(** ** Text glyph particles *)

Section TextParticleMoreFacts.
Import JS TextParticles TextParticleData.
Open Scope nat_scope.

Variable Math_sin : Q -> Q.
Variable Math_cos : Q -> Q.
Variable Math_sqrt : Q -> Q.
Variable Math_PI : Q.
Variable idString : Q -> nat -> Z -> jsstring.

Local Abbreviation tickParticle := (tickParticle Math_sin Math_cos Math_sqrt).
Local Abbreviation tickEntry := (tickEntry Math_sin Math_cos Math_sqrt).
Local Abbreviation tick := (tick Math_sin Math_cos Math_sqrt).
Local Abbreviation newParticleObjs := (newParticleObjs Math_sin Math_cos Math_PI idString).
Local Abbreviation spawnBatch := (spawnBatch Math_sin Math_cos Math_PI idString).
Local Abbreviation effect := (effect Math_sin Math_cos Math_PI idString).
Local Abbreviation step := (step Math_sin Math_cos Math_sqrt Math_PI idString).
Local Abbreviation steps := (steps Math_sin Math_cos Math_sqrt Math_PI idString).

(** The physics loop touches the heap and the meshes only. *)
Lemma tickEntries_keep (f : Frame) (entries : list (jsstring * nat)) (s : System) :
  let s' := fold_left (tickEntry f) entries s in
  particles s' = particles s /\
  physicsStateRef s' = physicsStateRef s /\
  lastTranscriptRef s' = lastTranscriptRef s /\
  lastSceneVersionRef s' = lastSceneVersionRef s /\
  totalCharCountRef s' = totalCharCountRef s.
Proof.
  revert s. induction entries as [|e entries IH]; intro s; simpl; [repeat split|].
  destruct (IH (tickEntry f s e)) as (H1 & H2 & H3 & H4 & H5).
  rewrite H1, H2, H3, H4, H5.
  destruct e as [key ref]. unfold TextParticles.tickEntry.
  destruct (nth_error (heap s) ref) as [p|]; [|repeat split].
  destruct (map_get (textRefs s) key) as [m|]; [|repeat split].
  destruct (tickParticle f p m). repeat split.
Qed.

Lemma tick_keeps (f : Frame) (s : System) :
  particles (tick f s) = particles s /\
  physicsStateRef (tick f s) = physicsStateRef s /\
  lastTranscriptRef (tick f s) = lastTranscriptRef s /\
  lastSceneVersionRef (tick f s) = lastSceneVersionRef s /\
  totalCharCountRef (tick f s) = totalCharCountRef s.
Proof.
  unfold TextParticles.tick. destruct (readingMode f); [repeat split|].
  apply tickEntries_keep.
Qed.

(** What the spawn logic leaves in the list of live particles. *)
Lemma effect_particles (s : System) (transcript : jsstring)
    (sceneVersion t : Z) (Math_random : nat -> Q) :
  let after := fst (effect s transcript sceneVersion t Math_random) in
  particles after = particles s \/
  particles after = [] \/
  length (particles after) <= MAX_CHARS.
Proof.
  unfold TextParticles.effect.
  set (isReset := negb (sceneVersion =? lastSceneVersionRef s)%Z).
  set (isRestoring := (isReset && (0 <? length transcript))%bool).
  destruct transcript as [|c transcript].
  - destruct (isReset && negb isRestoring)%bool; simpl; auto.
  - assert (Hr : (isReset && negb isRestoring)%bool = false).
    { unfold isRestoring. simpl. rewrite andb_true_r. apply andb_negb_r. }
    rewrite Hr.
    set (s2 := if (isRestoring && negb (initialSpawnRef s))%bool
               then set_tracking s [] (lastSceneVersionRef s) true else s).
    assert (H2 : particles s2 = particles s).
    { unfold s2. destruct (isRestoring && negb (initialSpawnRef s))%bool;
        reflexivity. }
    destruct (0 <? length (newPartOf isReset isRestoring (c :: transcript)
                             (lastTranscriptRef s2))).
    + unfold TextParticles.spawnBatch.
      destruct (MAX_CHARS <? _) eqn:E; simpl.
      * right. right. rewrite length_skipn. apply Nat.ltb_lt in E. lia.
      * right. right. apply Nat.ltb_ge in E. exact E.
    + simpl. left. exact H2.
Qed.

(** The list of live glyph particles never holds more than 500 entries. *)
Lemma steps_capped (events : list Event) (v : Z) :
  length (particles (steps (mounted v) events)) <= MAX_CHARS.
Proof.
  assert (Hgen : forall events s,
             length (particles s) <= MAX_CHARS ->
             length (particles (steps s events)) <= MAX_CHARS).
  { clear. induction events as [|e events IH]; intros s Hs; simpl; [exact Hs|].
    apply IH. destruct e as [f|transcript v t rnd|key m|key]; simpl.
    - destruct (tick_keeps f s) as [-> _]. exact Hs.
    - destruct (effect_particles s transcript v t rnd) as [->|[->|H]];
        [exact Hs|simpl; lia|exact H].
    - exact Hs.
    - exact Hs. }
  apply Hgen. simpl. lia.
Qed.


(** How the effect chooses what to spawn once the transcript is not empty. *)
Lemma effect_batch (s : System) (transcript : jsstring)
    (sceneVersion t : Z) (Math_random : nat -> Q) (isReset : bool) :
  transcript <> [] ->
  isReset = negb (sceneVersion =? lastSceneVersionRef s)%Z ->
  let previousText :=
    if (isReset && negb (initialSpawnRef s))%bool then []
    else lastTranscriptRef s in
  let newPart := newPartOf isReset isReset transcript previousText in
  let after := fst (effect s transcript sceneVersion t Math_random) in
  snd (effect s transcript sceneVersion t Math_random)
    = newParticleObjs isReset (totalCharCountRef s) (length newPart) t
        Math_random 0 newPart /\
  totalCharCountRef after
    = (if isReset then length newPart
       else totalCharCountRef s + length newPart).
Proof.
  intros Hne Hreset previousText newPart.
  destruct transcript as [|c transcript]; [congruence|].
  unfold TextParticles.effect. rewrite <- Hreset.
  assert (His : (isReset && (0 <? length (c :: transcript)))%bool = isReset).
  { simpl. apply andb_true_r. }
  rewrite His, andb_negb_r.
  set (s2 := if (isReset && negb (initialSpawnRef s))%bool
             then set_tracking s [] (lastSceneVersionRef s) true else s).
  assert (Hprev : lastTranscriptRef s2 = previousText).
  { unfold s2, previousText.
    destruct (isReset && negb (initialSpawnRef s))%bool; reflexivity. }
  assert (Htot : totalCharCountRef s2 = totalCharCountRef s).
  { unfold s2. destruct (isReset && negb (initialSpawnRef s))%bool; reflexivity. }
  rewrite Hprev. fold newPart.
  destruct (0 <? length newPart) eqn:E.
  - unfold TextParticles.spawnBatch. rewrite Htot.
    destruct (MAX_CHARS <? _); simpl; split; reflexivity.
  - apply Nat.ltb_ge in E.
    assert (Hnil : newPart = []) by (destruct newPart; simpl in *; [reflexivity|lia]).
    rewrite Hnil. simpl. rewrite Htot. split; [reflexivity|].
    destruct isReset; [|lia].
    unfold newPart, newPartOf in Hnil. discriminate Hnil.
Qed.

Lemma newParticleObjs_nth (isRestoring : bool) (total count : nat) (t : Z)
    (Math_random : nat -> Q) (newChars : jsstring) (i k : nat) (p : TextParticle) :
  nth_error (newParticleObjs isRestoring total count t Math_random i newChars) k
    = Some p ->
  nth_error newChars k = Some (char p) /\
  phase p = spawn /\
  spawnTime p = t /\
  morphTime p = (t + 3500)%Z /\
  flyStartTime p = 0%Z /\
  delay p = (Z.of_nat (i + k) * 80)%Z /\
  id p = idString (Math_random (i + k)) (i + k) t.
Proof.
  revert i k. induction newChars as [|c rest IH]; intros i k H.
  - destruct k; discriminate.
  - destruct k as [|k]; simpl in H.
    + inversion H; subst; simpl. rewrite Nat.add_0_r. repeat split.
    + apply IH in H. replace (i + S k) with (S i + k) by lia. exact H.
Qed.

Lemma sameGlyph_refl (p : TextParticle) : sameGlyph p p.
Proof. repeat split. Qed.

Lemma sameGlyph_trans (p q r : TextParticle) :
  sameGlyph p q -> sameGlyph q r -> sameGlyph p r.
Proof.
  unfold sameGlyph.
  intros (A1 & A2 & A3 & A4 & A5 & A6 & A7 & A8 & A9 & A10 & A11)
         (B1 & B2 & B3 & B4 & B5 & B6 & B7 & B8 & B9 & B10 & B11).
  repeat split; congruence.
Qed.

Lemma tickParticle_sameGlyph (f : Frame) (p : TextParticle) (m : Mesh) :
  sameGlyph p (fst (tickParticle f p m)).
Proof.
  unfold TextParticles.tickParticle.
  destruct (phase p).
  - unfold tickSpawn. simpl. destruct (_ <=? _)%Z; repeat split.
  - apply sameGlyph_refl.
  - unfold tickFly. simpl. destruct (geb _ 1 || _)%bool; repeat split.
  - repeat split.
Qed.

Lemma heapRelated_refl (h : list TextParticle) : heapRelated sameGlyph h h.
Proof. intros ref p H. exists p. split; [exact H|apply sameGlyph_refl]. Qed.

Lemma heapRelated_trans (h1 h2 h3 : list TextParticle) :
  heapRelated sameGlyph h1 h2 -> heapRelated sameGlyph h2 h3 ->
  heapRelated sameGlyph h1 h3.
Proof.
  intros H12 H23 ref p H.
  destruct (H12 ref p H) as [p2 [H2 R2]].
  destruct (H23 ref p2 H2) as [p3 [H3 R3]].
  exists p3. split; [exact H3|]. eapply sameGlyph_trans; eassumption.
Qed.

Lemma tickEntry_sameGlyph (f : Frame) (s : System) (entry : jsstring * nat) :
  heapRelated sameGlyph (heap s) (heap (tickEntry f s entry)).
Proof.
  destruct entry as [key ref]. unfold TextParticles.tickEntry.
  destruct (nth_error (heap s) ref) as [p|] eqn:Hp; [|apply heapRelated_refl].
  destruct (map_get (textRefs s) key) as [m|]; [|apply heapRelated_refl].
  pose proof (tickParticle_sameGlyph f p m) as Hsame.
  destruct (tickParticle f p m) as [p' m']. simpl in *.
  intros r q Hq. destruct (Nat.eq_dec r ref) as [->|Hne].
  - exists p'. split; [now apply store_same with (q := p)|].
    rewrite Hp in Hq. inversion Hq; subst. exact Hsame.
  - exists q. rewrite store_other by exact Hne.
    split; [exact Hq|apply sameGlyph_refl].
Qed.

Lemma step_sameGlyph (s : System) (e : Event) :
  heapRelated sameGlyph (heap s) (heap (step s e)).
Proof.
  destruct e as [f|transcript v t rnd|key m|key]; simpl;
    try apply heapRelated_refl.
  - unfold TextParticles.tick. destruct (readingMode f); [apply heapRelated_refl|].
    generalize (physicsStateRef s) as entries. intro entries. revert s.
    induction entries as [|e entries IH]; intro s; simpl.
    + apply heapRelated_refl.
    + eapply heapRelated_trans; [apply tickEntry_sameGlyph|apply IH].
  - rewrite (effect_heap Math_sin Math_cos Math_PI idString).
    intros ref p H. exists p. split; [|apply sameGlyph_refl].
    rewrite nth_error_app1; [exact H|]. apply nth_error_Some. congruence.
Qed.

(** X13. Whatever frames, prop changes and mesh attachments follow, a
    particle object keeps its id, its character, its velocity, its rotation,
    its spawn and hold times, its stagger delay, its hold, dock and control
    points and its colour, that is every field but three: the physics loop
    writes only its position, its phase and the start of its flight. *)
Theorem glyph_identity_kept (events : list Event) (s : System) (ref : nat)
    (p : TextParticle) :
  nth_error (heap s) ref = Some p ->
  exists p', nth_error (heap (steps s events)) ref = Some p' /\ sameGlyph p p'.
Proof.
  revert s p. induction events as [|e events IH]; intros s p Hp; simpl.
  - exists p. split; [exact Hp|apply sameGlyph_refl].
  - destruct (@step_sameGlyph s e ref p Hp) as [p1 [H1 R1]].
    destruct (IH _ _ H1) as [p' [Hp' R']].
    exists p'. split; [exact Hp'|]. eapply sameGlyph_trans; eassumption.
Qed.

Lemma progress_complete (elapsed : Z) :
  geb (Qmax 0 (Qmin 1 (inject_Z elapsed / 2500))) 1 = true
  <-> (2500 <= elapsed)%Z.
Proof.
  unfold geb. rewrite Qle_bool_iff.
  assert (Hdiv : (1 <= inject_Z elapsed / 2500)%Q <-> (2500 <= elapsed)%Z).
  { split; intro H.
    - assert (H' : (2500 <= inject_Z elapsed)%Q).
      { setoid_replace (inject_Z elapsed)
          with (inject_Z elapsed / 2500 * 2500)%Q by field. lra. }
      change 2500%Q with (inject_Z 2500) in H'. now rewrite <- Zle_Qle in H'.
    - apply Qle_shift_div_l; [reflexivity|].
      change (1 * 2500)%Q with (inject_Z 2500). now rewrite <- Zle_Qle. }
  rewrite <- Hdiv. split; intro H.
  - destruct (Q.max_spec 0 (Qmin 1 (inject_Z elapsed / 2500)))
      as [[_ Heq]|[_ Heq]]; rewrite Heq in H.
    + eapply Qle_trans; [exact H|apply Q.le_min_r].
    + exfalso. apply (Qlt_not_le 0 1); [reflexivity|exact H].
  - rewrite (Q.min_l 1 _ H). apply Q.le_max_r.
Qed.

(** X14. A particle in the spawn phase that has a mesh turns to fly at the
    first frame at or after its hold ends, with its flight starting after
    its stagger delay; a particle in flight docks exactly at the first
    frame 2500 ms or more after the start of its flight, so the test of the
    4000 ms timeout never decides. *)
Theorem flight_schedule (f : Frame) (p : TextParticle) (m : Mesh) :
  let q := fst (tickParticle f p m) in
  (phase p = spawn ->
   (phase q = fly <-> (morphTime p <= now f)%Z) /\
   (phase q = fly -> flyStartTime q = (now f + delay p)%Z)) /\
  (phase p = fly ->
   (phase q = dock <-> (2500 <= now f - flyStartTime p)%Z) /\
   flyStartTime q = flyStartTime p).
Proof.
  unfold TextParticles.tickParticle. split; intro Hph; rewrite Hph.
  - unfold tickSpawn. simpl.
    destruct (morphTime p <=? now f)%Z eqn:E; simpl.
    + apply Z.leb_le in E. repeat split; auto.
    + apply Z.leb_gt in E. rewrite Hph. split.
      * split; [discriminate|lia].
      * discriminate.
  - unfold tickFly. simpl.
    destruct (geb (Qmax 0 (Qmin 1 (inject_Z (now f - flyStartTime p) / 2500))) 1)
      eqn:Eg; simpl.
    + apply progress_complete in Eg. repeat split; auto.
    + destruct (4000 <? now f - flyStartTime p)%Z eqn:Et; simpl.
      * apply Z.ltb_lt in Et.
        assert (Hc : (2500 <= now f - flyStartTime p)%Z) by lia.
        apply progress_complete in Hc. congruence.
      * rewrite Hph. split; [|reflexivity].
        split; [discriminate|].
        intro Hc. apply progress_complete in Hc. congruence.
Qed.



(** *** The live list and the physics map *)

Lemma seq_sorted (a n : nat) : StronglySorted lt (seq a n).
Proof.
  revert a. induction n as [|n IH]; intro a; simpl; constructor.
  - apply IH.
  - apply Forall_forall. intros x Hx. apply in_seq in Hx. lia.
Qed.

Lemma sorted_app (l1 l2 : list nat) :
  StronglySorted lt l1 -> StronglySorted lt l2 ->
  (forall x y, In x l1 -> In y l2 -> x < y) ->
  StronglySorted lt (l1 ++ l2).
Proof.
  intros H1 H2 H. induction l1 as [|a l1 IH]; simpl; [exact H2|].
  inversion H1; subst. constructor.
  - apply IH; [assumption|]. intros x y Hx Hy. apply H; simpl; auto.
  - apply Forall_app. split; [assumption|].
    apply Forall_forall. intros y Hy. apply H; simpl; auto.
Qed.

Lemma sorted_app_inv (l1 l2 : list nat) :
  StronglySorted lt (l1 ++ l2) ->
  StronglySorted lt l2 /\ forall x y, In x l1 -> In y l2 -> x < y.
Proof.
  induction l1 as [|a l1 IH]; simpl; intro H.
  - split; [exact H|]. intros x y [].
  - inversion H; subst. destruct (IH H2) as [Hs Hlt]. split; [exact Hs|].
    intros x y [<-|Hx] Hy.
    + rewrite Forall_forall in H3. apply H3. apply in_or_app. now right.
    + now apply Hlt.
Qed.

(** In a list in growing order, what lies above a kept entry is kept. *)
Lemma sorted_suffix_upward (l : list nat) (d x y : nat) :
  StronglySorted lt l -> In x (skipn d l) -> In y l -> x <= y ->
  In y (skipn d l).
Proof.
  intros Hs Hx Hy Hle.
  rewrite <- (firstn_skipn d l) in Hs, Hy.
  destruct (sorted_app_inv _ _ Hs) as [_ Hlt].
  apply in_app_or in Hy. destruct Hy as [Hy|Hy]; [|exact Hy].
  specialize (Hlt y x Hy Hx). lia.
Qed.

Lemma skipn_In (A : Type) (d : nat) (l : list A) (x : A) :
  In x (skipn d l) -> In x l.
Proof.
  intro H. rewrite <- (firstn_skipn d l). apply in_or_app. now right.
Qed.

(** What the map holds under a key once a batch is registered: the last
    object of the batch with that id, or what it held before. *)
Lemma setAll_get (m : list (jsstring * nat)) (batch : list TextParticle)
    (first : nat) (k : jsstring) (r : nat) :
  map_get (setAll m batch first) k = Some r ->
  (exists j p,
     nth_error batch j = Some p /\ id p = k /\ r = first + j /\
     forall j' p', j < j' -> nth_error batch j' = Some p' -> id p' <> k)
  \/ (~ In k (map id batch) /\ map_get m k = Some r).
Proof.
  revert m first. induction batch as [|p batch IH]; intros m first H.
  - right. split; [simpl; tauto|exact H].
  - simpl in H. apply IH in H.
    destruct H as [(j & q & Hj & Hid & Hr & Hlast) | [Hnot Hget]].
    + left. exists (S j), q. split; [exact Hj|]. split; [exact Hid|].
      split; [lia|].
      intros [|j'] p' Hlt Hn; [lia|]. simpl in Hn.
      apply (Hlast j' p'); [lia|exact Hn].
    + destruct (str_eqb (id p) k) eqn:E.
      * apply str_eqb_eq in E. left. exists 0, p.
        split; [reflexivity|]. split; [exact E|].
        rewrite <- E, map_get_set_same in Hget. inversion Hget.
        split; [lia|].
        intros [|j'] p' Hlt Hn; [lia|]. simpl in Hn.
        intro Hid. apply Hnot. rewrite <- Hid. apply in_map.
        eapply nth_error_In; eassumption.
      * assert (Hne : id p <> k).
        { intro Heq. apply str_eqb_eq in Heq. congruence. }
        right. split.
        -- simpl. intros [H1|H1]; tauto.
        -- rewrite map_get_set_other in Hget by congruence. exact Hget.
Qed.

Lemma setAll_keys (m : list (jsstring * nat)) (batch : list TextParticle)
    (ref : nat) (k : jsstring) :
  In k (map fst (setAll m batch ref))
  <-> In k (map fst m) \/ In k (map id batch).
Proof.
  revert m ref. induction batch as [|p batch IH]; intros m ref; simpl.
  - intuition.
  - rewrite IH, map_set_keys. intuition.
Qed.

(** The last object of a batch with its id is the one the map holds. *)
Lemma setAll_get_last (m : list (jsstring * nat)) (batch : list TextParticle)
    (first j : nat) (p : TextParticle) :
  nth_error batch j = Some p ->
  (forall j' p', j < j' -> nth_error batch j' = Some p' -> id p' <> id p) ->
  map_get (setAll m batch first) (id p) = Some (first + j).
Proof.
  intros Hj Hlast.
  assert (Hin : In (id p) (map id batch)).
  { apply in_map. eapply nth_error_In; eassumption. }
  assert (Hkey : In (id p) (map fst (setAll m batch first))).
  { apply setAll_keys. now right. }
  apply map_get_keys in Hkey. destruct Hkey as [r Hr]. rewrite Hr.
  apply setAll_get in Hr.
  destruct Hr as [(j0 & q & Hj0 & Hid & -> & Hlast0) | [Hnot _]]; [|tauto].
  destruct (Nat.lt_trichotomy j0 j) as [Hlt | [-> | Hlt]].
  - exfalso. now apply (Hlast0 j p Hlt Hj).
  - reflexivity.
  - exfalso. now apply (Hlast j0 q Hlt Hj0).
Qed.

Lemma filter_keys (V : Type) (f : jsstring -> bool) (m : list (jsstring * V))
    (k : jsstring) :
  In k (map fst (filter (fun e => f (fst e)) m))
  <-> In k (map fst m) /\ f k = true.
Proof.
  rewrite !in_map_iff. split.
  - intros [[k' v] [<- Hin]]. apply filter_In in Hin. destruct Hin as [Hin Hf].
    split; [exists (k', v); now split|exact Hf].
  - intros [[[k' v] [<- Hin]] Hf]. exists (k', v). split; [reflexivity|].
    apply filter_In. now split.
Qed.

Lemma keepsId_spec (h : list TextParticle) (keep : list nat) (k : jsstring) :
  keepsId h keep k = true <-> In (Some k) (idsOf h keep).
Proof.
  unfold keepsId, idsOf. rewrite existsb_exists, in_map_iff.
  split; intros [ref [H1 H2]]; exists ref.
  - destruct (nth_error h ref) as [p|]; [|discriminate].
    apply str_eqb_eq in H2. subst. now split.
  - split; [exact H2|]. destruct (nth_error h ref) as [p|]; [|discriminate].
    inversion H1. now apply str_eqb_eq.
Qed.

Lemma live_grow (h batch : list TextParticle) (refs : list nat) :
  Forall (fun ref => ref < length h) refs ->
  map (nth_error (h ++ batch)) refs = map (nth_error h) refs.
Proof.
  intro H. apply map_ext_in. intros ref Hin.
  rewrite Forall_forall in H. now rewrite nth_error_app1 by (apply H; exact Hin).
Qed.

Lemma live_batch (h batch : list TextParticle) :
  map (nth_error (h ++ batch)) (seq (length h) (length batch)) = map Some batch.
Proof.
  revert h. induction batch as [|p batch IH]; intro h; simpl.
  - reflexivity.
  - rewrite nth_error_app2 by lia. rewrite Nat.sub_diag. simpl. f_equal.
    specialize (IH (h ++ [p])). rewrite <- app_assoc in IH. simpl in IH.
    rewrite length_app in IH. simpl in IH. rewrite Nat.add_1_r in IH.
    exact IH.
Qed.

Lemma idsOf_live (h : list TextParticle) (refs : list nat) :
  idsOf h refs = map (option_map id) (map (nth_error h) refs).
Proof. unfold idsOf. now rewrite map_map. Qed.

Lemma idsOf_grow (h batch : list TextParticle) (refs : list nat) :
  Forall (fun ref => ref < length h) refs ->
  idsOf (h ++ batch) refs = idsOf h refs.
Proof.
  intro H. now rewrite !idsOf_live, live_grow.
Qed.

Lemma idsOf_batch (h batch : list TextParticle) :
  idsOf (h ++ batch) (seq (length h) (length batch)) = map Some (map id batch).
Proof.
  rewrite idsOf_live, live_batch, !map_map. reflexivity.
Qed.

Lemma lastN_all (A : Type) (n : nat) (l : list A) :
  length l <= n -> lastN n l = l.
Proof.
  intro H. unfold lastN. replace (length l - n) with 0 by lia. reflexivity.
Qed.

(** The batch goes to the end of the live list, which is then cut to its
    newest entries. *)
Lemma spawnBatch_live (s : System) (isRestoring : bool) (t : Z)
    (Math_random : nat -> Q) (newPart : jsstring) :
  Forall (fun ref => ref < length (heap s)) (particles s) ->
  let out := spawnBatch s isRestoring t Math_random newPart in
  liveParticles (fst out)
  = lastN MAX_CHARS (liveParticles s ++ map Some (snd out)).
Proof.
  intro Hrefs. unfold TextParticles.spawnBatch.
  set (batch := newParticleObjs isRestoring (totalCharCountRef s)
                  (length newPart) t Math_random 0 newPart).
  set (combined := particles s ++ seq (length (heap s)) (length batch)).
  assert (Hmap : map (nth_error (heap s ++ batch)) combined
                 = liveParticles s ++ map Some batch).
  { unfold combined. rewrite map_app, live_grow by exact Hrefs.
    now rewrite live_batch. }
  assert (Hlen : length (liveParticles s ++ map Some batch) = length combined).
  { rewrite <- Hmap. apply length_map. }
  cbv zeta.
  destruct (MAX_CHARS <? length combined) eqn:E; cbn [fst snd];
    unfold liveParticles at 1; cbn [heap particles].
  - rewrite <- skipn_map, Hmap. unfold lastN. now rewrite Hlen.
  - rewrite Hmap. symmetry. apply lastN_all. rewrite Hlen.
    now apply Nat.ltb_ge.
Qed.

Lemma spawnBatch_inSync (s : System) (isRestoring : bool) (t : Z)
    (Math_random : nat -> Q) (newPart : jsstring) :
  inSync s -> inSync (fst (spawnBatch s isRestoring t Math_random newPart)).
Proof.
  intros (Hkeys & Hnewest & Hrefs & Hsorted). unfold TextParticles.spawnBatch.
  set (batch := newParticleObjs isRestoring (totalCharCountRef s)
                  (length newPart) t Math_random 0 newPart).
  set (h := heap s ++ batch).
  set (physics := setAll (physicsStateRef s) batch (length (heap s))).
  set (combined := particles s ++ seq (length (heap s)) (length batch)).
  assert (Hold : forall ref, In ref (particles s) -> ref < length (heap s)).
  { now apply Forall_forall. }
  assert (Hvalid : Forall (fun ref => ref < length h) combined).
  { unfold combined, h. apply Forall_app. split.
    - eapply Forall_impl; [|exact Hrefs]. intros ref Hr. simpl in Hr.
      rewrite length_app. lia.
    - apply Forall_forall. intros ref Hin. apply in_seq in Hin.
      rewrite length_app. lia. }
  assert (Horder : StronglySorted lt combined).
  { unfold combined. apply sorted_app; [exact Hsorted|apply seq_sorted|].
    intros x y Hx Hy. apply Hold in Hx. apply in_seq in Hy. lia. }
  assert (Hall : forall k, In k (map fst physics) <-> In (Some k) (idsOf h combined)).
  { intro k. unfold physics, combined, h. rewrite setAll_keys.
    unfold idsOf at 1. rewrite map_app. fold (idsOf (heap s ++ batch) (particles s)).
    fold (idsOf (heap s ++ batch) (seq (length (heap s)) (length batch))).
    rewrite in_app_iff, idsOf_grow by exact Hrefs. rewrite idsOf_batch, Hkeys.
    rewrite (in_map_iff Some). split.
    - intros [H|H]; [now left|right; exists k; now split].
    - intros [H|[k' [[= ->] H]]]; [now left|now right]. }
  assert (Hbatch : forall j, nth_error h (length (heap s) + j) = nth_error batch j).
  { intro j. unfold h. rewrite nth_error_app2 by lia. f_equal. lia. }
  assert (Hnew : forall k ref,
             map_get physics k = Some ref ->
             In ref combined /\
             option_map id (nth_error h ref) = Some k /\
             forall ref', In ref' combined ->
                          option_map id (nth_error h ref') = Some k ->
                          ref' <= ref).
  { intros k ref Hget. unfold physics in Hget. apply setAll_get in Hget.
    destruct Hget as [(j & p & Hj & Hid & -> & Hlast) | [Hnot Hget]].
    - assert (Hjlt : j < length batch) by (apply nth_error_Some; congruence).
      split; [unfold combined; apply in_or_app; right; apply in_seq; lia|].
      split; [rewrite Hbatch, Hj; simpl; now rewrite Hid|].
      intros ref' Hin Hid'. unfold combined in Hin. apply in_app_or in Hin.
      destruct Hin as [Hin|Hin]; [apply Hold in Hin; lia|].
      apply in_seq in Hin.
      destruct (Nat.le_gt_cases ref' (length (heap s) + j)) as [|Hgt];
        [assumption|exfalso].
      replace ref' with (length (heap s) + (ref' - length (heap s))) in Hid'
        by lia.
      rewrite Hbatch in Hid'.
      destruct (nth_error batch (ref' - length (heap s))) as [p'|] eqn:Hp';
        [|discriminate].
      simpl in Hid'. inversion Hid'.
      apply (Hlast (ref' - length (heap s)) p'); [lia|exact Hp'|assumption].
    - destruct (Hnewest k ref Hget) as (Hin & Hid & Hmax).
      assert (Hsame : forall r, r < length (heap s) ->
                                nth_error h r = nth_error (heap s) r).
      { intros r Hr. unfold h. now apply nth_error_app1. }
      split; [unfold combined; apply in_or_app; now left|].
      split; [rewrite Hsame by (now apply Hold); exact Hid|].
      intros ref' Hin' Hid'. unfold combined in Hin'. apply in_app_or in Hin'.
      destruct Hin' as [Hin'|Hin'].
      + apply Hmax; [exact Hin'|]. rewrite <- Hsame by (now apply Hold).
        exact Hid'.
      + exfalso. apply in_seq in Hin'.
        replace ref' with (length (heap s) + (ref' - length (heap s))) in Hid'
          by lia.
        rewrite Hbatch in Hid'.
        destruct (nth_error batch (ref' - length (heap s))) as [p'|] eqn:Hp';
          [|discriminate].
        simpl in Hid'. inversion Hid'. apply Hnot. subst k. apply in_map.
        eapply nth_error_In; eassumption. }
  destruct (MAX_CHARS <? length combined); simpl;
    [|split; [exact Hall|split; [exact Hnew|split; assumption]]].
  set (keep := skipn (length combined - MAX_CHARS) combined).
  assert (Hsub : forall x, In x keep -> In x combined).
  { intros x Hx. now apply skipn_In in Hx. }
  split; [|split; [|split]].
  - intro k. cbn [physicsStateRef particles heap].
    rewrite (filter_keys (keepsId h keep)), keepsId_spec, Hall.
    split; [tauto|]. intro Hk. split; [|exact Hk].
    unfold idsOf in *. apply in_map_iff in Hk. destruct Hk as [ref [H1 H2]].
    apply in_map_iff. exists ref. split; [exact H1|now apply Hsub].
  - intros k ref Hget. cbn [physicsStateRef particles heap] in *.
    rewrite (map_get_filter (keepsId h keep)) in Hget.
    destruct (keepsId h keep k) eqn:Hkeep; [|discriminate].
    destruct (Hnew k ref Hget) as (Hin & Hid & Hmax).
    apply keepsId_spec in Hkeep. unfold idsOf in Hkeep.
    apply in_map_iff in Hkeep. destruct Hkeep as [r0 [Hid0 Hin0]].
    split; [|split; [exact Hid|]].
    + apply (@sorted_suffix_upward combined _ r0 ref Horder Hin0 Hin).
      apply Hmax; [now apply Hsub|exact Hid0].
    + intros ref' Hin' Hid'. apply Hmax; [now apply Hsub|exact Hid'].
  - cbn [particles heap].
    apply Forall_forall. intros ref Hin. rewrite Forall_forall in Hvalid.
    apply Hvalid. now apply Hsub.
  - cbn [particles]. unfold keep.
    rewrite <- (firstn_skipn (length combined - MAX_CHARS) combined) in Horder.
    now apply sorted_app_inv in Horder.
Qed.

Lemma inSync_empty (h : list TextParticle) (refs : list (jsstring * Mesh))
    (last : jsstring) (v : Z) (total : nat) (flag : bool) :
  inSync {| heap := h; particles := []; physicsStateRef := [];
            textRefs := refs; lastTranscriptRef := last;
            lastSceneVersionRef := v; totalCharCountRef := total;
            initialSpawnRef := flag |}.
Proof.
  split; [intro k; simpl; tauto|].
  split; [intros k ref H; discriminate|].
  split; constructor.
Qed.

Lemma effect_inSync (s : System) (transcript : jsstring)
    (sceneVersion t : Z) (Math_random : nat -> Q) :
  inSync s -> inSync (fst (effect s transcript sceneVersion t Math_random)).
Proof.
  intro Hs. unfold TextParticles.effect.
  set (isReset := negb (sceneVersion =? lastSceneVersionRef s)%Z).
  set (isRestoring := (isReset && (0 <? length transcript))%bool).
  set (s1 := if (isReset && negb isRestoring)%bool
             then hardReset s sceneVersion else s).
  assert (H1 : inSync s1).
  { unfold s1. destruct (isReset && negb isRestoring)%bool; [|exact Hs].
    apply inSync_empty. }
  destruct transcript as [|c transcript]; [exact H1|].
  set (s2 := if (isRestoring && negb (initialSpawnRef s1))%bool
             then set_tracking s1 [] (lastSceneVersionRef s1) true else s1).
  assert (H2 : inSync s2).
  { unfold s2. destruct (isRestoring && negb (initialSpawnRef s1))%bool; exact H1. }
  destruct (0 <? length (newPartOf isReset isRestoring (c :: transcript)
                           (lastTranscriptRef s2))).
  - pose proof (@spawnBatch_inSync s2 isRestoring t Math_random
                  (newPartOf isReset isRestoring (c :: transcript)
                     (lastTranscriptRef s2)) H2) as H3.
    destruct (spawnBatch s2 isRestoring t Math_random _) as [s3 batch].
    exact H3.
  - exact H2.
Qed.

Lemma store_length (h : list TextParticle) (ref : nat) (p : TextParticle) :
  length (store h ref p) = length h.
Proof.
  revert ref. induction h as [|q h IH]; intros [|ref]; simpl; auto.
Qed.

Lemma tickEntry_ids (f : Frame) (s : System) (entry : jsstring * nat) (r : nat) :
  option_map id (nth_error (heap (tickEntry f s entry)) r)
  = option_map id (nth_error (heap s) r) /\
  length (heap (tickEntry f s entry)) = length (heap s).
Proof.
  destruct entry as [key ref]. unfold TextParticles.tickEntry.
  destruct (nth_error (heap s) ref) as [p|] eqn:Hp; [|now split].
  destruct (map_get (textRefs s) key) as [m|]; [|now split].
  destruct (tickParticle_sameGlyph f p m) as [Hid _].
  destruct (tickParticle f p m) as [p' m']. simpl in *.
  split; [|apply store_length].
  destruct (Nat.eq_dec r ref) as [->|Hne].
  - rewrite (store_same _ _ p' Hp), Hp. simpl. now rewrite Hid.
  - now rewrite store_other.
Qed.

Lemma tickEntries_ids (f : Frame) (entries : list (jsstring * nat))
    (s : System) (r : nat) :
  option_map id (nth_error (heap (fold_left (tickEntry f) entries s)) r)
  = option_map id (nth_error (heap s) r) /\
  length (heap (fold_left (tickEntry f) entries s)) = length (heap s).
Proof.
  revert s. induction entries as [|e entries IH]; intro s; simpl; [now split|].
  destruct (tickEntry_ids f s e r) as [H1 H2].
  destruct (IH (tickEntry f s e)) as [H3 H4].
  split; congruence.
Qed.

Lemma tick_inSync (f : Frame) (s : System) : inSync s -> inSync (tick f s).
Proof.
  intros (Hkeys & Hnewest & Hrefs & Hsorted).
  destruct (tick_keeps f s) as (Hp & Hm & _).
  assert (Hids : forall r,
             option_map id (nth_error (heap (tick f s)) r)
             = option_map id (nth_error (heap s) r)
             /\ length (heap (tick f s)) = length (heap s)).
  { intro r. unfold TextParticles.tick. destruct (readingMode f); [now split|].
    apply tickEntries_ids. }
  split; [|split; [|split]].
  - intro k. rewrite Hm, Hp, Hkeys. unfold idsOf.
    assert (Heq : map (fun ref => option_map id (nth_error (heap (tick f s)) ref))
                    (particles s)
                  = map (fun ref => option_map id (nth_error (heap s) ref))
                      (particles s)).
    { apply map_ext. intro r. apply Hids. }
    rewrite Heq. tauto.
  - intros k ref Hget. rewrite Hm in Hget. rewrite Hp.
    destruct (Hnewest k ref Hget) as (Hin & Hid & Hmax).
    split; [exact Hin|]. split.
    + destruct (Hids ref) as [-> _]. exact Hid.
    + intros ref' Hin' Hid'. apply Hmax; [exact Hin'|].
      destruct (Hids ref') as [<- _]. exact Hid'.
  - rewrite Hp. destruct (Hids 0) as [_ Hlen]. rewrite Hlen. exact Hrefs.
  - rewrite Hp. exact Hsorted.
Qed.

Lemma step_inSync (s : System) (e : Event) : inSync s -> inSync (step s e).
Proof.
  intro Hs. destruct e as [f|transcript v' t rnd|key m|key]; simpl.
  - now apply tick_inSync.
  - now apply effect_inSync.
  - exact Hs.
  - exact Hs.
Qed.

Lemma steps_inSync_from (events : list Event) (s : System) :
  inSync s -> inSync (steps s events).
Proof.
  revert s. induction events as [|e events IH]; intros s Hs; simpl; [exact Hs|].
  apply IH. now apply step_inSync.
Qed.

(** The physics map and the list of live particles hold the same glyphs. *)
Lemma steps_inSync (events : list Event) (v : Z) :
  inSync (steps (mounted v) events).
Proof.
  apply steps_inSync_from. apply inSync_empty.
Qed.

(** *** What an update does to the scene *)

(** The effect, once the transcript is not empty, puts its batch at the end
    of the live list and cuts the list to its newest 500 entries. *)
Lemma effect_live (s : System) (transcript : jsstring)
    (sceneVersion t : Z) (Math_random : nat -> Q) :
  transcript <> [] ->
  Forall (fun ref => ref < length (heap s)) (particles s) ->
  length (particles s) <= MAX_CHARS ->
  let out := effect s transcript sceneVersion t Math_random in
  liveParticles (fst out)
  = lastN MAX_CHARS (liveParticles s ++ map Some (snd out)).
Proof.
  intros Hne Hrefs Hcap. destruct transcript as [|c transcript]; [congruence|].
  unfold TextParticles.effect.
  set (isReset := negb (sceneVersion =? lastSceneVersionRef s)%Z).
  assert (His : (isReset && (0 <? length (c :: transcript)))%bool = isReset).
  { simpl. apply andb_true_r. }
  rewrite His, andb_negb_r.
  set (s2 := if (isReset && negb (initialSpawnRef s))%bool
             then set_tracking s [] (lastSceneVersionRef s) true else s).
  assert (Hh : heap s2 = heap s).
  { unfold s2. destruct (isReset && negb (initialSpawnRef s))%bool; reflexivity. }
  assert (Hp : particles s2 = particles s).
  { unfold s2. destruct (isReset && negb (initialSpawnRef s))%bool; reflexivity. }
  assert (Hl : liveParticles s2 = liveParticles s).
  { unfold liveParticles. now rewrite Hh, Hp. }
  cbv zeta.
  destruct (0 <? length (newPartOf isReset isReset (c :: transcript)
                           (lastTranscriptRef s2))).
  - assert (Hrefs2 : Forall (fun ref => ref < length (heap s2)) (particles s2)).
    { now rewrite Hh, Hp. }
    pose proof (@spawnBatch_live s2 isReset t Math_random
                  (newPartOf isReset isReset (c :: transcript)
                     (lastTranscriptRef s2)) Hrefs2) as Hlive.
    cbv zeta in Hlive.
    destruct (spawnBatch s2 isReset t Math_random _) as [s3 batch].
    cbn [fst snd] in *. rewrite <- Hl, <- Hlive. reflexivity.
  - cbn [fst snd map]. rewrite app_nil_r.
    rewrite lastN_all by (unfold liveParticles; now rewrite length_map).
    rewrite <- Hl. reflexivity.
Qed.

Lemma steps_capped_from (events : list Event) (s : System) :
  length (particles s) <= MAX_CHARS ->
  length (particles (steps s events)) <= MAX_CHARS.
Proof.
  revert s. induction events as [|e events IH]; intros s Hs; simpl; [exact Hs|].
  apply IH. destruct e as [f|transcript v t rnd|key m|key]; simpl.
  - destruct (tick_keeps f s) as [-> _]. exact Hs.
  - destruct (effect_particles s transcript v t rnd) as [->|[->|H]];
      [exact Hs|simpl; lia|exact H].
  - exact Hs.
  - exact Hs.
Qed.

(** Frames and mesh events leave the live list, the physics map and what
    the effect recorded as they are. *)
Lemma quiet_steps (between : list Event) (s : System) :
  Forall (fun e => isUpdate e = false) between ->
  particles (steps s between) = particles s /\
  physicsStateRef (steps s between) = physicsStateRef s /\
  lastTranscriptRef (steps s between) = lastTranscriptRef s /\
  lastSceneVersionRef (steps s between) = lastSceneVersionRef s /\
  totalCharCountRef (steps s between) = totalCharCountRef s.
Proof.
  revert s. induction between as [|e between IH]; intros s H.
  - repeat split.
  - inversion H; subst.
    change (steps s (e :: between)) with (steps (step s e) between).
    destruct (IH (step s e) H3) as (A & B & C & D & E).
    rewrite A, B, C, D, E.
    destruct e as [f|transcript v t rnd|key m|key];
      [apply tick_keeps|discriminate|repeat split|repeat split].
Qed.

(** The state of the component when an update with the text [previous] has
    been followed by frames and mesh events only. *)
Lemma after_update (v0 : Z) (history : list Event) (previous : jsstring)
    (sceneVersion t0 : Z) (Math_random0 : nat -> Q) (between : list Event) :
  previous <> [] ->
  Forall (fun e => isUpdate e = false) between ->
  let s := steps (fst (effect (steps (mounted v0) history) previous
                         sceneVersion t0 Math_random0)) between in
  lastTranscriptRef s = previous /\
  lastSceneVersionRef s = sceneVersion /\
  inSync s /\
  length (particles s) <= MAX_CHARS.
Proof.
  intros Hne Hquiet s.
  destruct (@quiet_steps between
              (fst (effect (steps (mounted v0) history) previous sceneVersion
                      t0 Math_random0)) Hquiet) as (_ & _ & Hlast & Hver & _).
  destruct (@effect_records_transcript Math_sin Math_cos Math_PI idString
              (steps (mounted v0) history) previous sceneVersion t0
              Math_random0 Hne) as [Hrec Hrecv].
  cbv zeta in Hrec, Hrecv.
  split; [unfold s; now rewrite Hlast|].
  split; [unfold s; now rewrite Hver|].
  split.
  - unfold s. apply steps_inSync_from, effect_inSync, steps_inSync.
  - unfold s. apply steps_capped_from.
    change (length (particles (step (steps (mounted v0) history)
                                 (Props previous sceneVersion t0 Math_random0)))
            <= MAX_CHARS).
    change (step (steps (mounted v0) history)
              (Props previous sceneVersion t0 Math_random0))
      with (steps (steps (mounted v0) history)
              [Props previous sceneVersion t0 Math_random0]).
    apply steps_capped_from, steps_capped.
Qed.


(** X10. At any time in the life of the component, when the scene version
    changed and the transcript is not empty (a restore), the effect spawns
    the whole transcript, one particle per character, whatever text was
    recorded before; the batch is added at the end of the live list, which
    keeps the glyphs it had and is cut to its newest 500 entries, so of a
    transcript of more than 500 characters only the last 500 glyphs stay;
    the physics map holds the live particles again; the character counter
    restarts at the length of the transcript, and the transcript and the
    scene version are recorded. *)
Theorem restore_spawns_whole_transcript (v0 : Z) (history : list Event)
    (transcript : jsstring) (sceneVersion t : Z) (Math_random : nat -> Q) :
  let s := steps (mounted v0) history in
  sceneVersion <> lastSceneVersionRef s ->
  transcript <> [] ->
  let after := fst (effect s transcript sceneVersion t Math_random) in
  let batch := snd (effect s transcript sceneVersion t Math_random) in
  map char batch = transcript /\
  liveParticles after = lastN MAX_CHARS (liveParticles s ++ map Some batch) /\
  inSync after /\
  totalCharCountRef after = length transcript /\
  lastTranscriptRef after = transcript /\
  lastSceneVersionRef after = sceneVersion.
Proof.
  intros s Hv Hne after batch.
  destruct (@effect_batch s transcript sceneVersion t Math_random _ Hne eq_refl)
    as [Hb Htot].
  destruct (@effect_records_transcript Math_sin Math_cos Math_PI idString
              s transcript sceneVersion t Math_random Hne) as [Hlast Hver].
  apply Z.eqb_neq in Hv. rewrite Hv in Hb, Htot. simpl in Hb, Htot.
  unfold newPartOf in Hb, Htot. simpl in Hb, Htot.
  pose proof (steps_inSync history v0) as Hsync. fold s in Hsync.
  split; [|split; [|split; [|split; [exact Htot|split; [exact Hlast|exact Hver]]]]].
  - unfold batch. rewrite Hb.
    apply (newParticleObjs_chars Math_sin Math_cos Math_PI idString).
  - apply effect_live; [exact Hne|apply Hsync|apply steps_capped].
  - now apply effect_inSync.
Qed.

(** X11. An update has shown the text [previous], and frames and mesh
    events only have followed. When the scene version is the same and the
    new transcript does not start with [previous], the effect spawns the
    whole transcript again, one particle per character, and adds its length
    to the character counter; the batch is added at the end of the live
    list, where the glyphs spawned before stay unless the cut to the newest
    500 entries evicts them; the physics map holds the live particles
    again. *)
Theorem changed_text_spawns_everything (v0 : Z) (history : list Event)
    (previous : jsstring) (sceneVersion t0 : Z) (Math_random0 : nat -> Q)
    (between : list Event)
    (transcript : jsstring) (t : Z) (Math_random : nat -> Q) :
  previous <> [] ->
  Forall (fun e => isUpdate e = false) between ->
  startsWith transcript previous = false ->
  let s := steps (fst (effect (steps (mounted v0) history) previous
                         sceneVersion t0 Math_random0)) between in
  let after := fst (effect s transcript sceneVersion t Math_random) in
  let batch := snd (effect s transcript sceneVersion t Math_random) in
  map char batch = transcript /\
  liveParticles after = lastN MAX_CHARS (liveParticles s ++ map Some batch) /\
  inSync after /\
  totalCharCountRef after = totalCharCountRef s + length transcript.
Proof.
  intros Hne Hquiet Hprefix s after batch.
  destruct (@after_update v0 history previous sceneVersion t0 Math_random0
              between Hne Hquiet) as (Hlast & Hver & Hsync & Hcap).
  fold s in Hlast, Hver, Hsync, Hcap.
  assert (Hcase : transcript = [] \/ transcript <> []).
  { destruct transcript; [left|right]; congruence. }
  destruct Hcase as [->|Htr].
  { unfold after, batch, TextParticles.effect.
    rewrite Hver, Z.eqb_refl. cbn [negb andb fst snd map length].
    rewrite app_nil_r, Nat.add_0_r.
    rewrite lastN_all by (unfold liveParticles; now rewrite length_map).
    split; [reflexivity|]. split; [reflexivity|].
    split; [exact Hsync|reflexivity]. }
  destruct (@effect_batch s transcript sceneVersion t Math_random _ Htr eq_refl)
    as [Hb Htot].
  rewrite Hver, Z.eqb_refl in Hb, Htot. cbn [negb andb] in Hb, Htot.
  unfold newPartOf in Hb, Htot. rewrite Hlast, Hprefix in Hb, Htot.
  cbn [negb andb] in Hb, Htot.
  split; [|split; [|split; [|exact Htot]]].
  - unfold batch. rewrite Hb.
    apply (newParticleObjs_chars Math_sin Math_cos Math_PI idString).
  - apply effect_live; [exact Htr|apply Hsync|exact Hcap].
  - now apply effect_inSync.
Qed.

(** Where an object of the batch goes: its reference is in the live list
    unless the cut evicts it at once, and the physics map keeps that
    reference under the id of the object when no later object of the batch
    has the same id. *)
Lemma spawnBatch_member (s : System) (isRestoring : bool) (t : Z)
    (Math_random : nat -> Q) (newPart : jsstring) (k : nat) (p : TextParticle) :
  let out := spawnBatch s isRestoring t Math_random newPart in
  nth_error (snd out) k = Some p ->
  length (snd out) - k <= MAX_CHARS ->
  In (length (heap s) + k) (particles (fst out)) /\
  nth_error (heap (fst out)) (length (heap s) + k) = Some p /\
  (NoDup (map id (snd out)) ->
   map_get (physicsStateRef (fst out)) (id p) = Some (length (heap s) + k)).
Proof.
  unfold TextParticles.spawnBatch.
  set (batch := newParticleObjs isRestoring (totalCharCountRef s)
                  (length newPart) t Math_random 0 newPart).
  set (h := heap s ++ batch).
  set (physics := setAll (physicsStateRef s) batch (length (heap s))).
  set (combined := particles s ++ seq (length (heap s)) (length batch)).
  cbv zeta.
  assert (Hout : forall x y : System,
             snd (if MAX_CHARS <? length combined then (x, batch) else (y, batch))
             = batch).
  { intros x y. now destruct (MAX_CHARS <? length combined). }
  rewrite Hout. intros Hk Hfit.
  assert (Hklt : k < length batch) by (apply nth_error_Some; congruence).
  assert (Hheap : nth_error h (length (heap s) + k) = Some p).
  { unfold h. rewrite nth_error_app2 by lia.
    replace (length (heap s) + k - length (heap s)) with k by lia. exact Hk. }
  assert (Hlook : NoDup (map id batch) ->
                  map_get physics (id p) = Some (length (heap s) + k)).
  { intro Hnd. unfold physics. apply setAll_get_last; [exact Hk|].
    intros j' p' Hlt Hj' Hid.
    rewrite NoDup_nth_error in Hnd.
    assert (Hsame : k = j').
    { apply Hnd; [now rewrite length_map|].
      rewrite !nth_error_map, Hk, Hj'. simpl. now rewrite Hid. }
    lia. }
  assert (Hkept : In (length (heap s) + k)
                    (skipn (length combined - MAX_CHARS) combined)).
  { unfold combined. rewrite length_app, length_seq, skipn_app.
    apply in_or_app. right. rewrite skipn_seq. apply in_seq. lia. }
  destruct (MAX_CHARS <? length combined); cbn [fst snd particles heap
    physicsStateRef].
  - split; [exact Hkept|]. split; [exact Hheap|].
    intro Hnd. rewrite (map_get_filter (keepsId h _)).
    assert (Hkeep : keepsId h (skipn (length combined - MAX_CHARS) combined)
                      (id p) = true).
    { apply keepsId_spec. unfold idsOf. apply in_map_iff.
      exists (length (heap s) + k). split; [now rewrite Hheap|exact Hkept]. }
    rewrite Hkeep. now apply Hlook.
  - split; [|split; [exact Hheap|exact Hlook]].
    now apply skipn_In in Hkept.
Qed.

(** X12. The particle spawned for the [k]-th character of a new part starts
    in the spawn phase, holds until 3500 ms after the effect ran, and
    carries a stagger delay of [80 * k] ms, so the glyphs of a phrase leave
    one after the other in reading order. Unless the batch is so long that
    the cut to 500 entries evicts it at once, the object is in the live
    list, and when the ids of the batch are pairwise distinct it is the
    object the physics map keeps under its id. *)
Theorem batch_is_staggered (s : System) (transcript : jsstring)
    (sceneVersion t : Z) (Math_random : nat -> Q) (k : nat) (p : TextParticle) :
  let after := fst (effect s transcript sceneVersion t Math_random) in
  let batch := snd (effect s transcript sceneVersion t Math_random) in
  nth_error batch k = Some p ->
  phase p = spawn /\
  spawnTime p = t /\
  morphTime p = (t + 3500)%Z /\
  delay p = (Z.of_nat k * 80)%Z /\
  id p = idString (Math_random k) k t /\
  (length batch - k <= MAX_CHARS ->
   In (length (heap s) + k) (particles after) /\
   nth_error (heap after) (length (heap s) + k) = Some p /\
   In (Some p) (liveParticles after) /\
   (NoDup (map id batch) -> physicsObject after (id p) = Some p)).
Proof.
  intros after batch H.
  destruct transcript as [|c transcript].
  { unfold batch, TextParticles.effect in H. simpl in H. destruct k; discriminate. }
  assert (Hne : c :: transcript <> []) by discriminate.
  destruct (@effect_batch s (c :: transcript) sceneVersion t Math_random
              _ Hne eq_refl) as [Hb _].
  split; [|split; [|split; [|split; [|split]]]];
    try (unfold batch in H; rewrite Hb in H; apply newParticleObjs_nth in H;
         simpl in H; apply H).
  intro Hfit.
  assert (Hgoal : In (length (heap s) + k) (particles after) /\
                  nth_error (heap after) (length (heap s) + k) = Some p /\
                  (NoDup (map id batch) ->
                   map_get (physicsStateRef after) (id p)
                   = Some (length (heap s) + k))).
  { revert H Hfit. unfold after, batch, TextParticles.effect.
    set (isReset := negb (sceneVersion =? lastSceneVersionRef s)%Z).
    assert (His : (isReset && (0 <? length (c :: transcript)))%bool = isReset).
    { simpl. apply andb_true_r. }
    rewrite His, andb_negb_r.
    set (s2 := if (isReset && negb (initialSpawnRef s))%bool
               then set_tracking s [] (lastSceneVersionRef s) true else s).
    assert (Hh : heap s2 = heap s).
    { unfold s2. destruct (isReset && negb (initialSpawnRef s))%bool;
        reflexivity. }
    destruct (0 <? length (newPartOf isReset isReset (c :: transcript)
                             (lastTranscriptRef s2))).
    - pose proof (@spawnBatch_member s2 isReset t Math_random
                    (newPartOf isReset isReset (c :: transcript)
                       (lastTranscriptRef s2)) k p) as Hm.
      cbv zeta in Hm. rewrite Hh in Hm.
      destruct (spawnBatch s2 isReset t Math_random _) as [s3 b].
      cbn [fst snd set_tracking particles heap physicsStateRef] in *.
      exact Hm.
    - cbn [fst snd]. intro Hnone. destruct k; discriminate. }
  destruct Hgoal as (Hin & Hheap & Hmap).
  split; [exact Hin|]. split; [exact Hheap|]. split.
  - unfold liveParticles. apply in_map_iff.
    exists (length (heap s) + k). now split.
  - intro Hnd. unfold physicsObject. now rewrite (Hmap Hnd).
Qed.

(** X15. From the moment the component is mounted, whatever frames, prop
    changes and mesh attachments follow, the list of live glyph particles
    never holds more than 500 entries, and the physics map and that list
    hold the same glyphs: the keys of the map are the ids of the live
    particles, and under each key the map keeps an object of the live list
    that carries the key as its id, the newest of them. *)
Theorem live_glyphs_capped_and_in_sync (events : list Event) (v : Z) :
  let s := steps (mounted v) events in
  length (particles s) <= MAX_CHARS /\ inSync s.
Proof.
  split; [apply steps_capped|apply steps_inSync].
Qed.

End TextParticleMoreFacts.

Section TextParticleMoreExamples.
Import JS TextParticles TextParticleData.
Open Scope nat_scope.

Local Abbreviation ex_effect := (effect ex_sin ex_cos ex_PI ex_idString).
Local Abbreviation ex_steps := (steps ex_sin ex_cos ex_sqrt ex_PI ex_idString).

(** Sixteen characters after three hundred: all 316 glyphs are live, and a
    further transcript of 300 leaves the newest 500. *)
Example crowded_scene_capped :
  length (particles ex_crowded) = 316 /\
  length (particles (fst (ex_effect ex_crowded ex_long_text 0%Z 3000%Z ex_random)))
  = 500.
Proof. vm_compute. split; reflexivity. Qed.


(** The live list then shows the eleven characters, each once, and the
    physics map has a key for each of them. *)
Example hello_world_on_screen :
  let s := ex_steps ex_after_hello ex_events in
  let after := fst (ex_effect s (of_ascii "HELLO WORLD") 0%Z 9100%Z ex_random) in
  map (option_map char) (liveParticles after)
  = map Some (of_ascii "HELLO WORLD") /\
  length (physicsStateRef after) = 11.
Proof. vm_compute. split; reflexivity. Qed.

Lemma restore_spawns_whole_transcript_witness :
  let s := ex_steps (mounted 0) [Props (of_ascii "HELLO") 0%Z 1000%Z ex_random] in
  let after := fst (ex_effect s (of_ascii "HELLO") 7%Z 2000%Z ex_random) in
  let batch := snd (ex_effect s (of_ascii "HELLO") 7%Z 2000%Z ex_random) in
  map char batch = of_ascii "HELLO" /\
  liveParticles after = lastN MAX_CHARS (liveParticles s ++ map Some batch) /\
  inSync after.
Proof.
  destruct (@restore_spawns_whole_transcript ex_sin ex_cos ex_sqrt ex_PI
              ex_idString 0%Z [Props (of_ascii "HELLO") 0%Z 1000%Z ex_random]
              (of_ascii "HELLO") 7%Z 2000%Z ex_random)
    as (Hchars & Hlive & Hsync & _).
  - vm_compute. discriminate.
  - discriminate.
  - cbv zeta. split; [exact Hchars|]. split; [exact Hlive|exact Hsync].
Defined.

(** A restore does not clear the scene: the five glyphs shown before stay
    in the live list, followed by the five of the restored text. *)
Example restore_keeps_old_glyphs :
  let s := ex_steps (mounted 0) [Props (of_ascii "HELLO") 0%Z 1000%Z ex_random] in
  let after := fst (ex_effect s (of_ascii "HELLO") 7%Z 2000%Z ex_random) in
  map (option_map char) (liveParticles after)
  = map Some (of_ascii "HELLOHELLO").
Proof. vm_compute. reflexivity. Qed.

Lemma changed_text_spawns_everything_witness :
  let s := ex_steps ex_after_hello ex_events in
  let after := fst (ex_effect s (of_ascii "BYE") 0%Z 9100%Z ex_random) in
  let batch := snd (ex_effect s (of_ascii "BYE") 0%Z 9100%Z ex_random) in
  map char batch = of_ascii "BYE" /\
  liveParticles after = lastN MAX_CHARS (liveParticles s ++ map Some batch) /\
  inSync after.
Proof.
  destruct (@changed_text_spawns_everything ex_sin ex_cos ex_sqrt ex_PI
              ex_idString 0%Z [] (of_ascii "HELLO") 0%Z 1000%Z ex_random
              ex_events (of_ascii "BYE") 9100%Z ex_random)
    as (Hchars & Hlive & Hsync & _).
  - discriminate.
  - repeat constructor.
  - reflexivity.
  - cbv zeta. split; [exact Hchars|]. split; [exact Hlive|exact Hsync].
Defined.

Lemma batch_is_staggered_witness :
  let after := fst (ex_effect ex_after_hello (of_ascii "HELLO WORLD") 0%Z
                      2000%Z ex_random) in
  let batch := snd (ex_effect ex_after_hello (of_ascii "HELLO WORLD") 0%Z
                      2000%Z ex_random) in
  exists p,
    nth_error batch 2 = Some p /\
    delay p = 160%Z /\ morphTime p = 5500%Z /\
    In (Some p) (liveParticles after) /\
    physicsObject after (id p) = Some p.
Proof.
  cbv zeta.
  destruct (nth_error (snd (ex_effect ex_after_hello (of_ascii "HELLO WORLD")
                              0%Z 2000%Z ex_random)) 2) as [p|] eqn:Hp;
    [|discriminate].
  exists p. split; [reflexivity|].
  destruct (@batch_is_staggered ex_sin ex_cos ex_sqrt ex_PI ex_idString
              ex_after_hello (of_ascii "HELLO WORLD") 0%Z 2000%Z ex_random 2 p Hp)
    as (_ & _ & Hm & Hd & _ & Hscene).
  destruct Hscene as (_ & _ & Hlive & Hmap).
  { apply Nat.leb_le. vm_compute. reflexivity. }
  split; [exact Hd|]. split; [exact Hm|]. split; [exact Hlive|].
  apply Hmap. vm_compute.
  repeat constructor; simpl; intuition discriminate.
Defined.

Lemma glyph_identity_kept_witness :
  exists p p',
    nth_error (heap ex_after_hello) 0 = Some p /\
    nth_error (heap (ex_steps ex_after_hello ex_events)) 0 = Some p' /\
    sameGlyph p p'.
Proof.
  destruct (nth_error (heap ex_after_hello) 0) as [p|] eqn:Hp; [|discriminate].
  destruct (@glyph_identity_kept ex_sin ex_cos ex_sqrt ex_PI ex_idString
              ex_events ex_after_hello 0 p Hp) as (p' & Hp' & Hsame).
  exists p, p'. split; [reflexivity|]. split; [exact Hp'|exact Hsame].
Defined.

End TextParticleMoreExamples.

(** ** Memory search *)

Section SortMoreFacts.
Import Search.
Open Scope Q_scope.

Variable A : Type.
Variable compare : A -> A -> Q.

(** A list already in order comes back from the sort as it is. *)
Lemma sort_sorted_input (l : list A) :
  StronglySorted (fun a b => compare a b <= 0) l -> sort compare l = l.
Proof.
  induction 1 as [|a l Hs IH Hall]; simpl; [reflexivity|].
  rewrite IH. destruct l as [|b l']; simpl; [reflexivity|].
  inversion Hall as [|? ? Hab _]; subst.
  apply Qle_bool_iff in Hab. now rewrite Hab.
Qed.

End SortMoreFacts.

Section SearchMoreFacts.
Import JS Search SearchData.
Open Scope Q_scope.

Variable toLowerCase : jsstring -> jsstring.

Local Abbreviation keywordsOf := (keywordsOf toLowerCase).
Local Abbreviation hitsOf := (hitsOf toLowerCase).
Local Abbreviation scoreMemory := (scoreMemory toLowerCase).
Local Abbreviation processedMemories := (processedMemories toLowerCase).
Local Abbreviation searchResultsCount := (searchResultsCount toLowerCase).

Lemma has_In (set : list jsstring) (w : jsstring) :
  has set w = true <-> In w set.
Proof.
  unfold has. rewrite existsb_exists. split.
  - intros [x [Hin Heq]]. apply str_eqb_eq in Heq. now subst.
  - intro Hin. exists w. split; [exact Hin|]. now apply str_eqb_eq.
Qed.

Lemma dedupe_In (seen l : list jsstring) (w : jsstring) :
  In w (dedupe seen l) -> In w l /\ ~ In w seen.
Proof.
  revert seen. induction l as [|x l IH]; intros seen H; simpl in *; [tauto|].
  destruct (has seen x) eqn:E.
  - apply IH in H. tauto.
  - destruct H as [<-|H].
    + split; [now left|]. intro Hin. apply has_In in Hin. congruence.
    + apply IH in H. simpl in H. tauto.
Qed.

Lemma dedupe_NoDup (seen l : list jsstring) : NoDup (dedupe seen l).
Proof.
  revert seen. induction l as [|x l IH]; intro seen; simpl; [constructor|].
  destruct (has seen x); [apply IH|].
  constructor; [|apply IH].
  intro Hin. apply dedupe_In in Hin. simpl in Hin. tauto.
Qed.

Lemma singles_usable (s : jsstring) : Forall usable (singles s).
Proof.
  unfold singles. apply Forall_forall. intros w Hin.
  apply in_flat_map in Hin. destruct Hin as [c [_ Hw]].
  destruct (negb (isSpace c) && negb (has STOP_WORDS [c]))%bool eqn:E;
    [|destruct Hw].
  destruct Hw as [<-|[]]. apply andb_true_iff in E. destruct E as [_ E].
  apply negb_true_iff in E. split; [discriminate|exact E].
Qed.

Lemma bigrams_usable (s : jsstring) : Forall usable (bigrams s).
Proof.
  induction s as [|c s IH]; [constructor|].
  destruct s as [|d s]; [constructor|].
  change (bigrams (c :: d :: s))
    with ((if negb (has STOP_WORDS [c; d]) then [[c; d]] else [])
          ++ bigrams (d :: s)).
  apply Forall_app. split; [|exact IH].
  destruct (has STOP_WORDS [c; d]) eqn:E; simpl; constructor; [|constructor].
  split; [discriminate|exact E].
Qed.

Lemma words_usable (s : jsstring) : Forall usable (words s).
Proof.
  unfold words. apply Forall_forall. intros w Hin.
  apply filter_In in Hin. destruct Hin as [_ H].
  apply andb_true_iff in H. destruct H as [Hlen Hstop].
  apply negb_true_iff in Hstop. split; [|exact Hstop].
  intros ->. discriminate.
Qed.

(** X16. The keywords extracted from a query are pairwise distinct, none is
    empty and none is a stop word. *)
Theorem keywords_distinct_and_usable (searchQuery : jsstring) :
  NoDup (keywordsOf searchQuery) /\ Forall usable (keywordsOf searchQuery).
Proof.
  unfold Search.keywordsOf. split; [apply dedupe_NoDup|].
  apply Forall_forall. intros w Hin. apply dedupe_In in Hin.
  destruct Hin as [Hin _].
  destruct (existsb isChinese _).
  - apply in_app_or in Hin. destruct Hin as [Hin|Hin].
    + apply in_app_or in Hin. destruct Hin as [Hin|Hin].
      * pose proof (singles_usable (normalize toLowerCase searchQuery)) as H.
        rewrite Forall_forall in H. now apply H.
      * pose proof (bigrams_usable (normalize toLowerCase searchQuery)) as H.
        rewrite Forall_forall in H. now apply H.
    + pose proof (words_usable (normalize toLowerCase searchQuery)) as H.
      rewrite Forall_forall in H. now apply H.
  - pose proof (words_usable (normalize toLowerCase searchQuery)) as H.
    rewrite Forall_forall in H. now apply H.
Qed.

(** X17. The score of a memory is 1 exactly when at least one keyword hits
    and the hits are at least half of the keywords. *)
Theorem score_saturates_at_half (keywords : list jsstring)
    (memory : MemoryPackage) :
  let hits := hitsOf keywords memory in
  scoreOf (scoreMemory keywords memory) == 1
  <-> (1 <= hits /\ length keywords <= 2 * hits)%nat.
Proof.
  intro hits. unfold Search.scoreMemory, scoreOf. fold hits.
  cbn [matchScore withScore].
  set (k := inject_Z (Z.of_nat (length keywords))).
  set (h := inject_Z (Z.of_nat hits)).
  assert (Hk : (length keywords <= 2 * hits)%nat <-> k * 0.5 <= h).
  { unfold k, h. split; intro H.
    - assert (H' : inject_Z (Z.of_nat (length keywords))
                   <= inject_Z (Z.of_nat (2 * hits))).
      { rewrite <- Zle_Qle. lia. }
      rewrite Nat2Z.inj_mul, inject_Z_mult in H'.
      change (inject_Z (Z.of_nat 2)) with 2 in H'. lra.
    - assert (H' : inject_Z (Z.of_nat (length keywords))
                   <= inject_Z (Z.of_nat (2 * hits))).
      { rewrite Nat2Z.inj_mul, inject_Z_mult.
        change (inject_Z (Z.of_nat 2)) with 2. lra. }
      rewrite <- Zle_Qle in H'. lia. }
  assert (Hh : (1 <= hits)%nat <-> 1 <= h).
  { unfold h. change 1 with (inject_Z 1). rewrite <- Zle_Qle. lia. }
  assert (Hpos : 0 < Qmax 1 (k * 0.5)).
  { apply Qlt_le_trans with 1; [reflexivity|apply Q.le_max_l]. }
  destruct (0 <? hits)%nat eqn:E.
  - apply Nat.ltb_lt in E. rewrite Hk.
    assert (Hmin : Qmin (h / Qmax 1 (k * 0.5)) 1.0 == 1
                   <-> 1 <= h / Qmax 1 (k * 0.5)).
    { split; intro H.
      - rewrite <- H at 1. apply Q.le_min_l.
      - rewrite Q.min_r; [reflexivity|].
        eapply Qle_trans; [|exact H]. discriminate. }
    rewrite Hmin. split; intro H.
    + assert (H' : Qmax 1 (k * 0.5) <= h).
      { setoid_replace h with (h / Qmax 1 (k * 0.5) * Qmax 1 (k * 0.5))
          by (field; lra).
        setoid_replace (Qmax 1 (k * 0.5)) with (1 * Qmax 1 (k * 0.5)) at 1
          by ring.
        apply Qmult_le_compat_r; [exact H|lra]. }
      split; [lia|]. eapply Qle_trans; [apply Q.le_max_r|exact H'].
    + destruct H as [_ H]. apply Qle_shift_div_l; [exact Hpos|].
      rewrite Qmult_1_l. apply Q.max_lub; [apply Hh; lia|exact H].
  - apply Nat.ltb_ge in E. split; intro H.
    + exfalso. revert H. discriminate.
    + lia.
Qed.

(** In a list in descending order of score, the memories with a positive
    score are the first ones. *)
Lemma positive_scores_first (l : list MemoryPackage) :
  byScoreDescending l ->
  let matches := filter (fun m => gtb (scoreOf m) 0) l in
  l = matches ++ skipn (length matches) l /\
  Forall (fun m => 0 < scoreOf m) matches /\
  Forall (fun m => scoreOf m <= 0) (skipn (length matches) l).
Proof.
  induction 1 as [|a l Hs IH Hall]; [repeat split; constructor|].
  cbn zeta in *. cbn [filter].
  destruct (gtb (scoreOf a) 0) eqn:E; cbn [length skipn app]; unfold gtb in E.
  - destruct IH as (IH1 & IH2 & IH3). apply ltb_lt in E.
    split; [f_equal; exact IH1|]. split; [constructor; assumption|exact IH3].
  - apply ltb_ge in E.
    assert (Hnone : filter (fun m => gtb (scoreOf m) 0) l = []).
    { apply filter_none. intros b Hb. rewrite Forall_forall in Hall.
      apply ltb_ge. eapply Qle_trans; [apply Hall; exact Hb|exact E]. }
    rewrite Hnone. simpl. split; [reflexivity|]. split; [constructor|].
    constructor; [exact E|].
    eapply Forall_impl; [|exact Hall]. intros b Hb. simpl in Hb. lra.
Qed.

(** X18. In the list the search returns, the memories with a positive score
    come first and the others follow with score at most 0; in the palace
    view with a non-empty query, the count shown to the user is the length
    of that first part. *)
Theorem matches_come_first (viewMode : ViewMode)
    (transcript finalizedTranscript : jsstring)
    (savedMemories : list MemoryPackage) :
  let result := processedMemories viewMode transcript finalizedTranscript
                  savedMemories in
  let matches := filter (fun m => gtb (scoreOf m) 0) result in
  result = matches ++ skipn (length matches) result /\
  Forall (fun m => 0 < scoreOf m) matches /\
  Forall (fun m => scoreOf m <= 0) (skipn (length matches) result) /\
  forall n,
    searchResultsCount viewMode transcript finalizedTranscript savedMemories
      = Some n -> n = length matches.
Proof.
  intros result matches.
  assert (Hsorted : byScoreDescending result).
  { unfold result, Search.processedMemories.
    destruct viewMode; [apply noSearch_reset|].
    destruct (searchQueryOf transcript finalizedTranscript) as [|c q];
      [apply noSearch_reset|].
    destruct (keywordsOf (c :: q)) as [|w ws]; [apply noSearch_reset|].
    apply byScore_sorted. apply Forall_forall. intros m Hm.
    apply in_map_iff in Hm. destruct Hm as [m0 [<- _]].
    destruct (scoreMemory_ramp toLowerCase (w :: ws) m0) as (_ & _ & H3 & _).
    apply H3. }
  destruct (positive_scores_first Hsorted) as (H1 & H2 & H3).
  split; [exact H1|]. split; [exact H2|]. split; [exact H3|].
  intros n Hn. unfold SearchData.searchResultsCount in Hn.
  destruct viewMode; [discriminate|].
  destruct (searchQueryOf transcript finalizedTranscript); [discriminate|].
  inversion Hn. reflexivity.
Qed.

(** X19. When the saved memories are already in descending order of
    timestamp, as they are when each new one is put in front, the list
    returned without an active search is the saved list in the same order
    with every score reset to 0. *)
Theorem recent_first_list_unchanged (savedMemories : list MemoryPackage) :
  byRecencyDescending savedMemories ->
  noSearch savedMemories = map (fun m => withScore m 0) savedMemories.
Proof.
  intro Hsorted. unfold noSearch. apply sort_sorted_input.
  induction Hsorted as [|a l Hs IH Hall]; simpl; constructor; [exact IH|].
  apply Forall_forall. intros b Hb. apply in_map_iff in Hb.
  destruct Hb as [b0 [<- Hb0]]. rewrite Forall_forall in Hall.
  apply byRecency_before. simpl. now apply Hall.
Qed.

End SearchMoreFacts.

Section SearchMoreExamples.
Import JS Search SearchData.
Open Scope Q_scope.

(** The query [sea] finds two of three memories; they come first, the
    newer before the older. *)
Example sea_finds_two :
  searchResultsCount ex_toLowerCase PALACE (of_ascii "sea") [] ex_three_memories
  = Some 2%nat /\
  map timestamp
    (processedMemories ex_toLowerCase PALACE (of_ascii "sea") [] ex_three_memories)
  = [2000; 1000; 3000]%Z.
Proof. vm_compute. split; reflexivity. Qed.

Lemma recent_first_list_unchanged_witness :
  noSearch ex_three_memories = map (fun m => withScore m 0) ex_three_memories.
Proof.
  apply recent_first_list_unchanged. unfold byRecencyDescending.
  repeat first [ apply SSorted_nil | apply SSorted_cons
               | apply Forall_nil | apply Forall_cons | (simpl; lia) ].
Defined.

End SearchMoreExamples.

(** ** Ambient cloud *)

Section AmbientMoreFacts.
Import JS Ambient AmbientData.
Open Scope Q_scope.

Lemma disruptionTarget_values (f : Frame) :
  disruptionTarget f = 2.5 \/ disruptionTarget f = 0.0 \/
  disruptionTarget f = 0.2 \/ disruptionTarget f = 0.
Proof.
  unfold disruptionTarget. destruct (activeHand f) as [hd|]; [|tauto].
  destruct (Gesture.gesture hd); tauto.
Qed.

Lemma swipeActive_values (f : Frame) : swipeActive f = 0 \/ swipeActive f = 1.
Proof.
  unfold swipeActive. destruct (activeHand f) as [hd|]; [|tauto].
  destruct (Gesture.gesture hd); tauto.
Qed.

Lemma useFrame_inRange (f : Frame) (s : Scene) :
  inRange (uniforms s) -> inRange (uniforms (useFrame f s)).
Proof.
  intros (Hd & Hs & Hr). unfold useFrame.
  destruct (meshRef s) as [m|]; [|repeat split; tauto].
  unfold inRange. cbn [uniforms uDisruption uSwipeActive uReadingMode].
  unfold lerp, lerpSpeed.
  split; [|split].
  - destruct (gtb (disruptionTarget f) (uDisruption (uniforms s)));
      destruct (disruptionTarget_values f) as [-> | [-> | [-> | ->]]]; lra.
  - destruct (swipeActive_values f) as [-> | ->]; lra.
  - destruct (readingMode f); lra.
Qed.

(** X20. Starting from the initial uniforms, after any sequence of frames
    the disruption stays between 0 and 2.5 and the swipe and reading-mode
    weights stay between 0 and 1. *)
Theorem blend_weights_bounded (fs : list Frame) (size : Q) (mesh : option Pose) :
  inRange (uniforms (frames fs {| uniforms := initialUniforms size;
                                  meshRef := mesh |})).
Proof.
  assert (Hgen : forall fs s, inRange (uniforms s) ->
                 inRange (uniforms (frames fs s))).
  { clear. induction fs as [|f fs IH]; intros s Hs; simpl; [exact Hs|].
    apply IH. now apply useFrame_inRange. }
  apply Hgen. unfold inRange. simpl. repeat split; discriminate.
Qed.

(** X21. A frame of a mounted scene moves the disruption toward its target
    without reaching past it: the distance to the target is multiplied by
    0.97 when the target is above and by 0.85 otherwise, so a target held
    over the frames is approached from one side and never crossed. *)
Theorem disruption_never_overshoots (f : Frame) (s : Scene) (m : Pose) :
  meshRef s = Some m ->
  let current := uDisruption (uniforms s) in
  let target := disruptionTarget f in
  let next := uDisruption (uniforms (useFrame f s)) in
  next - target == (1 - rateOf f s) * (current - target) /\
  (current <= target -> current <= next <= target) /\
  (target <= current -> target <= next <= current).
Proof.
  intros Hm current target next.
  assert (Hnext : next = lerp current target (rateOf f s)).
  { unfold next, useFrame. rewrite Hm. reflexivity. }
  rewrite Hnext. unfold lerp, rateOf, lerpSpeed. fold current target.
  unfold gtb. destruct (ltb current target) eqn:E.
  - apply ltb_lt in E. split; [ring|]. split; intro H; lra.
  - apply ltb_ge in E. split; [ring|]. split; intro H; lra.
Qed.

End AmbientMoreFacts.

Section AmbientMoreExamples.
Import JS Ambient AmbientData.
Open Scope Q_scope.

Lemma disruption_never_overshoots_witness :
  uDisruption (uniforms (useFrame ex_scatter_frame (ex_scene 0))) - 2.5
  == (1 - 0.03) * (0 - 2.5).
Proof.
  apply (@disruption_never_overshoots ex_scatter_frame (ex_scene 0)
           {| position_x := 0; position_y := 0;
              rotation_x := 0; rotation_y := 0 |}).
  reflexivity.
Defined.

End AmbientMoreExamples.

(** ** Memory palace *)

Section PalaceFacts.
Import JS Search Palace.
Open Scope Q_scope.

Lemma ceiling_half (n : Z) : Qceiling (inject_Z n / 2) = (- (- n / 2))%Z.
Proof.
  unfold Qceiling, Qfloor, Qdiv, Qmult, Qinv, Qopp, inject_Z. simpl.
  now rewrite Z.mul_1_r.
Qed.

Lemma offsetUnit_even (k : nat) : offsetUnit (2 * k) = (- Z.of_nat k)%Z.
Proof.
  unfold offsetUnit. destruct k as [|k]; [reflexivity|].
  replace (0 <? 2 * S k)%nat with true by (symmetry; apply Nat.ltb_lt; lia).
  replace ((2 * S k) mod 2 =? 1)%nat with false.
  2:{ symmetry. apply Nat.eqb_neq. rewrite Nat.mul_comm, Nat.Div0.mod_mul. lia. }
  rewrite ceiling_half.
  replace (- Z.of_nat (2 * S k))%Z with ((- Z.of_nat (S k)) * 2)%Z by lia.
  rewrite Z.div_mul by lia. lia.
Qed.

Lemma offsetUnit_odd (k : nat) : offsetUnit (2 * k + 1) = (Z.of_nat k + 1)%Z.
Proof.
  unfold offsetUnit.
  replace (0 <? 2 * k + 1)%nat with true by (symmetry; apply Nat.ltb_lt; lia).
  replace ((2 * k + 1) mod 2 =? 1)%nat with true.
  2:{ symmetry. apply Nat.eqb_eq.
      rewrite Nat.add_comm, Nat.mul_comm, Nat.Div0.mod_add. reflexivity. }
  rewrite ceiling_half.
  replace (- Z.of_nat (2 * k + 1))%Z with (1 + (- Z.of_nat k - 1) * 2)%Z by lia.
  rewrite Z.div_add by lia. change (1 / 2)%Z with 0%Z. lia.
Qed.

Lemma parity (i : nat) : exists k, (i = 2 * k \/ i = 2 * k + 1)%nat.
Proof.
  exists (i / 2)%nat. pose proof (Nat.div_mod_eq i 2) as H.
  pose proof (Nat.mod_upper_bound i 2) as Hb. lia.
Qed.

Lemma offsetUnit_abs (i : nat) :
  Z.abs (offsetUnit i) = Z.of_nat ((i + 1) / 2).
Proof.
  destruct (parity i) as [k [-> | ->]].
  - rewrite offsetUnit_even.
    replace ((2 * k + 1) / 2)%nat with k.
    + lia.
    + rewrite Nat.add_comm, Nat.mul_comm, Nat.div_add by lia. reflexivity.
  - rewrite offsetUnit_odd.
    replace ((2 * k + 1 + 1) / 2)%nat with (k + 1)%nat.
    + lia.
    + replace (2 * k + 1 + 1)%nat with ((k + 1) * 2)%nat by lia.
      now rewrite Nat.div_mul by lia.
Qed.

Lemma offsetUnit_injective (i j : nat) : offsetUnit i = offsetUnit j -> i = j.
Proof.
  destruct (parity i) as [k [-> | ->]]; destruct (parity j) as [l [-> | ->]];
    rewrite ?offsetUnit_even, ?offsetUnit_odd; lia.
Qed.

(** X22. In focus mode the matches are laid out from the centre outwards:
    the i-th match stands [ceil(i / 2)] slots from the centre, on the right
    for odd [i] and on the left for even [i]; two matches never share a
    slot, and a later match is never nearer to the viewer nor higher than an
    earlier one. *)
Theorem focus_slots_center_out (i j : nat) :
  let '(xi, yi, zi) := focusSlot i in
  let '(xj, yj, zj) := focusSlot j in
  Qabs xi == inject_Z (Z.of_nat ((i + 1) / 2)) * 7 /\
  (0 <= xi <-> (i = 0 \/ i mod 2 = 1)%nat) /\
  (i <> j -> ~ xi == xj) /\
  ((i <= j)%nat -> zj <= zi /\ yj <= yi).
Proof.
  unfold focusSlot. cbv zeta.
  assert (Habs : forall n, Qabs (inject_Z (offsetUnit n))
                           = inject_Z (Z.of_nat ((n + 1) / 2))).
  { intro n. rewrite <- offsetUnit_abs. unfold Qabs, inject_Z. reflexivity. }
  split; [|split; [|split]].
  - rewrite Qabs_Qmult, Habs. change (Qabs 7.0) with 7.0. lra.
  - assert (Hsign : 0 <= inject_Z (offsetUnit i) * 7.0 <-> (0 <= offsetUnit i)%Z).
    { rewrite (Zle_Qle 0). change (inject_Z 0) with 0. split; intro H; lra. }
    rewrite Hsign. destruct (parity i) as [k [-> | ->]].
    + rewrite offsetUnit_even. rewrite Nat.mul_comm, Nat.Div0.mod_mul. lia.
    + rewrite offsetUnit_odd.
      rewrite Nat.add_comm, Nat.mul_comm, Nat.Div0.mod_add.
      change (1 mod 2)%nat with 1%nat. lia.
  - intros Hne Heq. apply Hne, offsetUnit_injective.
    assert (H : inject_Z (offsetUnit i) == inject_Z (offsetUnit j)).
    { apply (Qmult_inj_r _ _ 7.0); [discriminate|exact Heq]. }
    apply inject_Z_injective. exact H.
  - intro Hle. rewrite !Habs.
    assert (H : inject_Z (Z.of_nat ((i + 1) / 2))
                <= inject_Z (Z.of_nat ((j + 1) / 2))).
    { rewrite <- Zle_Qle. apply inj_le. apply Nat.Div0.div_le_mono. lia. }
    split; lra.
Qed.

(** *** The position map *)

Lemma setEach_other (place : nat -> Position) (l : list MemoryPackage)
    (n : nat) (posMap : list (jsstring * Position)) (k : jsstring) :
  ~ In k (map id l) ->
  TextParticles.map_get (setEach place l n posMap) k
  = TextParticles.map_get posMap k.
Proof.
  revert n posMap. induction l as [|m l IH]; intros n posMap Hk; simpl.
  - reflexivity.
  - rewrite IH.
    + apply map_get_set_other. intro H. apply Hk. simpl. auto.
    + intro H. apply Hk. simpl. auto.
Qed.

Lemma setEach_nth (place : nat -> Position) (l : list MemoryPackage)
    (n : nat) (posMap : list (jsstring * Position)) (i : nat)
    (mem : MemoryPackage) :
  NoDup (map id l) -> nth_error l i = Some mem ->
  TextParticles.map_get (setEach place l n posMap) (id mem)
  = Some (place (n + i)%nat).
Proof.
  revert n posMap i.
  induction l as [|m l IH]; intros n posMap [|i] Hnd Hi; simpl in *;
    try discriminate.
  - injection Hi as ->. inversion Hnd; subst.
    rewrite setEach_other by assumption.
    rewrite map_get_set_same, Nat.add_0_r. reflexivity.
  - inversion Hnd; subst. rewrite (IH (S n) _ i) by assumption.
    do 2 f_equal. lia.
Qed.

Lemma setEach_keys (place : nat -> Position) (l : list MemoryPackage)
    (n : nat) (posMap : list (jsstring * Position)) (k : jsstring) :
  In k (map fst (setEach place l n posMap))
  <-> In k (map fst posMap) \/ In k (map id l).
Proof.
  revert n posMap. induction l as [|m l IH]; intros n posMap; simpl.
  - intuition.
  - rewrite IH, map_set_keys. split.
    + intros [[H | ->] | H]; auto.
    + intros [H | [<- | H]]; auto.
Qed.

Lemma id_filter_NoDup (f : MemoryPackage -> bool) (l : list MemoryPackage) :
  NoDup (map id l) -> NoDup (map id (filter f l)).
Proof.
  induction l as [|m l IH]; simpl; intro H; [constructor|].
  inversion H; subst. destruct (f m); simpl; auto.
  constructor; auto. intro Hin. apply H2.
  apply in_map_iff in Hin. destruct Hin as [x [Hx Hin]].
  apply filter_In in Hin. apply in_map_iff. exists x. tauto.
Qed.

Lemma id_injective (l : list MemoryPackage) (a b : MemoryPackage) :
  NoDup (map id l) -> In a l -> In b l -> id a = id b -> a = b.
Proof.
  induction l as [|m l IH]; simpl; intros Hnd Ha Hb Hid; [tauto|].
  inversion Hnd; subst.
  destruct Ha as [-> | Ha], Hb as [-> | Hb]; auto.
  - exfalso. apply H1. rewrite Hid. now apply in_map.
  - exfalso. apply H1. rewrite <- Hid. now apply in_map.
Qed.

Lemma hasActiveSearch_matches (memories : list MemoryPackage) :
  hasActiveSearch memories
  && (0 <? length (filter (fun m => gtb (scoreOf m) 0) memories))%nat
  = match filter (fun m => gtb (scoreOf m) 0) memories with
    | [] => false
    | _ :: _ => true
    end.
Proof.
  unfold hasActiveSearch.
  induction memories as [|m l IH]; simpl; [reflexivity|].
  destruct (gtb (scoreOf m) 0); simpl; [reflexivity|exact IH].
Qed.

Section Layout.

Variable Math_sin : Q -> Q.
Variable Math_cos : Q -> Q.
Variable Math_PI : Q.
Variable Math_random : nat -> Q.

Local Abbreviation scatterSlot := (scatterSlot Math_cos Math_PI Math_random).
Local Abbreviation gallerySlot := (gallerySlot Math_sin Math_cos).
Local Abbreviation targetPositions :=
  (targetPositions Math_sin Math_cos Math_PI Math_random).
Local Abbreviation targetOf :=
  (targetOf Math_sin Math_cos Math_PI Math_random).

(** X23. When the memories have pairwise distinct ids, each bubble gets the
    place of its rank: without a match the i-th memory stands on the i-th
    place of the gallery spiral; with a match the i-th of the matches
    stands on the i-th focus slot and the i-th of the others on the i-th
    place of the background scatter. *)
Theorem bubbles_placed_by_rank (memories : list MemoryPackage) (i : nat)
    (mem : MemoryPackage) :
  NoDup (map id memories) ->
  let matches := filter (fun m => gtb (scoreOf m) 0) memories in
  let nonMatches := filter (fun m => Qle_bool (scoreOf m) 0) memories in
  (matches = [] -> nth_error memories i = Some mem ->
   targetOf memories mem = gallerySlot i) /\
  (matches <> [] -> nth_error matches i = Some mem ->
   targetOf memories mem = focusSlot i) /\
  (matches <> [] -> nth_error nonMatches i = Some mem ->
   targetOf memories mem = scatterSlot i).
Proof.
  intros Hnd matches nonMatches.
  unfold targetOf, Palace.targetOf, Palace.targetPositions.
  rewrite hasActiveSearch_matches. fold matches. fold nonMatches.
  split; [|split].
  - intros -> Hi. rewrite (@setEach_nth _ _ 0%nat _ i mem Hnd Hi). reflexivity.
  - intros Hne Hi. destruct matches as [|m0 rest] eqn:Hm; [congruence|].
    rewrite <- Hm in *.
    assert (Hin : In mem matches) by (eapply nth_error_In; eauto).
    rewrite setEach_other.
    + rewrite (@setEach_nth _ _ 0%nat _ i mem (@id_filter_NoDup _ _ Hnd) Hi). reflexivity.
    + intro Hother. apply in_map_iff in Hother.
      destruct Hother as [other [Hid Hother]].
      unfold matches in Hin. apply filter_In in Hin.
      unfold nonMatches in Hother. apply filter_In in Hother.
      assert (other = mem)
        by (apply (@id_injective memories); tauto).
      subst other. destruct Hin as [_ Hpos], Hother as [_ Hle].
      unfold gtb, ltb in Hpos. rewrite Hle in Hpos. discriminate.
  - intros Hne Hi. destruct matches as [|m0 rest] eqn:Hm; [congruence|].
    rewrite (@setEach_nth _ _ 0%nat _ i mem (@id_filter_NoDup _ _ Hnd) Hi). reflexivity.
Qed.

(** X24. The position map holds exactly the ids of the memories, in focus
    mode as in gallery mode, so the fallback position at the origin is
    never used for a bubble. *)
Theorem every_bubble_has_a_place (memories : list MemoryPackage)
    (k : jsstring) :
  (In k (map fst (targetPositions memories)) <-> In k (map id memories)) /\
  (In k (map id memories) ->
   TextParticles.hasKey (targetPositions memories) k = true).
Proof.
  assert (Hkeys : In k (map fst (targetPositions memories))
                  <-> In k (map id memories)).
  { unfold targetPositions, Palace.targetPositions.
    destruct (hasActiveSearch memories && _).
    - rewrite !setEach_keys. simpl.
      rewrite !in_map_iff. split.
      + intros [[[] | [m [Hid Hin]]] | [m [Hid Hin]]];
          apply filter_In in Hin; exists m; tauto.
      + intros [m [Hid Hin]].
        destruct (gtb (scoreOf m) 0) eqn:E.
        * left. right. exists m. rewrite filter_In. tauto.
        * right. exists m. rewrite filter_In. split; [tauto|].
          split; [tauto|]. unfold gtb, ltb in E.
          now apply negb_false_iff in E.
    - rewrite setEach_keys. simpl. tauto. }
  split; [exact Hkeys|].
  intro Hin. apply hasKey_keys, Hkeys, Hin.
Qed.

End Layout.

(** *** Gesture control *)

Lemma clamp_scale (x : Q) : 0.3 <= Qmax 0.3 (Qmin 3.0 x) <= 3.
Proof.
  split.
  - apply Q.le_max_l.
  - apply Q.max_lub; [discriminate|].
    apply (Qle_trans _ 3.0); [apply Q.le_min_l|discriminate].
Qed.

Lemma pinchControl_scale (pinchDist : Q) (st : GestureState) :
  0.3 <= targetScale st <= 3 ->
  0.3 <= targetScale (pinchControl pinchDist st) <= 3.
Proof.
  intro H. unfold pinchControl.
  destruct (ltb pinchDist 0.15); [destruct (negb (isPinching st))|];
    cbn [targetScale]; auto using clamp_scale.
Qed.

Lemma panControl_scale (pinchDist : Q) (palm : Gesture.Vec2)
    (st : GestureState) :
  targetScale (panControl pinchDist palm st) = targetScale st.
Proof.
  unfold panControl.
  destruct (negb (ltb pinchDist 0.15)); [destruct (negb (isPanning st))|];
    reflexivity.
Qed.

Lemma useFrame_scalesBounded (hd : option Gesture.HandData) (s : Scene) :
  scalesBounded s -> scalesBounded (useFrame hd s).
Proof.
  unfold scalesBounded, useFrame. intros [Ht Hg].
  destruct (groupRef s) as [group|]; [|tauto].
  cbn [gestureState groupRef scale].
  match goal with
  | |- context [lerp _ (targetScale ?st) _] =>
      assert (Hst : 0.3 <= targetScale st <= 3)
  end.
  { destruct hd as [hd|]; [|exact Ht].
    destruct (Gesture.detected hd); [|exact Ht].
    rewrite panControl_scale. now apply pinchControl_scale. }
  split; [exact Hst|]. unfold lerp. lra.
Qed.

(** X25. From the moment the palace is mounted, whatever hand states the
    frames bring, the scale target stays between 0.3 and 3 and so does the
    scale of the group that eases toward it. *)
Theorem palace_scale_bounded (hands : list (option Gesture.HandData)) :
  scalesBounded (frames hands mounted).
Proof.
  unfold frames.
  assert (H : scalesBounded mounted).
  { unfold scalesBounded, mounted. cbn. lra. }
  revert H. generalize mounted. induction hands as [|hd hands IH];
    intros s Hs; simpl.
  - exact Hs.
  - apply IH. now apply useFrame_scalesBounded.
Qed.

(** X26. A frame never zooms and turns at once.  The scale target changes
    only on a frame with a detected hand whose pinch distance is below 0.15
    and not 0, after a frame that was pinching already; the rotation
    targets change only on a frame with a detected hand whose pinch
    distance is 0 or at least 0.15, after a frame that was panning
    already. *)
Theorem zoom_and_turn_exclusive (hd : option Gesture.HandData) (s : Scene) :
  let st := gestureState s in
  let st' := gestureState (useFrame hd s) in
  (targetScale st' <> targetScale st ->
   exists h, hd = Some h /\ Gesture.detected h = true /\
             ~ Gesture.pinchDistance h == 0 /\
             Gesture.pinchDistance h < 0.15 /\
             isPinching st = true /\
             targetRot_x st' = targetRot_x st /\
             targetRot_y st' = targetRot_y st) /\
  (targetRot_x st' <> targetRot_x st \/ targetRot_y st' <> targetRot_y st ->
   exists h, hd = Some h /\ Gesture.detected h = true /\
             (Gesture.pinchDistance h == 0 \/
              0.15 <= Gesture.pinchDistance h) /\
             isPanning st = true /\
             targetScale st' = targetScale st).
Proof.
  cbv zeta. unfold useFrame.
  destruct (groupRef s) as [group|]; [|split; intros; tauto].
  cbn [gestureState].
  destruct hd as [h|]; [|split; intros; tauto].
  destruct (Gesture.detected h) eqn:Hdet; [|split; intros; tauto].
  unfold orElse.
  destruct (Qeq_bool (Gesture.pinchDistance h) 0) eqn:Hzero.
  - apply Qeq_bool_iff in Hzero.
    unfold panControl, pinchControl.
    change (ltb 1.0 0.15) with false. cbn [negb isPanning].
    destruct (isPanning (gestureState s)) eqn:Hpan; cbn.
    + split; [tauto|]. intros _. exists h. tauto.
    + split; intros; tauto.
  - assert (Hnz : ~ Gesture.pinchDistance h == 0).
    { intro H. apply Qeq_bool_iff in H. congruence. }
    unfold panControl, pinchControl.
    destruct (ltb (Gesture.pinchDistance h) 0.15) eqn:Hlt.
    + apply ltb_lt in Hlt.
      destruct (isPinching (gestureState s)) eqn:Hpinch; cbn.
      * split; [|tauto]. intros _. exists h. tauto.
      * split; intros; tauto.
    + apply ltb_ge in Hlt.
      destruct (isPanning (gestureState s)) eqn:Hpan; cbn.
      * split; [tauto|]. intros _. exists h. tauto.
      * split; intros; tauto.
Qed.

End PalaceFacts.

Section PalaceExamples.
Import JS Search Palace.
Open Scope Q_scope.

Local Abbreviation ex_targetOf :=
  (targetOf TextParticles.ex_sin TextParticles.ex_cos TextParticles.ex_PI
     TextParticles.ex_random).

Lemma bubbles_placed_by_rank_witness :
  ex_targetOf ex_found (ex_scored (of_ascii "b") 2 0.5) = focusSlot 1.
Proof.
  assert (Hnd : NoDup (map id ex_found)).
  { repeat constructor; cbn; intuition discriminate. }
  destruct (@bubbles_placed_by_rank TextParticles.ex_sin TextParticles.ex_cos
              TextParticles.ex_PI TextParticles.ex_random ex_found 1
              (ex_scored (of_ascii "b") 2 0.5) Hnd) as (_ & Hfocus & _).
  apply Hfocus; [discriminate|reflexivity].
Defined.

(** Three matches and one other memory: the best match in the centre, the
    next two seven units to its right and left, the last one far behind. *)
Example found_memories_layout :
  map (ex_targetOf ex_found) ex_found
  = [ (0 * 7.0, - Qabs 0 * 0.5, 6.0 - Qabs 0 * 1.5);
      (1 * 7.0, - Qabs 1 * 0.5, 6.0 - Qabs 1 * 1.5);
      (-1 * 7.0, - Qabs (-1) * 0.5, 6.0 - Qabs (-1) * 1.5);
      scatterSlot TextParticles.ex_cos TextParticles.ex_PI
        TextParticles.ex_random 0 ].
Proof. reflexivity. Qed.

(** A pinch that opens from 0.10 to 0.12 raises the scale target from 1 to
    1.3; the first frame of the pinch only records the distance. *)
Example pinch_zooms :
  targetScale (gestureState (frames [ex_pinch 0.10] mounted)) == 1 /\
  targetScale (gestureState (frames [ex_pinch 0.10; ex_pinch 0.12] mounted))
  == 1.3.
Proof. split; vm_compute; reflexivity. Qed.

End PalaceExamples.

(** ** Saving and restoring a memory *)

Section SessionFacts.
Import JS Search Session.
Open Scope Q_scope.

Variable toString : Z -> jsstring.

Local Abbreviation packageOf := (packageOf toString).
Local Abbreviation handleSaveMemory := (handleSaveMemory toString).
Local Abbreviation resultLoop := (resultLoop toString).
Local Abbreviation onresult := (onresult toString).

(** *** Hexadecimal text *)

Lemma toInt32_small (n : Z) :
  (0 <= n < 2147483648)%Z -> toInt32 n = n.
Proof.
  intro H. unfold toInt32. rewrite Z.mod_small by lia.
  destruct (Z.leb_spec 2147483648 n); lia.
Qed.

Lemma shl_byte (v k : Z) :
  (0 <= v <= 255)%Z -> (0 <= k <= 16)%Z -> shl v k = (v * 2 ^ k)%Z.
Proof.
  intros Hv Hk. unfold shl. rewrite (@toInt32_small v) by lia.
  apply toInt32_small.
  assert (0 < 2 ^ k <= 2 ^ 16)%Z.
  { split; [apply Z.pow_pos_nonneg; lia|apply Z.pow_le_mono_r; lia]. }
  change (2 ^ 16)%Z with 65536%Z in *. nia.
Qed.

Lemma hexDigit_isHex (d : Z) : (0 <= d < 16)%Z -> isHexDigit (hexDigit d).
Proof.
  intro H. unfold isHexDigit, hexDigit.
  destruct (Z.ltb_spec d 10); [left|right]; lia.
Qed.

Lemma hexOf_digits (fuel : nat) (n : Z) :
  (0 <= n)%Z -> Forall isHexDigit (hexOf fuel n).
Proof.
  revert n. induction fuel as [|fuel IH]; intros n Hn; simpl; [constructor|].
  destruct (Z.ltb_spec n 16).
  - constructor; [apply hexDigit_isHex; lia|constructor].
  - apply Forall_app. split.
    + apply IH. apply Z.div_pos; lia.
    + constructor; [|constructor].
      apply hexDigit_isHex. apply Z.mod_pos_bound. lia.
Qed.

Lemma hexOf_length (k : nat) : forall (fuel : nat) (n : Z),
  (k < fuel)%nat ->
  (16 ^ Z.of_nat k <= n < 16 ^ Z.of_nat (S k))%Z ->
  length (hexOf fuel n) = S k.
Proof.
  assert (H16 : forall m, (16 ^ Z.of_nat (S m) = 16 * 16 ^ Z.of_nat m)%Z).
  { intro m. rewrite Nat2Z.inj_succ, Z.pow_succ_r; lia. }
  assert (Hpos : forall m, (0 < 16 ^ Z.of_nat m)%Z).
  { intro m. apply Z.pow_pos_nonneg; lia. }
  induction k as [|k IH]; intros [|fuel] n Hf Hn; try lia.
  - rewrite H16 in Hn. change (16 ^ Z.of_nat 0)%Z with 1%Z in Hn.
    cbn [hexOf]. destruct (Z.ltb_spec n 16); [reflexivity|lia].
  - rewrite (H16 (S k)) in Hn. rewrite (H16 k) in Hn at 1.
    specialize (Hpos k). cbn [hexOf].
    destruct (Z.ltb_spec n 16); [lia|].
    rewrite length_app, (IH fuel (n / 16)%Z); [simpl; lia|lia|].
    split.
    + apply Z.div_le_lower_bound; lia.
    + apply Z.div_lt_upper_bound; lia.
Qed.

(** The text of a number of the form [1RRGGBB] has seven digits. *)
Lemma toString16_colour (n : Z) :
  (16777216 <= n < 33554432)%Z ->
  length (toString16 n) = 7%nat /\ Forall isHexDigit (toString16 n).
Proof.
  intro H. unfold toString16.
  destruct (Z.ltb_spec n 0); [lia|].
  assert (Hlog : Z.log2 n = 24%Z).
  { apply Z.log2_unique; [lia|]. change (2 ^ 24)%Z with 16777216%Z.
    change (2 ^ Z.succ 24)%Z with 33554432%Z. exact H. }
  rewrite Hlog. split.
  - apply (@hexOf_length 6); [simpl; lia|].
    change (16 ^ Z.of_nat 6)%Z with 16777216%Z.
    change (16 ^ Z.of_nat 7)%Z with 268435456%Z. lia.
  - apply hexOf_digits. lia.
Qed.

(** *** The palette *)

Lemma channel_byte (v : Q) (count : nat) :
  (0 < count)%nat -> 0 <= v <= inject_Z (Z.of_nat count) ->
  (0 <= Qfloor (v / inject_Z (Z.of_nat count) * 255) <= 255)%Z.
Proof.
  intros Hc [Hlo Hhi].
  assert (Hn : 0 < inject_Z (Z.of_nat count)).
  { change 0 with (inject_Z 0). rewrite <- Zlt_Qlt. lia. }
  assert (Hq : 0 <= v / inject_Z (Z.of_nat count) <= 1).
  { split.
    - apply Qle_shift_div_l; [exact Hn|]. lra.
    - apply Qle_shift_div_r; [exact Hn|]. lra. }
  revert Hq. generalize (v / inject_Z (Z.of_nat count)). intros q Hq.
  split.
  - rewrite <- (Qfloor_Z 0). apply Qfloor_resp_le.
    change (inject_Z 0) with 0. lra.
  - rewrite <- (Qfloor_Z 255) at 2. apply Qfloor_resp_le.
    change (inject_Z 255) with 255. lra.
Qed.

Lemma literal_colours :
  isHexColour (of_ascii "#ffffff") /\ isHexColour (of_ascii "#cccccc") /\
  isHexColour (of_ascii "#999999").
Proof.
  assert (H : forall digits, length digits = 6%nat ->
                Forall isHexDigit digits ->
                isHexColour (of_ascii "#" ++ digits)).
  { intros digits Hlen Hdig. now exists digits. }
  split; [|split].
  - apply (H (of_ascii "ffffff")); [reflexivity|].
    repeat (apply Forall_cons; [right; cbn; lia|]). apply Forall_nil.
  - apply (H (of_ascii "cccccc")); [reflexivity|].
    repeat (apply Forall_cons; [right; cbn; lia|]). apply Forall_nil.
  - apply (H (of_ascii "999999")); [reflexivity|].
    repeat (apply Forall_cons; [left; cbn; lia|]). apply Forall_nil.
Qed.

Lemma hexOfSums_colour (sums : Q * Q * Q * nat) :
  sumsBounded sums -> isHexColour (hexOfSums sums).
Proof.
  destruct sums as [[[r g] b] count]. unfold sumsBounded, hexOfSums.
  intros (Hr & Hg & Hb).
  destruct (Nat.ltb_spec 0 count) as [Hc|Hc]; [|apply literal_colours].
  pose proof (@channel_byte _ _ Hc Hr) as HR.
  pose proof (@channel_byte _ _ Hc Hg) as HG.
  pose proof (@channel_byte _ _ Hc Hb) as HB.
  cbv zeta.
  rewrite (@shl_byte _ 16 HR), (@shl_byte _ 8 HG) by lia.
  change (shl 1 24) with 16777216%Z.
  change (2 ^ 16)%Z with 65536%Z. change (2 ^ 8)%Z with 256%Z.
  match goal with
  | |- context [toString16 ?n] =>
      destruct (@toString16_colour n) as [Hlen Hdig]; [lia|];
      exists (slice_from (toString16 n) 1)
  end.
  split; [reflexivity|]. unfold slice_from. split.
  - rewrite length_skipn, Hlen. reflexivity.
  - destruct (toString16 _); [constructor|]. simpl. now inversion Hdig.
Qed.

(** The array length is fuel enough for the loop over a chunk. *)
Lemma chunkSum_fuel_enough (sorted : list Sampler.ParticleData) (stop : nat) :
  forall (fuel extra j : nat) (acc : Q * Q * Q * nat),
  (length sorted <= j + fuel)%nat ->
  chunkSum (fuel + extra) sorted j stop acc = chunkSum fuel sorted j stop acc.
Proof.
  induction fuel as [|fuel IH]; intros extra j acc Hlen.
  - destruct extra as [|extra]; [reflexivity|]. cbn [Nat.add chunkSum].
    destruct (Nat.ltb_spec j (length sorted)); [lia|].
    now rewrite andb_false_r.
  - cbn [Nat.add chunkSum].
    destruct ((j <? stop)%nat && (j <? length sorted)%nat); [|reflexivity].
    destruct (nth_error sorted j) as [p|]; [|reflexivity].
    destruct acc as [[[r g] b] count]. apply IH. lia.
Qed.

Lemma chunkSum_bounded (sorted : list Sampler.ParticleData) (stop : nat) :
  Forall unitColour sorted ->
  forall (fuel j : nat) (acc : Q * Q * Q * nat),
  sumsBounded acc -> sumsBounded (chunkSum fuel sorted j stop acc).
Proof.
  intro Hall. induction fuel as [|fuel IH]; intros j acc Hacc; simpl.
  - exact Hacc.
  - destruct ((j <? stop)%nat && (j <? length sorted)%nat); [|exact Hacc].
    destruct (nth_error sorted j) as [p|] eqn:Hp; [|exact Hacc].
    destruct acc as [[[r g] b] count]. apply IH.
    apply nth_error_In in Hp.
    rewrite Forall_forall in Hall. destruct (Hall p Hp) as (Hr & Hg & Hb).
    unfold sumsBounded in *. cbv zeta in *.
    rewrite Nat2Z.inj_succ. unfold Z.succ. rewrite inject_Z_plus.
    change (inject_Z 1) with 1.
    revert Hacc. generalize (inject_Z (Z.of_nat count)). intros n Hacc. lra.
Qed.

Lemma paletteEntry_colour (sorted : list Sampler.ParticleData)
    (chunkSize i : nat) :
  Forall unitColour sorted -> isHexColour (paletteEntry sorted chunkSize i).
Proof.
  intro Hall. unfold paletteEntry. apply hexOfSums_colour.
  apply chunkSum_bounded; [exact Hall|].
  unfold sumsBounded. cbv zeta. change (inject_Z (Z.of_nat 0)) with 0. lra.
Qed.

(** X27. The palette of a saved memory always has three entries; when the
    colour channels of the particles lie between 0 and 1, as the sampler
    makes them, each entry is [#] followed by six hexadecimal digits. *)
Theorem palette_is_three_hex_colours
    (particles : list Sampler.ParticleData) :
  Forall unitColour particles ->
  length (paletteOf particles) = 3%nat /\
  Forall isHexColour (paletteOf particles).
Proof.
  intro Hall. unfold paletteOf.
  set (sortedParticles := sort _ particles).
  assert (Hsorted : Forall unitColour sortedParticles).
  { eapply Permutation_Forall; [apply sort_perm|exact Hall]. }
  destruct (0 <? length sortedParticles)%nat.
  - split; [reflexivity|].
    repeat constructor; now apply paletteEntry_colour.
  - split; [reflexivity|].
    destruct literal_colours as (H1 & H2 & H3). repeat constructor; assumption.
Qed.

(** *** Save and restore *)

Lemma finalSnapshot_not_empty (a : AppState) : finalSnapshot a <> [].
Proof.
  unfold finalSnapshot, orString.
  destruct (join _ _); [|discriminate].
  destruct (finalizedTranscript a); discriminate.
Qed.

Lemma finalSnapshot_fixed (a a' : AppState) :
  voiceMemories a' = voiceMemories a ->
  finalizedTranscript a' = finalSnapshot a ->
  finalSnapshot a' = finalSnapshot a.
Proof.
  intros Hv Hf. unfold finalSnapshot at 1. rewrite Hv, Hf.
  unfold finalSnapshot, orString.
  destruct (join _ _); [|reflexivity].
  destruct (finalizedTranscript a); reflexivity.
Qed.

(** X28. Restoring a saved package, in whatever state the application is
    by then, brings back the voice memories, the sentiment, the density and
    the image of the scene that was saved, in the live view; the finalized
    transcript becomes the saved snapshot, which is never empty, and saving
    the restored scene again stores the same snapshot. The interim
    transcript and the saved memories are left as they are. *)
Theorem restore_brings_back_saved_scene (canvas canvas' : option jsstring)
    (now_id now_ts now_id' now_ts' : Z) (a b : AppState) :
  let pkg := packageOf canvas now_id now_ts a in
  let a' := handleRestoreMemory pkg b in
  viewMode a' = LIVE /\
  voiceMemories a' = voiceMemories a /\
  sentiment a' = sentiment a /\
  density a' = density a /\
  currentImageUrlRef a' = currentImageUrlRef a /\
  finalizedTranscript a' = transcriptSnapshot pkg /\
  transcriptSnapshot pkg <> [] /\
  transcriptSnapshot (packageOf canvas' now_id' now_ts' a')
  = transcriptSnapshot pkg /\
  transcript a' = transcript b /\
  savedMemories a' = savedMemories b.
Proof.
  cbv zeta. repeat split.
  - apply finalSnapshot_not_empty.
  - apply finalSnapshot_fixed; reflexivity.
Qed.

(** *** Speech results *)

Lemma last_cons (A : Type) (x d : A) (l : list A) :
  last (x :: l) d = last l x.
Proof.
  revert x d. induction l as [|y l IH]; intros x d; [reflexivity|].
  change (last (x :: y :: l) d) with (last (y :: l) d).
  now rewrite (IH y d), (IH y x).
Qed.

Lemma resultLoop_spec (Date_now : nat -> Z) (results : list SpeechResult) :
  forall (k : nat) (interim : jsstring) (a : AppState),
  let out := resultLoop Date_now results k interim a in
  fst out = interim ++ interimText results /\
  (exists added,
     voiceMemories (snd out) = voiceMemories a ++ added /\
     map vm_transcript added = finalTexts results /\
     Forall (fun m => vm_sentiment m = sentimentRef a) added) /\
  finalizedTranscript (snd out)
  = last (finalTexts results) (finalizedTranscript a) /\
  transcript (snd out)
  = match finalTexts results with [] => transcript a | _ :: _ => [] end /\
  sentimentRef (snd out) = sentimentRef a /\
  sentiment (snd out) = sentiment a /\
  savedMemories (snd out) = savedMemories a.
Proof.
  unfold finalTexts, interimText.
  induction results as [|res rest IH]; intros k interim a; cbv zeta.
  - simpl. rewrite app_nil_r. repeat split. exists []. rewrite app_nil_r.
    repeat split. constructor.
  - cbn [Session.resultLoop filter]. destruct (isFinal res) eqn:Hfin.
    + cbn [negb map concat].
      destruct (IH (k + 2)%nat interim
                  (finalResult toString (alternative res) (Date_now k)
                     (Date_now (k + 1)%nat) a))
        as (Hi & (added & Hv & Ht & Hs) & Hf & Htr & Hr & Hse & Hsv).
      cbv zeta in *. cbn [finalResult voiceMemories finalizedTranscript
        transcript sentimentRef sentiment savedMemories] in *.
      split; [exact Hi|]. split.
      * eexists (_ :: added). rewrite Hv, <- app_assoc. split; [reflexivity|].
        split; [cbn [map vm_transcript]; now rewrite Ht|].
        constructor; [reflexivity|exact Hs].
      * rewrite last_cons. repeat split; try assumption.
        rewrite Htr. now destruct (map alternative (filter isFinal rest)).
    + cbn [negb map concat].
      destruct (IH k (interim ++ alternative res) a)
        as (Hi & Hadd & Hf & Htr & Hr & Hse & Hsv).
      cbv zeta in *. rewrite <- app_assoc in Hi. repeat split; assumption.
Qed.

(** X29. A speech event appends one voice memory for each final result
    from the result index on, in their order, each with the sentiment the
    ref holds, and never touches the memories recorded before; the
    finalized transcript becomes the text of the last final result; the
    interim transcript becomes the concatenation of the interim results
    when that is not empty, is cleared when there is a final result only,
    and is kept otherwise. *)
Theorem speech_results_append_memories (Date_now : nat -> Z)
    (results : list SpeechResult) (resultIndex : nat) (a : AppState) :
  let news := skipn resultIndex results in
  let a' := onresult Date_now results resultIndex a in
  (exists added,
     voiceMemories a' = voiceMemories a ++ added /\
     map vm_transcript added = finalTexts news /\
     Forall (fun m => vm_sentiment m = sentimentRef a) added) /\
  finalizedTranscript a' = last (finalTexts news) (finalizedTranscript a) /\
  transcript a'
  = match interimText news, finalTexts news with
    | _ :: _, _ => interimText news
    | [], _ :: _ => []
    | [], [] => transcript a
    end /\
  sentiment a' = sentiment a /\
  savedMemories a' = savedMemories a.
Proof.
  cbv zeta. unfold onresult, Session.onresult.
  pose proof (resultLoop_spec Date_now (skipn resultIndex results) 0 [] a)
    as Hspec.
  cbv zeta in Hspec.
  destruct (resultLoop Date_now (skipn resultIndex results) 0 [] a)
    as [interim a'].
  cbn [fst snd] in Hspec.
  destruct Hspec as (Hi & Hadd & Hf & Htr & _ & Hse & Hsv).
  rewrite app_nil_l in Hi. rewrite <- Hi.
  destruct interim as [|c interim].
  - repeat split; assumption.
  - cbn [setTranscript voiceMemories finalizedTranscript transcript sentiment
      savedMemories].
    repeat split; assumption.
Qed.

End SessionFacts.

Section SessionExamples.
Import JS Search Session.
Open Scope Q_scope.

Lemma palette_is_three_hex_colours_witness :
  length (paletteOf (particles ex_live)) = 3%nat /\
  Forall isHexColour (paletteOf (particles ex_live)).
Proof.
  apply (@palette_is_three_hex_colours (particles ex_live)).
  repeat constructor; vm_compute; discriminate.
Defined.

(** The scene of the example is saved with the colours of its three
    particles, the nearest first. *)
Example live_scene_palette :
  ex_palette
  = [ of_ascii "#336699"; of_ascii "#0000ff"; of_ascii "#ff7f00" ].
Proof. reflexivity. Qed.

(** The live scene is saved, another image is uploaded and sampled, and the
    saved memory is restored: the two voice memories are back and the
    finalized transcript is their texts joined by a space. *)
Example saved_scene_survives_upload :
  let saved := handleSaveMemory ex_toString None 10 10 ex_live in
  let other :=
    particlesLoaded [ex_particle 0 1 1 1] 30
      (handleUpload (of_ascii "blob:2") 20 saved) in
  match savedMemories other with
  | pkg :: _ =>
      let back := handleRestoreMemory pkg other in
      voiceMemories other = [] /\
      voiceMemories back = voiceMemories ex_live /\
      finalizedTranscript back = of_ascii "a walk the sea" /\
      currentImageUrlRef back = of_ascii "blob:1" /\
      particles back = []
  | [] => False
  end.
Proof. cbv zeta. cbn. repeat split. Qed.

End SessionExamples.

(** ** PCM conversion *)

Section PcmFacts.
Import JS Pcm.
Open Scope Q_scope.

Lemma toInt16_small (v : Q) :
  (-32768 <= truncate v <= 32767)%Z -> toInt16 v = truncate v.
Proof.
  intro H. unfold toInt16.
  destruct (Z_le_gt_dec 0 (truncate v)).
  - rewrite Z.mod_small by lia.
    destruct (Z.leb_spec 32768 (truncate v)); lia.
  - replace (truncate v mod 65536)%Z with (truncate v + 65536)%Z.
    + destruct (Z.leb_spec 32768 (truncate v + 65536)); lia.
    + apply Z.mod_unique with (q := (-1)%Z); lia.
Qed.

Lemma truncate_mono (u v : Q) : u <= v -> (truncate u <= truncate v)%Z.
Proof.
  intro H. unfold truncate.
  destruct (Qle_bool 0 u) eqn:Hu, (Qle_bool 0 v) eqn:Hv.
  - now apply Qfloor_resp_le.
  - apply Qle_bool_iff in Hu.
    assert (0 <= v) by lra. apply Qle_bool_iff in H0. congruence.
  - apply Qle_bool_iff in Hv.
    assert (Hu' : u <= 0).
    { destruct (Qlt_le_dec 0 u) as [Hpos|]; [|assumption].
      apply Qlt_le_weak, Qle_bool_iff in Hpos. congruence. }
    apply Z.le_trans with 0%Z.
    + rewrite <- (Qceiling_Z 0). now apply Qceiling_resp_le.
    + rewrite <- (Qfloor_Z 0). now apply Qfloor_resp_le.
  - now apply Qceiling_resp_le.
Qed.

(** The clamped sample is the input, or the bound it passed. *)
Lemma clamp_cases (x : Q) :
  let s := Qmax (- (1)) (Qmin 1 x) in
  (x <= - (1) /\ s = - (1)) \/
  (- (1) < x < 1 /\ s = x) \/
  (1 <= x /\ s = 1).
Proof.
  cbv zeta. unfold Qmax, Qmin, GenericMinMax.gmax, GenericMinMax.gmin.
  destruct (Qcompare_spec 1 x) as [H1|H1|H1].
  - right. right. split; [lra|reflexivity].
  - right. right. split; [lra|reflexivity].
  - destruct (Qcompare_spec (- (1)) x) as [H2|H2|H2].
    + left. split; [lra|reflexivity].
    + right. left. split; [lra|reflexivity].
    + left. split; [lra|reflexivity].
Qed.

Lemma scaled_range (x : Q) : - (32768) <= scaled x <= 32767.
Proof.
  unfold scaled. cbv zeta.
  destruct (clamp_cases x) as [[_ ->] | [[[Hlo Hhi] ->] | [_ ->]]].
  - change (ltb (- (1)) 0) with true. cbv iota. lra.
  - destruct (ltb x 0) eqn:E.
    + apply ltb_lt in E. lra.
    + apply ltb_ge in E. lra.
  - change (ltb 1 0) with false. cbv iota. lra.
Qed.

Lemma scaled_mono (x y : Q) : x <= y -> scaled x <= scaled y.
Proof.
  intro H. unfold scaled. cbv zeta.
  destruct (clamp_cases x) as [[Hx ->] | [[[Hx1 Hx2] ->] | [Hx ->]]];
  destruct (clamp_cases y) as [[Hy ->] | [[[Hy1 Hy2] ->] | [Hy ->]]];
    try change (ltb (- (1)) 0) with true;
    try change (ltb 1 0) with false;
    try (destruct (ltb x 0) eqn:Ex; [apply ltb_lt in Ex|apply ltb_ge in Ex]);
    try (destruct (ltb y 0) eqn:Ey; [apply ltb_lt in Ey|apply ltb_ge in Ey]);
    cbv iota; lra.
Qed.

(** X30. The conversion to 16-bit PCM never wraps: the sample stored is the
    scaled value with its fraction dropped, between -32768 and 32767; the
    conversion keeps the order of the inputs, sends every input of 1 or
    more to 32767 and every input of -1 or less to -32768. *)
Theorem pcm_samples_never_wrap (x y : Q) :
  pcmSample x = truncate (scaled x) /\
  (-32768 <= pcmSample x <= 32767)%Z /\
  (x <= y -> (pcmSample x <= pcmSample y)%Z) /\
  (1 <= x -> pcmSample x = 32767%Z) /\
  (x <= - (1) -> pcmSample x = (-32768)%Z).
Proof.
  assert (Hrange : forall v, (-32768 <= truncate (scaled v) <= 32767)%Z).
  { intro v. destruct (scaled_range v) as [Hlo Hhi]. split.
    - change (-32768)%Z with (truncate (- (32768))).
      now apply truncate_mono.
    - change 32767%Z with (truncate 32767). now apply truncate_mono. }
  assert (Heq : forall v, pcmSample v = truncate (scaled v)).
  { intro v. unfold pcmSample. apply toInt16_small, Hrange. }
  split; [apply Heq|]. split; [rewrite Heq; apply Hrange|].
  split; [|split].
  - intro H. rewrite !Heq. now apply truncate_mono, scaled_mono.
  - intro H. rewrite Heq. unfold scaled. cbv zeta.
    destruct (clamp_cases x) as [[Hx _] | [[[_ Hx] _] | [_ ->]]]; [lra|lra|].
    reflexivity.
  - intro H. rewrite Heq. unfold scaled. cbv zeta.
    destruct (clamp_cases x) as [[_ ->] | [[[Hx _] _] | [Hx _]]]; [|lra|lra].
    reflexivity.
Qed.

End PcmFacts.
